(** * Sorted linked-list sets: lock coupling and lazy synchronisation

    A sequential model of the two list-based sets of the repository:
    [FineGrainedList] (hand-over-hand locking) and [MarkedList]
    (optimistic traversal, validation, logical deletion).

    Nodes live in a heap indexed by addresses; [Node*] is an optional
    address.  Mutexes are modelled by the set of addresses whose mutex
    is currently held by the running thread.  Loops carry a fuel
    argument that bounds the number of iterations. *)

From stdpp Require Import gmap list sorting.
From Stdlib Require Import ZArith Lia.

Local Open Scope Z_scope.

(** ** Addresses, pointers and outcomes *)

Definition addr := positive.

(** A [Node*]: [None] is [nullptr]. *)
Definition ptr := option addr.

(** The range of the C++ type [int], the argument type of the three
    operations. *)
Definition INT_MIN : Z := -2147483648.
Definition INT_MAX : Z := 2147483647.
Definition is_int (v : Z) : Prop := INT_MIN <= v <= INT_MAX.

(** Outcome of running a piece of code: a value and a final state, a
    loop that used up its fuel, or undefined behaviour (dereferencing a
    pointer that is null or dangling, locking a mutex the thread
    already holds, unlocking one it does not hold, destroying a locked
    mutex). *)
Inductive res (A : Type) : Type :=
| Ok (a : A)
| OutOfFuel
| Stuck.
Arguments Ok {A} a.
Arguments OutOfFuel {A}.
Arguments Stuck {A}.

Definition M (S A : Type) : Type := S → res (A * S).

Definition ret {S A} (a : A) : M S A := λ s, Ok (a, s).

Definition bind {S A B} (m : M S A) (k : A → M S B) : M S B :=
  λ s, match m s with
       | Ok (a, s') => k a s'
       | OutOfFuel => OutOfFuel
       | Stuck => Stuck
       end.

Definition timeout {S A} : M S A := λ _, OutOfFuel.

Declare Scope prog_scope.
Delimit Scope prog_scope with prog.
Notation "x <- m ;; k" := (bind m (λ x, k))
  (at level 100, m at next level, right associativity) : prog_scope.
Notation "m ;;; k" := (bind m (λ _, k))
  (at level 100, right associativity) : prog_scope.
Local Open Scope prog_scope.

(** The set of mutexes named by a pointer: none for [nullptr]. *)
Definition ptr_set (p : ptr) : gset addr :=
  match p with
  | Some a => {[ a ]}
  | None => ∅
  end.

(** ** The abstract sorted multiset, following the specification *)

Module SortedSet.

(** Insert before the first element that is not smaller. *)
Fixpoint insert (v : Z) (l : list Z) : list Z :=
  match l with
  | [] => [v]
  | x :: l' => if x <? v then x :: insert v l' else v :: l
  end.

(** Remove the first occurrence, reporting whether there was one. *)
Fixpoint remove (v : Z) (l : list Z) : bool * list Z :=
  match l with
  | [] => (false, [])
  | x :: l' =>
      if x =? v then (true, l')
      else let '(b, r) := remove v l' in (b, x :: r)
  end.

Definition contains (v : Z) (l : list Z) : bool :=
  bool_decide (v ∈ l).

(** Number of entries equal to [v]. *)
Definition count (v : Z) (l : list Z) : nat :=
  length (filter (λ x, x = v) l).

End SortedSet.

(** ** Operations, results and histories *)

Inductive op : Type :=
| OInsert (v : Z)
| ORemove (v : Z)
| OContains (v : Z).

(** [insert] returns nothing; [remove] and [contains] return a [bool]. *)
Inductive result : Type :=
| RVoid
| RBool (b : bool).

(** Number of [insert(v)] calls in a history. *)
Fixpoint inserts_of (v : Z) (ops : list op) : nat :=
  match ops with
  | [] => 0%nat
  | OInsert x :: ops' =>
      if decide (x = v) then S (inserts_of v ops') else inserts_of v ops'
  | _ :: ops' => inserts_of v ops'
  end.

(** Number of [remove(v)] calls in a history that returned [true]. *)
Fixpoint removes_of (v : Z) (ops : list op) (rs : list result) : nat :=
  match ops, rs with
  | ORemove x :: ops', RBool true :: rs' =>
      if decide (x = v) then S (removes_of v ops' rs') else removes_of v ops' rs'
  | _ :: ops', _ :: rs' => removes_of v ops' rs'
  | _, _ => 0%nat
  end.

(** One abstract step: the result and the new contents. *)
Definition spec_exec (o : op) (l : list Z) : result * list Z :=
  match o with
  | OInsert v => (RVoid, SortedSet.insert v l)
  | ORemove v => let '(b, l') := SortedSet.remove v l in (RBool b, l')
  | OContains v => (RBool (SortedSet.contains v l), l)
  end.

(** The abstract run of a history: results and final contents. *)
Fixpoint spec_run (ops : list op) (l : list Z) : list result * list Z :=
  match ops with
  | [] => ([], l)
  | o :: ops' =>
      let '(r, l1) := spec_exec o l in
      let '(rs, l2) := spec_run ops' l1 in
      (r :: rs, l2)
  end.

(** ** Chains of nodes in a heap

    Shared by both variants: [value] and [next] are the fields of the
    node type, [live] tells whether a node counts as present. *)

Section Chain.
Context {N : Type} (value : N → Z) (next : N → ptr) (live : N → bool).

(** [lseg h p q l]: following [next] from [p] reaches [q] through the
    nodes [l], listed with their values. *)
Inductive lseg (h : gmap addr N) : ptr → ptr → list (addr * Z) → Prop :=
| lseg_nil p : lseg h p p []
| lseg_cons a n q l :
    h !! a = Some n →
    live n = true →
    lseg h (next n) q l →
    lseg h (Some a) q ((a, value n) :: l).

(** The nodes visited by [while (curr) curr = curr->next]. *)
Fixpoint walk (fuel : nat) (h : gmap addr N) (p : ptr) : res (list (addr * N)) :=
  match p with
  | None => Ok []
  | Some a =>
      match fuel with
      | O => OutOfFuel
      | S k =>
          match h !! a with
          | None => Stuck
          | Some n =>
              match walk k h (next n) with
              | Ok l => Ok ((a, n) :: l)
              | e => e
              end
          end
      end
  end.

(** The part of a chain that a search for [val] skips, and the rest. *)
Fixpoint front (val : Z) (l : list (addr * Z)) : list (addr * Z) :=
  match l with
  | [] => []
  | x :: l' => if x.2 <? val then x :: front val l' else []
  end.

Fixpoint back (val : Z) (l : list (addr * Z)) : list (addr * Z) :=
  match l with
  | [] => []
  | x :: l' => if x.2 <? val then back val l' else l
  end.

(** Whether the first node of the rest holds [val]. *)
Definition found (val : Z) (l : list (addr * Z)) : bool :=
  match back val l with
  | [] => false
  | x :: _ => x.2 =? val
  end.

Definition first_addr (l : list (addr * Z)) : ptr := head (l.*1).

Definition last_addr (a : addr) (l : list (addr * Z)) : addr :=
  List.last (l.*1) a.

End Chain.

(** ** The lock-coupling list (FineGrainedList) *)

Module FineGrainedList.

Record Node : Type := mkNode { value : Z; next : ptr }.

(** The memory, the mutexes held by the thread, and the list object
    (its only field is [head]). *)
Record state : Type := mkState {
  heap : gmap addr Node;
  locks : gset addr;
  head : addr
}.

Definition set_heap (h : gmap addr Node) (s : state) : state :=
  mkState h (locks s) (head s).
Definition set_locks (L : gset addr) (s : state) : state :=
  mkState (heap s) L (head s).

(** Dereference a node pointer. *)
Definition load (p : addr) : M state Node :=
  λ s, match heap s !! p with
       | Some n => Ok (n, s)
       | None => Stuck
       end.

(** [p->next = q]. *)
Definition store_next (p : addr) (q : ptr) : M state unit :=
  λ s, match heap s !! p with
       | Some n => Ok ((), set_heap (<[p := mkNode (value n) q]> (heap s)) s)
       | None => Stuck
       end.

(** [new Node(val, nxt)]: an address that is not in use. *)
Definition new_node (val : Z) (nxt : ptr) : M state addr :=
  λ s, let a := fresh (dom (heap s)) in
       Ok (a, set_heap (<[a := mkNode val nxt]> (heap s)) s).

(** [delete p]; the node's mutex must not be held. *)
Definition delete_node (p : addr) : M state unit :=
  λ s, match heap s !! p with
       | Some _ =>
           if decide (p ∈ locks s) then Stuck
           else Ok ((), set_heap (delete p (heap s)) s)
       | None => Stuck
       end.

(** Acquire the mutex of node [p]. *)
Definition lock (p : addr) : M state unit :=
  λ s, match heap s !! p with
       | Some _ =>
           if decide (p ∈ locks s) then Stuck
           else Ok ((), set_locks ({[ p ]} ∪ locks s) s)
       | None => Stuck
       end.

(** Release the mutex of node [p]. *)
Definition unlock (p : addr) : M state unit :=
  λ s, if decide (p ∈ locks s)
       then Ok ((), set_locks (locks s ∖ {[ p ]}) s)
       else Stuck.

(** [if (curr) currLock = std::unique_lock<std::mutex>(curr->m);] *)
Definition lock_if (p : ptr) : M state unit :=
  match p with
  | Some a => lock a
  | None => ret ()
  end.

(** Release of a [unique_lock] that owns the mutex of [p], if any. *)
Definition unlock_if (p : ptr) : M state unit :=
  match p with
  | Some a => unlock a
  | None => ret ()
  end.

Definition get_head : M state addr := λ s, Ok (head s, s).

(** The constructor: a sentinel [Node(-1)] in an empty memory. *)
Definition new_list : state :=
  let a := fresh (∅ : gset addr) in
  mkState {[ a := mkNode (-1) None ]} ∅ a.

(** The traversal loop shared by the three operations.  On entry
    [predLock] owns the mutex of [pred] and [currLock] that of [curr]
    (when [curr] is not null); the same holds on exit. *)
Fixpoint advance (fuel : nat) (val : Z) (pred : addr) (curr : ptr)
  : M state (addr * ptr) :=
  match curr with
  | None => ret (pred, None)
  | Some c =>
      cn <- load c;;
      if value cn <? val then
        match fuel with
        | O => timeout
        | S k =>
            unlock pred;;;
            pn <- load c;;
            let nxt := next pn in
            lock_if nxt;;;
            advance k val c nxt
        end
      else ret (pred, Some c)
  end.

(** The common prologue: lock the sentinel and its successor, then
    traverse. *)
Definition locate (fuel : nat) (val : Z) : M state (addr * ptr) :=
  pred <- get_head;;
  lock pred;;;
  pn <- load pred;;
  let curr := next pn in
  lock_if curr;;;
  advance fuel val pred curr.

(** [insert]: splice a new node between [pred] and [curr].  The two
    [unique_lock]s are released at scope exit, [currLock] first. *)
Definition insert (fuel : nat) (val : Z) : M state unit :=
  pc <- locate fuel val;;
  let '(pred, curr) := pc in
  newNode <- new_node val curr;;
  store_next pred (Some newNode);;;
  unlock_if curr;;;
  unlock pred.

(** [remove]: inside the [if] both [unique_lock]s own their mutex, so
    the two [owns_lock()] tests succeed and both mutexes are released
    before [delete curr]; on the way to [return false] the destructors
    release them. *)
Definition remove (fuel : nat) (val : Z) : M state bool :=
  pc <- locate fuel val;;
  let '(pred, curr) := pc in
  match curr with
  | Some c =>
      cn <- load c;;
      if value cn =? val then
        cn' <- load c;;
        store_next pred (next cn');;;
        unlock c;;;
        unlock pred;;;
        delete_node c;;;
        ret true
      else
        unlock c;;;
        unlock pred;;;
        ret false
  | None =>
      unlock pred;;;
      ret false
  end.

(** [contains]: [found = (curr && curr->value == val)], read-only. *)
Definition contains (fuel : nat) (val : Z) : M state bool :=
  pc <- locate fuel val;;
  let '(pred, curr) := pc in
  found <- (match curr with
            | Some c => cn <- load c;; ret (value cn =? val)
            | None => ret false
            end);;
  unlock_if curr;;;
  unlock pred;;;
  ret found.

(** Modelled from the spec: the diagnostic [snapshot()] of the
    lock-coupling list, which the class does not define; the values
    of the chain that starts at the sentinel's successor. *)
Definition snapshot (fuel : nat) : M state (list Z) :=
  λ s, match heap s !! head s with
       | None => Stuck
       | Some hn =>
           match walk next fuel (heap s) (next hn) with
           | Ok l => Ok (map (λ x, value x.2) l, s)
           | OutOfFuel => OutOfFuel
           | Stuck => Stuck
           end
       end.

(** The values of the chain read from the sentinel itself. *)
Definition chain_values (fuel : nat) : M state (list Z) :=
  λ s, match walk next fuel (heap s) (Some (head s)) with
       | Ok l => Ok (map (λ x, value x.2) l, s)
       | OutOfFuel => OutOfFuel
       | Stuck => Stuck
       end.

Definition exec (fuel : nat) (o : op) : M state result :=
  match o with
  | OInsert v => insert fuel v;;; ret RVoid
  | ORemove v => b <- remove fuel v;; ret (RBool b)
  | OContains v => b <- contains fuel v;; ret (RBool b)
  end.

Fixpoint run (fuel : nat) (ops : list op) : M state (list result) :=
  match ops with
  | [] => ret []
  | o :: ops' =>
      r <- exec fuel o;;
      rs <- run fuel ops';;
      ret (r :: rs)
  end.

(** Every node of the lock-coupling list counts as present. *)
Definition live (n : Node) : bool := true.

(** [Inv s l]: the sentinel is followed by the chain [l] (addresses
    with their values), no node occurs twice, the values are in
    non-decreasing order and the thread holds no mutex. *)
Definition Inv (s : state) (l : list (addr * Z)) : Prop :=
  lseg value next live (heap s) (Some (head s)) None ((head s, -1) :: l) ∧
  NoDup (head s :: l.*1) ∧
  StronglySorted Z.le (l.*2) ∧
  locks s = ∅.

(** [steps s s']: a single thread takes the list from [s] to [s'] by
    a sequence of completed operations. *)
Inductive steps (s : state) : state → Prop :=
| steps_refl : steps s s
| steps_exec fuel o s1 r s2 :
    steps s s1 → exec fuel o s1 = Ok (r, s2) → steps s s2.

Definition reachable (s : state) : Prop := steps new_list s.

(** The example of [main], extended with the snapshots and the
    [remove(99)] of the concrete scenarios. *)
Definition scenario (fuel : nat)
  : M state (list Z * bool * bool * bool * list Z * bool * list Z) :=
  insert fuel 10;;;
  insert fuel 5;;;
  insert fuel 20;;;
  snap1 <- snapshot fuel;;
  has1 <- contains fuel 10;;
  rem1 <- remove fuel 10;;
  has2 <- contains fuel 10;;
  snap2 <- snapshot fuel;;
  rem2 <- remove fuel 99;;
  snap3 <- snapshot fuel;;
  ret (snap1, has1, rem1, has2, snap2, rem2, snap3).

(** The list after [insert(5)] twice. *)
Definition two_fives : state :=
  match run 2 [OInsert 5; OInsert 5] new_list with
  | Ok (_, s) => s
  | _ => new_list
  end.

(** The loop of the destructor: [temp = curr; curr = curr->next;
    delete temp]. *)
Fixpoint destroy_from (fuel : nat) (curr : ptr) : M state unit :=
  match curr with
  | None => ret ()
  | Some c =>
      match fuel with
      | O => timeout
      | S k =>
          cn <- load c;;
          delete_node c;;;
          destroy_from k (next cn)
      end
  end.

(** [~FineGrainedList()]: free every node from the sentinel on. *)
Definition destructor (fuel : nat) : M state unit :=
  curr <- get_head;;
  destroy_from fuel (Some curr).

End FineGrainedList.

(** ** The lazy list (MarkedList) *)

Module MarkedList.

Record Node : Type := mkNode { value : Z; next : ptr; removed : bool }.

(** Writes to the memory, in program order. *)
Inductive event : Type :=
| EvNew (a : addr) (val : Z) (nxt : ptr)
| EvSetRemoved (a : addr)
| EvSetNext (a : addr) (q : ptr).

(** The memory, the mutexes held by the thread, the list object (its
    only field is [head]) and the writes performed so far, oldest
    first.  The class has no [delete] outside its destructor, so
    there is no event for freeing a node. *)
Record state : Type := mkState {
  heap : gmap addr Node;
  locks : gset addr;
  head : addr;
  log : list event
}.

Definition set_heap (h : gmap addr Node) (e : event) (s : state) : state :=
  mkState h (locks s) (head s) (log s ++ [e]).
Definition set_locks (L : gset addr) (s : state) : state :=
  mkState (heap s) L (head s) (log s).

Definition load (p : addr) : M state Node :=
  λ s, match heap s !! p with
       | Some n => Ok (n, s)
       | None => Stuck
       end.

(** [p->next = q]. *)
Definition store_next (p : addr) (q : ptr) : M state unit :=
  λ s, match heap s !! p with
       | Some n =>
           Ok ((), set_heap (<[p := mkNode (value n) q (removed n)]> (heap s))
                     (EvSetNext p q) s)
       | None => Stuck
       end.

(** [p->removed = true]. *)
Definition store_removed (p : addr) : M state unit :=
  λ s, match heap s !! p with
       | Some n =>
           Ok ((), set_heap (<[p := mkNode (value n) (next n) true]> (heap s))
                     (EvSetRemoved p) s)
       | None => Stuck
       end.

(** [new Node(val, nxt)]: an address that is not in use; the
    constructor clears [removed]. *)
Definition new_node (val : Z) (nxt : ptr) : M state addr :=
  λ s, let a := fresh (dom (heap s)) in
       Ok (a, set_heap (<[a := mkNode val nxt false]> (heap s)) (EvNew a val nxt) s).

Definition lock (p : addr) : M state unit :=
  λ s, match heap s !! p with
       | Some _ =>
           if decide (p ∈ locks s) then Stuck
           else Ok ((), set_locks ({[ p ]} ∪ locks s) s)
       | None => Stuck
       end.

Definition unlock (p : addr) : M state unit :=
  λ s, if decide (p ∈ locks s)
       then Ok ((), set_locks (locks s ∖ {[ p ]}) s)
       else Stuck.

Definition lock_if (p : ptr) : M state unit :=
  match p with
  | Some a => lock a
  | None => ret ()
  end.

Definition unlock_if (p : ptr) : M state unit :=
  match p with
  | Some a => unlock a
  | None => ret ()
  end.

Definition get_head : M state addr := λ s, Ok (head s, s).

(** The constructor: a sentinel [Node(-1)] in an empty memory. *)
Definition new_list : state :=
  let a := fresh (∅ : gset addr) in
  mkState {[ a := mkNode (-1) None false ]} ∅ a [EvNew a (-1) None].

(** [!pred->removed && !(curr && curr->removed) && pred->next == curr],
    evaluated left to right with short circuit. *)
Definition validate (pred : addr) (curr : ptr) : M state bool :=
  pn <- load pred;;
  if removed pn then ret false
  else
    match curr with
    | Some c =>
        cn <- load c;;
        if removed cn then ret false
        else pn' <- load pred;; ret (bool_decide (next pn' = curr))
    | None => pn' <- load pred;; ret (bool_decide (next pn' = curr))
    end.

(** Step (1) of the three operations: traverse without locks. *)
Fixpoint traverse (fuel : nat) (val : Z) (pred : addr) (curr : ptr)
  : M state (addr * ptr) :=
  match curr with
  | None => ret (pred, None)
  | Some c =>
      cn <- load c;;
      if value cn <? val then
        match fuel with
        | O => timeout
        | S k =>
            cn' <- load c;;
            traverse k val c (next cn')
        end
      else ret (pred, Some c)
  end.

(** Steps (1) to (4): traverse, lock the pair, validate.  The result
    is the pair and the outcome of [validate]; both mutexes are held. *)
Definition locate (fuel : nat) (val : Z) : M state (addr * ptr * bool) :=
  pred <- get_head;;
  pn <- load pred;;
  pc <- traverse fuel val pred (next pn);;
  let '(pred, curr) := pc in
  lock pred;;;
  lock_if curr;;;
  ok <- validate pred curr;;
  ret (pred, curr, ok).

(** One iteration of [while (true)]: [None] stands for [continue],
    [Some r] for [return r].  The two [unique_lock]s are released on
    both ways out of the loop body. *)
Definition insert_once (fuel : nat) (val : Z) : M state (option unit) :=
  pco <- locate fuel val;;
  let '(pred, curr, ok) := pco in
  if negb ok then
    unlock_if curr;;;
    unlock pred;;;
    ret None
  else
    newNode <- new_node val curr;;
    store_next pred (Some newNode);;;
    unlock_if curr;;;
    unlock pred;;;
    ret (Some ()).

Definition remove_once (fuel : nat) (val : Z) : M state (option bool) :=
  pco <- locate fuel val;;
  let '(pred, curr, ok) := pco in
  if negb ok then
    unlock_if curr;;;
    unlock pred;;;
    ret None
  else
    match curr with
    | None =>
        unlock pred;;;
        ret (Some false)
    | Some c =>
        cn <- load c;;
        if negb (value cn =? val) then
          unlock c;;;
          unlock pred;;;
          ret (Some false)
        else
          store_removed c;;;
          cn' <- load c;;
          store_next pred (next cn');;;
          unlock c;;;
          unlock pred;;;
          ret (Some true)
    end.

Definition contains_once (fuel : nat) (val : Z) : M state (option bool) :=
  pco <- locate fuel val;;
  let '(pred, curr, ok) := pco in
  if negb ok then
    unlock_if curr;;;
    unlock pred;;;
    ret None
  else
    found <- (match curr with
              | None => ret false
              | Some c =>
                  cn <- load c;;
                  if removed cn then ret false
                  else cn' <- load c;; ret (value cn' =? val)
              end);;
    unlock_if curr;;;
    unlock pred;;;
    ret (Some found).

(** [while (true) { body }], at most [tries] iterations. *)
Fixpoint retry {A} (tries : nat) (body : M state (option A)) : M state A :=
  match tries with
  | O => timeout
  | S k =>
      r <- body;;
      match r with
      | Some a => ret a
      | None => retry k body
      end
  end.

Definition insert (tries fuel : nat) (val : Z) : M state unit :=
  retry tries (insert_once fuel val).

Definition remove (tries fuel : nat) (val : Z) : M state bool :=
  retry tries (remove_once fuel val).

Definition contains (tries fuel : nat) (val : Z) : M state bool :=
  retry tries (contains_once fuel val).

(** [printList]: the values written to [std::cout], in order. *)
Definition printList (fuel : nat) : M state (list Z) :=
  λ s, match heap s !! head s with
       | None => Stuck
       | Some hn =>
           match walk next fuel (heap s) (next hn) with
           | Ok l =>
               Ok (map (λ x, value x.2) (filter (λ x, removed x.2 = false) l), s)
           | OutOfFuel => OutOfFuel
           | Stuck => Stuck
           end
       end.

(** The nodes of the chain read from the sentinel itself. *)
Definition chain_nodes (fuel : nat) : M state (list (addr * Node)) :=
  λ s, match walk next fuel (heap s) (Some (head s)) with
       | Ok l => Ok (l, s)
       | OutOfFuel => OutOfFuel
       | Stuck => Stuck
       end.

Definition exec (tries fuel : nat) (o : op) : M state result :=
  match o with
  | OInsert v => insert tries fuel v;;; ret RVoid
  | ORemove v => b <- remove tries fuel v;; ret (RBool b)
  | OContains v => b <- contains tries fuel v;; ret (RBool b)
  end.

Fixpoint run (tries fuel : nat) (ops : list op) : M state (list result) :=
  match ops with
  | [] => ret []
  | o :: ops' =>
      r <- exec tries fuel o;;
      rs <- run tries fuel ops';;
      ret (r :: rs)
  end.

(** A node counts as present while it is not marked. *)
Definition live (n : Node) : bool := negb (removed n).

(** [Inv s l]: the sentinel is followed by the chain [l] (addresses
    with their values), all of it unmarked, no node occurs twice, the
    values are in non-decreasing order and the thread holds no mutex. *)
Definition Inv (s : state) (l : list (addr * Z)) : Prop :=
  lseg value next live (heap s) (Some (head s)) None ((head s, -1) :: l) ∧
  NoDup (head s :: l.*1) ∧
  StronglySorted Z.le (l.*2) ∧
  locks s = ∅.

(** [steps s s']: a single thread takes the list from [s] to [s'] by
    a sequence of completed operations. *)
Inductive steps (s : state) : state → Prop :=
| steps_refl : steps s s
| steps_exec tries fuel o s1 r s2 :
    steps s s1 → exec tries fuel o s1 = Ok (r, s2) → steps s s2.

Definition reachable (s : state) : Prop := steps new_list s.

(** The concrete scenarios on the lazy list. *)
Definition scenario (tries fuel : nat)
  : M state (list Z * bool * bool * bool * list Z * bool * list Z) :=
  insert tries fuel 10;;;
  insert tries fuel 5;;;
  insert tries fuel 20;;;
  snap1 <- printList fuel;;
  has1 <- contains tries fuel 10;;
  rem1 <- remove tries fuel 10;;
  has2 <- contains tries fuel 10;;
  snap2 <- printList fuel;;
  rem2 <- remove tries fuel 99;;
  snap3 <- printList fuel;;
  ret (snap1, has1, rem1, has2, snap2, rem2, snap3).

(** The list after [insert(5)] twice. *)
Definition two_fives : state :=
  match run 1 2 [OInsert 5; OInsert 5] new_list with
  | Ok (_, s) => s
  | _ => new_list
  end.

(** [delete p], used by the destructor only; the node's mutex must not
    be held.  The log keeps the stores of the three operations and is
    left as it is. *)
Definition delete_node (p : addr) : M state unit :=
  λ s, match heap s !! p with
       | Some _ =>
           if decide (p ∈ locks s) then Stuck
           else Ok ((), mkState (delete p (heap s)) (locks s) (head s) (log s))
       | None => Stuck
       end.

(** The loop of the destructor: [temp = curr; curr = curr->next;
    delete temp]. *)
Fixpoint destroy_from (fuel : nat) (curr : ptr) : M state unit :=
  match curr with
  | None => ret ()
  | Some c =>
      match fuel with
      | O => timeout
      | S k =>
          cn <- load c;;
          delete_node c;;;
          destroy_from k (next cn)
      end
  end.

(** [~MarkedList()]: free every node that can still be reached from
    the sentinel. *)
Definition destructor (fuel : nat) : M state unit :=
  curr <- get_head;;
  destroy_from fuel (Some curr).

End MarkedList.

(** ** Histories as a whole *)

(** Number of [insert] calls in a history, whatever the value. *)
Fixpoint total_inserts (ops : list op) : nat :=
  match ops with
  | [] => 0%nat
  | OInsert _ :: ops' => S (total_inserts ops')
  | _ :: ops' => total_inserts ops'
  end.

(** Number of [remove] calls in a history that returned [true]. *)
Fixpoint total_removes (ops : list op) (rs : list result) : nat :=
  match ops, rs with
  | ORemove _ :: ops', RBool true :: rs' => S (total_removes ops' rs')
  | _ :: ops', _ :: rs' => total_removes ops' rs'
  | _, _ => 0%nat
  end.

(** The states after a history, for examples. *)
Definition fg_after (ops : list op) : FineGrainedList.state :=
  match FineGrainedList.run (length ops) ops FineGrainedList.new_list with
  | Ok (_, s) => s
  | _ => FineGrainedList.new_list
  end.

Definition ml_after (ops : list op) : MarkedList.state :=
  match MarkedList.run 1 (length ops) ops MarkedList.new_list with
  | Ok (_, s) => s
  | _ => MarkedList.new_list
  end.


(** * Proofs *)

(** ** Sequencing *)

Lemma bind_ok {S A B} (m : M S A) (k : A → M S B) s a s' :
  m s = Ok (a, s') → bind m k s = k a s'.
Proof. unfold bind. by intros ->. Qed.

(** More fuel never changes a result: premises for [bind]. *)
Lemma bind_mono_l {S A B} (m m' : M S A) (k : A → M S B) s x :
  (∀ y, m s = Ok y → m' s = Ok y) →
  bind m k s = Ok x → bind m' k s = Ok x.
Proof.
  unfold bind. intros H. destruct (m s) as [[a s1]| |]; [|done..].
  by rewrite (H _ eq_refl).
Qed.

Lemma bind_mono_r {S A B} (m : M S A) (k k' : A → M S B) s x :
  (∀ a s1, k a s1 = Ok x → k' a s1 = Ok x) →
  bind m k s = Ok x → bind m k' s = Ok x.
Proof.
  unfold bind. intros H. destruct (m s) as [[a s1]| |]; [|done..].
  apply H.
Qed.

(** ** Searching a list of values, and the abstract sorted multiset *)

Lemma front_back val (l : list (addr * Z)) : front val l ++ back val l = l.
Proof.
  induction l as [|x l IH]; simpl; [done|].
  destruct (x.2 <? val); simpl; [by rewrite IH | done].
Qed.

Lemma front_below val (l : list (addr * Z)) :
  Forall (λ x, x.2 < val) (front val l).
Proof.
  induction l as [|x l IH]; simpl; [constructor|].
  destruct (x.2 <? val) eqn:E; constructor; [lia | done].
Qed.

Lemma back_head val (l : list (addr * Z)) x l2 :
  back val l = x :: l2 → val <= x.2.
Proof.
  induction l as [|y l IH]; simpl; [done|].
  destruct (y.2 <? val) eqn:E; [done|].
  intros [= <- <-]. lia.
Qed.

Lemma insert_front_back val a (l : list (addr * Z)) :
  (front val l ++ (a, val) :: back val l).*2 = SortedSet.insert val (l.*2).
Proof.
  induction l as [|x l IH]; simpl; [done|].
  destruct (x.2 <? val); simpl; [f_equal; exact IH | done].
Qed.

Lemma insert_elem_of v x l : x ∈ SortedSet.insert v l ↔ x = v ∨ x ∈ l.
Proof.
  induction l as [|y l IH]; simpl.
  - rewrite list_elem_of_singleton. split; [by left|].
    intros [?|?%elem_of_nil]; done.
  - destruct (y <? v).
    + rewrite !elem_of_cons, IH. tauto.
    + by rewrite elem_of_cons.
Qed.

Lemma insert_sorted v l :
  StronglySorted Z.le l → StronglySorted Z.le (SortedSet.insert v l).
Proof.
  induction 1 as [|y l Hl IH Hy]; simpl.
  - repeat constructor.
  - destruct (y <? v) eqn:E.
    + constructor; [done|].
      apply Forall_forall. intros x [->|Hx]%insert_elem_of; [lia|].
      by eapply Forall_forall in Hy.
    + constructor; [by constructor|].
      constructor; [lia|].
      eapply Forall_impl; [exact Hy|]. simpl. intros; lia.
Qed.

Lemma insert_count v x l :
  SortedSet.count x (SortedSet.insert v l) =
  (if decide (v = x) then S (SortedSet.count x l) else SortedSet.count x l).
Proof.
  unfold SortedSet.count.
  induction l as [|y l IH]; simpl.
  - rewrite filter_cons, filter_nil. by destruct (decide (v = x)).
  - destruct (y <? v).
    + rewrite !(filter_cons _ y).
      destruct (decide (y = x)); simpl; rewrite IH;
        by destruct (decide (v = x)).
    + rewrite (filter_cons _ v). by destruct (decide (v = x)).
Qed.

Lemma remove_front_back_hit val c (l l2 : list (addr * Z)) :
  back val l = (c, val) :: l2 →
  SortedSet.remove val (l.*2) = (true, (front val l ++ l2).*2).
Proof.
  induction l as [|x l IH]; csimpl; [done|].
  destruct (x.2 <? val) eqn:E.
  - intros H. destruct (x.2 =? val) eqn:E'; [lia|].
    by rewrite (IH H).
  - intros [= -> ->]. simpl. by rewrite Z.eqb_refl.
Qed.

Lemma remove_absent v l : v ∉ l → SortedSet.remove v l = (false, l).
Proof.
  induction l as [|x l IH]; simpl; [done|].
  intros [Hx Hl]%not_elem_of_cons.
  destruct (x =? v) eqn:E; [lia|]. by rewrite (IH Hl).
Qed.

Lemma back_miss_absent val (l : list (addr * Z)) :
  StronglySorted Z.le (l.*2) →
  match back val l with
  | [] => True
  | x :: _ => x.2 ≠ val
  end →
  val ∉ l.*2.
Proof.
  intros Hs Hb Hin.
  rewrite <- (front_back val l), fmap_app in Hin.
  apply elem_of_app in Hin as [Hin|Hin].
  - apply list_elem_of_fmap in Hin as (x & Hv & Hx).
    pose proof (front_below val l) as Hf.
    eapply Forall_forall in Hf; [|exact Hx]. simpl in Hf. lia.
  - destruct (back val l) as [|x l2] eqn:E; [by apply elem_of_nil in Hin|].
    pose proof (back_head _ _ _ _ E) as Hle.
    rewrite <- (front_back val l), E, fmap_app in Hs.
    apply StronglySorted_app_1_r in Hs.
    simpl in Hs, Hin. apply StronglySorted_inv in Hs as [_ Hall].
    apply elem_of_cons in Hin as [->|Hin]; [done|].
    eapply Forall_forall in Hall; [|exact Hin]. lia.
Qed.

Lemma sorted_drop_mid (l1 l2 : list Z) x :
  StronglySorted Z.le (l1 ++ x :: l2) → StronglySorted Z.le (l1 ++ l2).
Proof.
  intros (H3 & H1 & H2)%StronglySorted_app.
  apply StronglySorted_app. split_and!; [|done|].
  - intros a b Ha Hb. apply H3; [done|]. by apply elem_of_cons; right.
  - by apply StronglySorted_inv in H2 as [? _].
Qed.

(** ** Where a search stops *)

Lemma found_back val (l : list (addr * Z)) :
  found val l = true → ∃ c l2, back val l = (c, val) :: l2.
Proof.
  unfold found. destruct (back val l) as [|[c w] l2]; [done|].
  simpl. intros ?%Z.eqb_eq. subst. eauto.
Qed.

Lemma found_elem_of val (l : list (addr * Z)) :
  StronglySorted Z.le (l.*2) → found val l = true ↔ val ∈ l.*2.
Proof.
  intros Hs. split.
  - intros (c & l2 & E)%found_back.
    rewrite <- (front_back val l), E, fmap_app. apply elem_of_app. right. left.
  - intros Hin. destruct (found val l) eqn:Hf; [done|]. exfalso.
    eapply back_miss_absent; [exact Hs| |exact Hin].
    unfold found in Hf. destruct (back val l); [done|]. lia.
Qed.

Lemma found_contains val (l : list (addr * Z)) :
  StronglySorted Z.le (l.*2) → SortedSet.contains val (l.*2) = found val l.
Proof.
  intros Hs. unfold SortedSet.contains.
  destruct (found val l) eqn:Hf.
  - apply bool_decide_eq_true. by apply found_elem_of.
  - apply bool_decide_eq_false. intros Hin%found_elem_of; [congruence|done].
Qed.

Lemma found_remove_miss val (l : list (addr * Z)) :
  StronglySorted Z.le (l.*2) → found val l = false →
  SortedSet.remove val (l.*2) = (false, l.*2).
Proof.
  intros Hs Hf. apply remove_absent.
  intros Hin%found_elem_of; [congruence|done].
Qed.

Lemma remove_count v x l :
  SortedSet.count x l =
  (SortedSet.count x (SortedSet.remove v l).2 +
   (if (SortedSet.remove v l).1 then if decide (v = x) then 1 else 0 else 0))%nat.
Proof.
  unfold SortedSet.count.
  induction l as [|y l IH]; simpl; [done|].
  rewrite filter_cons.
  destruct (y =? v) eqn:E; simpl.
  - assert (y = v) as -> by lia.
    destruct (decide (v = x)); simpl; lia.
  - destruct (SortedSet.remove v l) as [b r]; simpl in *.
    rewrite filter_cons. destruct (decide (y = x)); simpl; rewrite IH; lia.
Qed.

Lemma contains_count v l :
  SortedSet.contains v l = true ↔ (0 < SortedSet.count v l)%nat.
Proof.
  unfold SortedSet.contains, SortedSet.count.
  rewrite bool_decide_eq_true.
  induction l as [|y l IH]; simpl.
  - split; [by intros ?%elem_of_nil | lia].
  - rewrite filter_cons, elem_of_cons.
    destruct (decide (y = v)) as [->|Hne]; simpl.
    + split; [lia | by left].
    + rewrite <- IH. split; [|by right].
      intros [?|?]; [congruence|done].
Qed.

Lemma back_first_elem_of val (l : list (addr * Z)) c :
  first_addr (back val l) = Some c → c ∈ l.*1.
Proof.
  intros H. rewrite <- (front_back val l), fmap_app. apply elem_of_app. right.
  unfold first_addr in H. destruct ((back val l).*1) as [|d k]; [done|].
  injection H as ->. left.
Qed.

Lemma NoDup_stop (a : addr) v (l pre : list (addr * Z)) p w val :
  NoDup (a :: l.*1) →
  (a, v) :: front val l = pre ++ [(p, w)] →
  NoDup (pre.*1 ++ p :: (back val l).*1).
Proof.
  intros Hnd E.
  replace (pre.*1 ++ p :: (back val l).*1)
    with (((a, v) :: front val l ++ back val l).*1).
  - by rewrite front_back.
  - rewrite app_comm_cons, E, <- app_assoc, fmap_app. done.
Qed.

(** ** Chains and memory updates *)

Section ChainFacts.
Context {N : Type} (value : N → Z) (next : N → ptr) (live : N → bool).
Implicit Types (h : gmap addr N) (l : list (addr * Z)) (p q : ptr).

Local Abbreviation lseg := (lseg value next live).

Lemma lseg_end h p l : lseg h p None l → p = first_addr l.
Proof. by inversion 1. Qed.

Lemma lseg_cons_inv h p q a v l :
  lseg h p q ((a, v) :: l) →
  p = Some a ∧
  ∃ n, h !! a = Some n ∧ value n = v ∧ live n = true ∧ lseg h (next n) q l.
Proof. inversion 1; subst. eauto 10. Qed.

Lemma lseg_app h p q r l1 l2 :
  lseg h p q l1 → lseg h q r l2 → lseg h p r (l1 ++ l2).
Proof.
  induction 1 as [|a n q l Ha Hl _ IH]; simpl; [done|].
  intros H2. by econstructor; [| |apply IH].
Qed.

Lemma lseg_split h p r l1 l2 :
  lseg h p r (l1 ++ l2) → ∃ q, lseg h p q l1 ∧ lseg h q r l2.
Proof.
  revert p. induction l1 as [|x l1 IH]; simpl; intros p H.
  - exists p. split; [constructor | done].
  - inversion H as [|a n q l Ha Hl Hseg]; subst.
    destruct (IH _ Hseg) as (q' & H1 & H2).
    exists q'. split; [by econstructor | done].
Qed.

Lemma lseg_lookup h p q l a :
  lseg h p q l → a ∈ l.*1 → ∃ n, h !! a = Some n ∧ live n = true.
Proof.
  induction 1 as [|b n q l Hb Hl _ IH]; simpl.
  - by intros ?%elem_of_nil.
  - intros [->|Hin]%elem_of_cons; eauto.
Qed.

Lemma lseg_insert h p q l a n :
  lseg h p q l → a ∉ l.*1 → lseg (<[a := n]> h) p q l.
Proof.
  induction 1 as [|b m q l Hb Hl _ IH]; simpl; [constructor|].
  intros [Hne Hnin]%not_elem_of_cons.
  econstructor; [|done|by apply IH].
  by rewrite lookup_insert_ne.
Qed.

Lemma lseg_delete h p q l a :
  lseg h p q l → a ∉ l.*1 → lseg (delete a h) p q l.
Proof.
  induction 1 as [|b m q l Hb Hl _ IH]; simpl; [constructor|].
  intros [Hne Hnin]%not_elem_of_cons.
  econstructor; [|done|by apply IH].
  by rewrite lookup_delete_ne.
Qed.

Lemma lseg_fresh h p q l : lseg h p q l → fresh (dom h) ∉ l.*1.
Proof.
  intros H Hin. destruct (lseg_lookup _ _ _ _ _ H Hin) as (n & Hn & _).
  apply (is_fresh (dom h)). apply elem_of_dom. eauto.
Qed.

(** The chain is what the pointer-chasing loop visits. *)
Lemma walk_lseg h p l fuel :
  lseg h p None l → (length l ≤ fuel)%nat →
  ∃ nodes, walk next fuel h p = Ok nodes ∧
           map (λ x, (x.1, value x.2)) nodes = l ∧
           Forall (λ x, h !! x.1 = Some x.2 ∧ live x.2 = true) nodes.
Proof.
  intros H. revert fuel.
  remember None as q eqn:Hq.
  induction H as [|a n q l Ha Hl _ IH]; intros fuel Hlen; subst.
  - exists []. split_and!; [by destruct fuel|done|constructor].
  - destruct fuel as [|k]; simpl in Hlen; [lia|].
    destruct (IH eq_refl k) as (nodes & Hw & Hm & Hf); [lia|].
    exists ((a, n) :: nodes). simpl. rewrite Ha, Hw.
    split_and!; [done|by rewrite Hm|by constructor].
Qed.

Lemma walk_mono fuel : ∀ fuel' h p x,
  (fuel ≤ fuel')%nat →
  walk next fuel h p = Ok x → walk next fuel' h p = Ok x.
Proof.
  induction fuel as [|k IH]; intros fuel' h [a|] x Hle; simpl.
  - done.
  - intros [= <-]. by destruct fuel'.
  - destruct fuel' as [|k']; [lia|]. simpl.
    destruct (h !! a) as [n|]; [|done].
    destruct (walk next k h (next n)) as [l| |] eqn:E; [|done..].
    by rewrite (IH k' h (next n) l ltac:(lia) E).
  - intros [= <-]. by destruct fuel'.
Qed.

Lemma walk_lseg_inv h p l fuel x :
  lseg h p None l → walk next fuel h p = Ok x →
  map (λ y, (y.1, value y.2)) x = l ∧
  Forall (λ y, h !! y.1 = Some y.2 ∧ live y.2 = true) x.
Proof.
  intros Hseg Hw.
  destruct (walk_lseg h p l (fuel + length l) Hseg) as (nodes & Hw' & Hm & Hall);
    [lia|].
  apply (walk_mono fuel (fuel + length l)) in Hw; [|lia].
  rewrite Hw' in Hw. by injection Hw as <-.
Qed.

Lemma last_cons_default (l' : list addr) (a b : addr) :
  List.last (b :: l') a = List.last l' b.
Proof.
  revert a b. induction l' as [|c l' IH]; intros a b; [done|].
  change (List.last (b :: c :: l') a) with (List.last (c :: l') a).
  by rewrite !IH.
Qed.

Lemma last_addr_cons (a b : addr) (u : Z) l :
  last_addr a ((b, u) :: l) = last_addr b l.
Proof. apply last_cons_default. Qed.

(** Every non-empty list ends in the node [last_addr] names. *)
Lemma snoc_last (a : addr) (v : Z) l :
  ∃ pre w, (a, v) :: l = pre ++ [(last_addr a l, w)].
Proof.
  revert a v. induction l as [|[b u] l IH]; intros a v.
  - by exists [], v.
  - destruct (IH b u) as (pre & w & E).
    exists ((a, v) :: pre), w. rewrite last_addr_cons. simpl. by rewrite E.
Qed.

End ChainFacts.

Lemma last_addr_elem_of (a : addr) (l : list (addr * Z)) :
  last_addr a l ∈ a :: l.*1.
Proof.
  unfold last_addr. generalize (l.*1). clear l. intros l. revert a.
  induction l as [|b l IH]; intros a; [left|].
  rewrite last_cons_default. right. apply IH.
Qed.

Section StopFacts.
Context {N : Type} (value : N → Z) (next : N → ptr) (live : N → bool).
Implicit Types (h : gmap addr N) (l : list (addr * Z)) (p q : ptr).

Local Abbreviation lseg := (lseg value next live).

(** The chain around the place where a search for [val] stops: the
    predecessor is the last node below [val], its successor is the
    first node of the rest. *)
Lemma lseg_stop h a v l val :
  lseg h (Some a) None ((a, v) :: l) →
  ∃ pre pn,
    (a, v) :: front val l = pre ++ [(last_addr a (front val l), value pn)] ∧
    h !! last_addr a (front val l) = Some pn ∧
    live pn = true ∧
    next pn = first_addr (back val l) ∧
    lseg h (Some a) (Some (last_addr a (front val l))) pre ∧
    lseg h (first_addr (back val l)) None (back val l).
Proof.
  intros Hseg.
  destruct (snoc_last a v (front val l)) as (pre & w & E).
  assert ((a, v) :: l = pre ++ (last_addr a (front val l), w) :: back val l) as E'.
  { rewrite <- (front_back val l) at 1.
    rewrite app_comm_cons, E, <- app_assoc. done. }
  rewrite E' in Hseg. apply lseg_split in Hseg as (q & H1 & H2).
  inversion H2 as [|b n q' l' Hb Hl Hrest]; subst.
  pose proof (lseg_end _ _ _ _ _ _ Hrest) as Hn.
  exists pre, n. rewrite <- Hn. done.
Qed.

(** Redirecting the [next] field of the node at [a]. *)
Lemma lseg_relink h a0 a pre n' l2 :
  lseg h (Some a0) (Some a) pre →
  lseg h (next n') None l2 →
  a ∉ pre.*1 → a ∉ l2.*1 →
  live n' = true →
  lseg (<[a := n']> h) (Some a0) None (pre ++ (a, value n') :: l2).
Proof.
  intros H1 H2 Hpre Hl2 Hlive.
  eapply lseg_app; [by apply lseg_insert|].
  econstructor; [apply lookup_insert_eq|done|by apply lseg_insert].
Qed.

End StopFacts.

(** ** The lock-coupling list refines the sorted multiset *)

Module FGFacts.
Import FineGrainedList.

Local Abbreviation lseg := (lseg value next live).

Lemma fg_advance_unfold fuel val pred c :
  advance fuel val pred (Some c) =
  (cn <- load c;;
   if value cn <? val then
     match fuel with
     | O => timeout
     | S k =>
         unlock pred;;;
         pn <- load c;;
         lock_if (next pn);;;
         advance k val c (next pn)
     end
   else ret (pred, Some c)).
Proof. by destruct fuel. Qed.

Lemma fg_advance_null fuel val pred : advance fuel val pred None = ret (pred, None).
Proof. by destruct fuel. Qed.

Lemma fg_state_eq h L a s :
  heap s = h → locks s = L → head s = a → s = mkState h L a.
Proof. destruct s; simpl; by intros -> -> ->. Qed.

Lemma fg_advance_spec val l : ∀ fuel pred s,
  lseg (heap s) (first_addr l) None l →
  NoDup (pred :: l.*1) →
  locks s = {[ pred ]} ∪ ptr_set (first_addr l) →
  (length l ≤ fuel)%nat →
  advance fuel val pred (first_addr l) s =
    Ok ((last_addr pred (front val l), first_addr (back val l)),
        set_locks ({[ last_addr pred (front val l) ]}
                   ∪ ptr_set (first_addr (back val l))) s).
Proof.
  induction l as [|[c v] l IH]; intros fuel pred s Hseg Hnd HL Hlen.
  - simpl. rewrite fg_advance_null. unfold ret. do 2 f_equal.
    unfold set_locks. by apply fg_state_eq.
  - change (first_addr ((c, v) :: l)) with (Some c) in *.
    inversion Hseg as [|a n q l' Hc _ Hseg' E1]; subst.
    pose proof (lseg_end _ _ _ _ _ _ Hseg') as Hnext.
    rewrite fg_advance_unfold.
    rewrite (bind_ok _ _ s n s); [|by unfold load; rewrite Hc].
    simpl. destruct (value n <? val) eqn:Hlt.
    2:{ unfold ret. do 2 f_equal. unfold set_locks. by apply fg_state_eq. }
    destruct fuel as [|k]; [simpl in Hlen; lia|].
    apply NoDup_cons in Hnd as [Hpred Hnd].
    assert (pred ≠ c) as Hpc by (intros ->; apply Hpred; simpl; left).
    simpl in Hnd. apply NoDup_cons in Hnd as [Hcl Hnd'].
    set (s1 := set_locks {[ c ]} s).
    rewrite (bind_ok _ _ s () s1).
    2:{ unfold unlock. rewrite decide_True by (rewrite HL; set_solver).
        do 2 f_equal. unfold s1, set_locks. f_equal.
        rewrite HL. simpl. set_solver. }
    rewrite (bind_ok _ _ s1 n s1); [|by unfold load; simpl; rewrite Hc].
    rewrite Hnext in *.
    set (s2 := set_locks ({[ c ]} ∪ ptr_set (first_addr l)) s).
    rewrite (bind_ok _ _ s1 () s2).
    2:{ destruct l as [|[d w] l]; simpl.
        - unfold ret, s2, s1, set_locks. simpl. do 3 f_equal. set_solver.
        - unfold lock. simpl.
          destruct (lseg_lookup _ _ _ _ _ _ _ d Hseg') as (dn & Hd & _);
            [simpl; left|].
          rewrite Hd. rewrite decide_False.
          + unfold s2, set_locks. simpl. do 3 f_equal. set_solver.
          + intros ->%elem_of_singleton. apply Hcl. simpl. left. }
    rewrite (IH k c s2); [|done|by apply NoDup_cons|done|simpl in Hlen; lia].
    rewrite last_addr_cons. done.
Qed.


Lemma fg_Inv_head s l :
  Inv s l → ∃ hn, heap s !! head s = Some hn ∧ value hn = -1 ∧
                  next hn = first_addr l ∧
                  lseg (heap s) (first_addr l) None l.
Proof.
  intros (Hseg & _). inversion Hseg as [|a n q l' Ha _ Hseg' E1]; subst.
  pose proof (lseg_end _ _ _ _ _ _ Hseg') as Hnext.
  exists n. rewrite <- Hnext. done.
Qed.

(** Where the traversal stops, and with which mutexes held. *)
Lemma fg_locate_spec fuel val s l :
  Inv s l → (length l ≤ fuel)%nat →
  locate fuel val s =
    Ok ((last_addr (head s) (front val l), first_addr (back val l)),
        set_locks ({[ last_addr (head s) (front val l) ]}
                   ∪ ptr_set (first_addr (back val l))) s).
Proof.
  intros HI Hlen.
  destruct (fg_Inv_head _ _ HI) as (hn & Hh & Hv & Hn & Hseg).
  destruct HI as (_ & Hnd & _ & HL).
  unfold locate.
  rewrite (bind_ok _ _ s (head s) s); [|done].
  set (s1 := set_locks {[ head s ]} s).
  rewrite (bind_ok _ _ s () s1).
  2:{ unfold lock. rewrite Hh, decide_False by (rewrite HL; set_solver).
      unfold s1, set_locks. do 3 f_equal. rewrite HL. set_solver. }
  rewrite (bind_ok _ _ s1 hn s1); [|by unfold load; simpl; rewrite Hh].
  rewrite Hn.
  set (s2 := set_locks ({[ head s ]} ∪ ptr_set (first_addr l)) s).
  rewrite (bind_ok _ _ s1 () s2).
  2:{ destruct l as [|[d w] l]; simpl.
      - unfold ret, s2, s1, set_locks. simpl. do 3 f_equal. set_solver.
      - unfold lock. simpl.
        destruct (lseg_lookup _ _ _ _ _ _ _ d Hseg) as (dn & Hd & _);
          [simpl; left|].
        rewrite Hd, decide_False.
        + unfold s2, set_locks. simpl. do 3 f_equal. set_solver.
        + intros ->%elem_of_singleton. apply NoDup_cons in Hnd as [Hnd _].
          apply Hnd. simpl. left. }
  by rewrite (fg_advance_spec val l fuel (head s) s2).
Qed.

Lemma fg_insert_spec fuel val s l :
  Inv s l → (length l ≤ fuel)%nat →
  ∃ s', insert fuel val s = Ok ((), s') ∧
        Inv s' (front val l ++ (fresh (dom (heap s)), val) :: back val l) ∧
        head s' = head s ∧
        dom (heap s') = {[ fresh (dom (heap s)) ]} ∪ dom (heap s) ∧
        heap s' !! fresh (dom (heap s)) =
          Some (mkNode val (first_addr (back val l))).
Proof.
  intros HI Hlen.
  pose proof (fg_locate_spec fuel val s l HI Hlen) as Hloc.
  destruct HI as (Hseg & Hnd & Hsort & HL).
  destruct (lseg_stop _ _ _ _ _ _ _ val Hseg)
    as (pre & pn & E & Hp & _ & Hpn & Hpre & Hback).
  pose proof (NoDup_stop _ _ _ _ _ _ val Hnd E) as Hnd'.
  set (pred := last_addr (head s) (front val l)) in *.
  set (curr := first_addr (back val l)) in *.
  set (new := fresh (dom (heap s))).
  assert (new ∉ dom (heap s)) as Hnew by apply is_fresh.
  assert (pred ≠ new) as Hpnew.
  { intros Heq. apply Hnew. rewrite <- Heq. apply elem_of_dom. eauto. }
  apply NoDup_app in Hnd' as (Hnd1 & Hdisj & Hnd2).
  apply NoDup_cons in Hnd2 as [Hpb Hnd2].
  assert (pred ∉ pre.*1) as Hppre.
  { intros Hin. apply (Hdisj _ Hin). left. }
  set (h1 := <[new := mkNode val curr]> (heap s)).
  set (h2 := <[pred := mkNode (value pn) (Some new)]> h1).
  exists (mkState h2 ∅ (head s)).
  split_and!.
  - unfold insert. rewrite (bind_ok _ _ _ _ _ Hloc). simpl.
    fold pred curr new h1.
    unfold bind at 1. unfold new_node. simpl. fold new h1.
    unfold bind at 1. unfold store_next. simpl.
    unfold h1 at 1. rewrite lookup_insert_ne, Hp by done. simpl.
    fold h1 h2.
    assert (∀ L, unlock_if curr (mkState h2 ({[pred]} ∪ ptr_set curr) L)
                 = Ok ((), mkState h2 {[pred]} L)) as Hu.
    { intros L. unfold curr in *. destruct (back val l) as [|[c w] l2]; simpl.
      - unfold ret. do 3 f_equal. set_solver.
      - simpl in Hpb. apply not_elem_of_cons in Hpb as [Hpc _].
        unfold unlock. simpl. rewrite decide_True by set_solver.
        unfold set_locks. simpl. do 3 f_equal. set_solver. }
    unfold set_heap, set_locks. simpl.
    rewrite (bind_ok _ _ _ _ _ (Hu _)).
    unfold unlock. simpl. rewrite decide_True by set_solver.
    unfold set_locks. simpl. do 3 f_equal. set_solver.
  - split_and!; simpl; [| | |done].
    + replace ((head s, -1) :: front val l ++ (new, val) :: back val l)
        with (pre ++ (pred, value (mkNode (value pn) (Some new)))
                    :: (new, val) :: back val l).
      2:{ simpl. rewrite app_comm_cons, E, <- app_assoc. done. }
      unfold h2. apply lseg_relink; simpl.
      * apply lseg_insert; [done|]. by eapply lseg_fresh.
      * apply (lseg_cons value next live h1 new (mkNode val curr));
          [apply lookup_insert_eq|done|]. simpl.
        apply lseg_insert; [done|]. by eapply lseg_fresh.
      * done.
      * apply not_elem_of_cons. done.
      * done.
    + replace (head s :: (front val l ++ (new, val) :: back val l).*1)
        with (pre.*1 ++ pred :: new :: (back val l).*1).
      2:{ rewrite fmap_app. simpl. rewrite app_comm_cons.
          change (head s :: (front val l).*1)
            with (((head s, -1) :: front val l).*1).
          rewrite E, fmap_app, <- app_assoc. done. }
      apply NoDup_app. split_and!; [done| |].
      * intros x Hx [->|[->|Hin]%elem_of_cons]%elem_of_cons.
        -- done.
        -- by eapply (lseg_fresh _ _ _ _ _ _ _ Hpre).
        -- apply (Hdisj _ Hx). by right.
      * apply NoDup_cons. split.
        -- apply not_elem_of_cons. done.
        -- apply NoDup_cons. split; [|done].
           by eapply (lseg_fresh _ _ _ _ _ _ _ Hback).
    + rewrite insert_front_back. by apply insert_sorted.
  - done.
  - simpl. unfold h2, h1. rewrite !dom_insert_L.
    assert (pred ∈ dom (heap s)) by (apply elem_of_dom; eauto).
    set_solver.
  - simpl. unfold h2. rewrite lookup_insert_ne by done.
    apply lookup_insert_eq.
Qed.


Lemma fg_unlock_pair {A} h (pred : addr) (curr : ptr) a (k : M state A) :
  pred ∉ ptr_set curr →
  (unlock_if curr;;; unlock pred;;; k)
    (mkState h ({[ pred ]} ∪ ptr_set curr) a) = k (mkState h ∅ a).
Proof.
  intros Hne. unfold bind.
  assert (unlock pred (mkState h {[ pred ]} a) = Ok ((), mkState h ∅ a)) as Hu.
  { unfold unlock. simpl. rewrite decide_True by set_solver.
    unfold set_locks. simpl. do 3 f_equal. set_solver. }
  destruct curr as [c|]; simpl in *.
  - unfold unlock at 1. simpl. rewrite decide_True by set_solver.
    unfold set_locks. simpl.
    replace (({[pred]} ∪ {[c]}) ∖ {[c]} : gset addr) with ({[pred]} : gset addr)
      by set_solver.
    by rewrite Hu.
  - replace ({[pred]} ∪ ∅ : gset addr) with ({[pred]} : gset addr) by set_solver.
    by rewrite Hu.
Qed.

(** What every operation knows once the traversal has stopped. *)
Lemma fg_stop_facts fuel val s l :
  Inv s l → (length l ≤ fuel)%nat →
  let pred := last_addr (head s) (front val l) in
  let curr := first_addr (back val l) in
  locate fuel val s = Ok ((pred, curr), mkState (heap s) ({[ pred ]} ∪ ptr_set curr) (head s)) ∧
  s = mkState (heap s) ∅ (head s) ∧
  ∃ pre pn,
    (head s, -1) :: front val l = pre ++ [(pred, value pn)] ∧
    heap s !! pred = Some pn ∧
    next pn = curr ∧
    lseg (heap s) (Some (head s)) (Some pred) pre ∧
    lseg (heap s) curr None (back val l) ∧
    NoDup (pre.*1) ∧ NoDup ((back val l).*1) ∧
    (∀ x, x ∈ pre.*1 → x ∉ pred :: (back val l).*1) ∧
    (pred ∉ pre.*1) ∧ (pred ∉ (back val l).*1) ∧ (pred ∉ ptr_set curr).
Proof.
  intros HI Hlen pred curr.
  pose proof (fg_locate_spec fuel val s l HI Hlen) as Hloc.
  destruct HI as (Hseg & Hnd & Hsort & HL).
  destruct (lseg_stop _ _ _ _ _ _ _ val Hseg)
    as (pre & pn & E & Hp & _ & Hpn & Hpre & Hback).
  pose proof (NoDup_stop _ _ _ _ _ _ val Hnd E) as Hnd'.
  apply NoDup_app in Hnd' as (Hnd1 & Hdisj & [Hpb Hnd2]%NoDup_cons).
  split_and!; [done|by apply fg_state_eq|].
  exists pre, pn. split_and!; try done.
  - intros Hin. apply (Hdisj _ Hin). left.
  - unfold curr. destruct (back val l) as [|[c w] l2]; simpl in *.
    + set_solver.
    + apply not_elem_of_cons in Hpb as [? _]. set_solver.
Qed.

Lemma fg_contains_spec fuel val s l :
  Inv s l → (length l ≤ fuel)%nat →
  contains fuel val s = Ok (found val l, s).
Proof.
  intros HI Hlen.
  destruct (fg_stop_facts fuel val s l HI Hlen)
    as (Hloc & Hs & pre & pn & E & Hp & Hpn & Hpre & Hback & _ & _ & _ & _ & _ & Hpc).
  unfold contains. rewrite (bind_ok _ _ _ _ _ Hloc). simpl.
  set (st := mkState _ _ _).
  assert (match first_addr (back val l) with
          | Some c => cn <- load c;; ret (value cn =? val)
          | None => ret false
          end st = Ok (found val l, st)) as Hfound.
  { unfold found. destruct (back val l) as [|[c w] l2]; simpl; [done|].
    inversion Hback as [|a n q l' Hc _ Hseg' E1]; subst.
    unfold bind, load. simpl. by rewrite Hc. }
  rewrite (bind_ok _ _ _ _ _ Hfound). unfold st.
  rewrite fg_unlock_pair by done. unfold ret. by rewrite <- Hs.
Qed.

Lemma fg_remove_miss fuel val s l :
  Inv s l → (length l ≤ fuel)%nat → found val l = false →
  remove fuel val s = Ok (false, s).
Proof.
  intros HI Hlen Hf.
  destruct (fg_stop_facts fuel val s l HI Hlen)
    as (Hloc & Hs & pre & pn & E & Hp & Hpn & Hpre & Hback & _ & _ & _ & _ & _ & Hpc).
  unfold remove. rewrite (bind_ok _ _ _ _ _ Hloc). simpl.
  unfold found in Hf.
  destruct (back val l) as [|[c w] l2] eqn:Eb; simpl in *.
  - transitivity (ret (S := state) false (mkState (heap s) ∅ (head s))).
    + exact (fg_unlock_pair (heap s) _ None (head s) (ret false) Hpc).
    + unfold ret. by rewrite <- Hs.
  - inversion Hback as [|a n q l' Hc _ Hseg' E1]; subst.
    unfold bind at 1. unfold load at 1. simpl. rewrite Hc, Hf.
    rewrite (fg_unlock_pair _ _ (Some c)) by done. unfold ret. by rewrite <- Hs.
Qed.


Lemma fg_remove_hit fuel val s l :
  Inv s l → (length l ≤ fuel)%nat → found val l = true →
  ∃ c l2 s',
    back val l = (c, val) :: l2 ∧
    remove fuel val s = Ok (true, s') ∧
    Inv s' (front val l ++ l2) ∧
    head s' = head s ∧
    dom (heap s') = dom (heap s) ∖ {[ c ]}.
Proof.
  intros HI Hlen Hf.
  destruct (fg_stop_facts fuel val s l HI Hlen)
    as (Hloc & Hs & pre & pn & E & Hp & Hpn & Hpre & Hback
        & Hnd1 & Hnd2 & Hdisj & Hppre & Hpb & Hpc).
  destruct HI as (Hseg & Hnd & Hsort & HL).
  destruct (found_back _ _ Hf) as (c & l2 & Eb).
  rewrite Eb in *.
  change (first_addr ((c, val) :: l2)) with (Some c) in *.
  simpl in Hnd2, Hdisj, Hpb, Hpc.
  set (pred := last_addr (head s) (front val l)) in *.
  destruct (lseg_cons_inv _ _ _ _ _ _ _ _ _ Hback)
    as (_ & cn & Hc & Hcv & _ & Hrest).
  apply not_elem_of_cons in Hpb as [Hpcne Hpl2].
  apply NoDup_cons in Hnd2 as [Hcl2 Hnd2].
  assert (c ∉ pre.*1) as Hcpre.
  { intros Hin. apply (Hdisj _ Hin). right. left. }
  set (h1 := <[pred := mkNode (value pn) (next cn)]> (heap s)).
  exists c, l2, (mkState (delete c h1) ∅ (head s)).
  split_and!; [done| | |done|].
  - unfold remove. rewrite (bind_ok _ _ _ _ _ Hloc). simpl.
    unfold bind at 1. unfold load at 1. simpl. rewrite Hc.
    rewrite Hcv, Z.eqb_refl.
    unfold bind at 1. unfold load at 1. simpl. rewrite Hc.
    unfold bind at 1. unfold store_next at 1. simpl. rewrite Hp.
    unfold set_heap. simpl. fold h1.
    rewrite (fg_unlock_pair h1 pred (Some c)) by done.
    unfold bind, delete_node. simpl.
    unfold h1 at 1. rewrite lookup_insert_ne, Hc by done.
    rewrite decide_False by set_solver. done.
  - split_and!; simpl; [| | |done].
    + replace ((head s, -1) :: front val l ++ l2)
        with (pre ++ (pred, value (mkNode (value pn) (next cn))) :: l2).
      2:{ simpl. rewrite app_comm_cons, E, <- app_assoc. done. }
      apply lseg_delete.
      * unfold h1. by apply lseg_relink.
      * rewrite fmap_app. simpl. intros [?|[?|?]%elem_of_cons]%elem_of_app; done.
    + replace (head s :: (front val l ++ l2).*1) with (pre.*1 ++ pred :: l2.*1).
      2:{ rewrite fmap_app, app_comm_cons.
          change (head s :: (front val l).*1)
            with (((head s, -1) :: front val l).*1).
          rewrite E, fmap_app, <- app_assoc. done. }
      apply NoDup_app. split_and!; [done| |by apply NoDup_cons].
      intros x Hx [->|Hin]%elem_of_cons; [done|].
      apply (Hdisj _ Hx). right. by right.
    + rewrite <- (front_back val l), Eb, fmap_app in Hsort. simpl in Hsort.
      rewrite fmap_app. by eapply sorted_drop_mid.
  - simpl. rewrite dom_delete_L. unfold h1. rewrite dom_insert_L.
    assert (pred ∈ dom (heap s)) by (apply elem_of_dom; eauto).
    set_solver.
Qed.


Lemma fg_new_list_Inv : Inv new_list [].
Proof.
  unfold Inv, new_list. simpl. split_and!; [|by apply NoDup_singleton|constructor|done].
  apply (lseg_cons value next live _ _ (mkNode (-1) None));
    [apply lookup_singleton_eq|done|constructor].
Qed.

(** Each operation does on the chain what the abstract step does on
    the list of values. *)
Lemma fg_exec_refines fuel o s l :
  Inv s l → (length l ≤ fuel)%nat →
  ∃ s' l', exec fuel o s = Ok ((spec_exec o (l.*2)).1, s') ∧
           Inv s' l' ∧
           l'.*2 = (spec_exec o (l.*2)).2 ∧
           head s' = head s ∧
           (length l' ≤ S (length l))%nat.
Proof.
  intros HI Hlen. pose proof HI as (_ & _ & Hsort & _).
  destruct o as [v|v|v]; simpl.
  - destruct (fg_insert_spec fuel v s l HI Hlen) as (s' & Hrun & HI' & Hh & _).
    eexists s', _. rewrite (bind_ok _ _ _ _ _ Hrun).
    split_and!; [done|exact HI'|apply insert_front_back|done|].
    pose proof (f_equal length (front_back v l)) as Hfb.
    rewrite length_app in Hfb. rewrite length_app. simpl. lia.
  - destruct (found v l) eqn:Hf.
    + destruct (fg_remove_hit fuel v s l HI Hlen Hf)
        as (c & l2 & s' & Eb & Hrun & HI' & Hh & _).
      eexists s', _. rewrite (bind_ok _ _ _ _ _ Hrun).
      rewrite (remove_front_back_hit v c l l2 Eb). simpl.
      split_and!; [done|exact HI'|done|done|].
      pose proof (f_equal length (front_back v l)) as Hfb.
      rewrite Eb, length_app in Hfb. rewrite length_app. simpl in *. lia.
    + exists s, l. rewrite (bind_ok _ _ _ _ _ (fg_remove_miss fuel v s l HI Hlen Hf)).
      rewrite (found_remove_miss v l Hsort Hf). simpl.
      split_and!; [done|done|done|done|lia].
  - exists s, l. rewrite (bind_ok _ _ _ _ _ (fg_contains_spec fuel v s l HI Hlen)).
    rewrite (found_contains v l Hsort).
    split_and!; [done|done|done|done|lia].
Qed.

Lemma fg_run_refines fuel ops : ∀ s l,
  Inv s l → (length l + length ops ≤ fuel)%nat →
  ∃ s' l', run fuel ops s = Ok ((spec_run ops (l.*2)).1, s') ∧
           Inv s' l' ∧
           l'.*2 = (spec_run ops (l.*2)).2 ∧
           head s' = head s ∧
           (length l' ≤ length l + length ops)%nat.
Proof.
  induction ops as [|o ops IH]; intros s l HI Hlen; simpl in *.
  - exists s, l. split_and!; [done|done|done|done|lia].
  - destruct (fg_exec_refines fuel o s l HI) as (s1 & l1 & Hrun & HI1 & E1 & Hh1 & Hl1);
      [lia|].
    destruct (IH s1 l1 HI1) as (s2 & l2 & Hrun2 & HI2 & E2 & Hh2 & Hl2); [lia|].
    exists s2, l2. rewrite (bind_ok _ _ _ _ _ Hrun), (bind_ok _ _ _ _ _ Hrun2).
    destruct (spec_exec o (l.*2)) as [r la]. simpl in *. subst la.
    destruct (spec_run ops (l1.*2)) as [rs lb]. simpl in *.
    split_and!; [done|done|done|congruence|lia].
Qed.

Lemma fg_snapshot_spec fuel s l :
  Inv s l → (length l ≤ fuel)%nat → snapshot fuel s = Ok (l.*2, s).
Proof.
  intros HI Hlen.
  destruct (fg_Inv_head _ _ HI) as (hn & Hh & Hv & Hn & Hseg).
  rewrite <- Hn in Hseg.
  destruct (walk_lseg _ _ _ _ _ _ fuel Hseg Hlen) as (nodes & Hw & Hm & _).
  unfold snapshot. rewrite Hh, Hw. do 2 f_equal.
  rewrite <- Hm. rewrite <- list_fmap_compose. done.
Qed.

Lemma fg_chain_values_spec fuel s l :
  Inv s l → (length l < fuel)%nat → chain_values fuel s = Ok (-1 :: l.*2, s).
Proof.
  intros (Hseg & _) Hlen.
  destruct (walk_lseg _ _ _ _ _ _ fuel Hseg) as (nodes & Hw & Hm & _);
    [simpl; lia|].
  unfold chain_values. rewrite Hw. do 2 f_equal.
  change (-1 :: l.*2) with (((head s, -1) :: l).*2).
  rewrite <- Hm. rewrite <- list_fmap_compose. done.
Qed.


(** *** Fuel *)

Lemma fg_advance_mono fuel : ∀ fuel' val pred curr s x,
  (fuel ≤ fuel')%nat →
  advance fuel val pred curr s = Ok x → advance fuel' val pred curr s = Ok x.
Proof.
  induction fuel as [|k IH]; intros fuel' val pred [c|] s x Hle;
    rewrite ?fg_advance_null, ?fg_advance_unfold; try done.
  - apply bind_mono_r. intros cn s1. by destruct (value cn <? val).
  - apply bind_mono_r. intros cn s1. destruct (value cn <? val); [|done].
    destruct fuel' as [|k']; [lia|].
    do 3 (apply bind_mono_r; intros ? ?). apply IH. lia.
Qed.

Lemma fg_locate_mono fuel fuel' val s x :
  (fuel ≤ fuel')%nat →
  locate fuel val s = Ok x → locate fuel' val s = Ok x.
Proof.
  intros Hle. unfold locate.
  do 4 (apply bind_mono_r; intros ? ?). by apply fg_advance_mono.
Qed.

Lemma fg_exec_mono fuel fuel' o s x :
  (fuel ≤ fuel')%nat →
  exec fuel o s = Ok x → exec fuel' o s = Ok x.
Proof.
  intros Hle. destruct o as [v|v|v]; simpl;
    apply bind_mono_l; intros y;
    apply bind_mono_l; intros z; by apply fg_locate_mono.
Qed.

(** Every state reached by running operations is a sorted chain. *)
Lemma fg_exec_Inv fuel o s l r s' :
  Inv s l → exec fuel o s = Ok (r, s') →
  ∃ l', Inv s' l' ∧ head s' = head s ∧
        r = (spec_exec o (l.*2)).1 ∧ l'.*2 = (spec_exec o (l.*2)).2.
Proof.
  intros HI Hrun.
  apply (fg_exec_mono fuel (fuel + length l)) in Hrun; [|lia].
  destruct (fg_exec_refines (fuel + length l) o s l HI)
    as (s1 & l1 & Hrun1 & HI1 & E1 & Hh1 & _); [lia|].
  rewrite Hrun1 in Hrun. injection Hrun as <- <-. eauto.
Qed.


(** What a snapshot shows, whatever the bound it was taken with. *)
Lemma fg_snapshot_inv fuel s l snap s' :
  Inv s l → snapshot fuel s = Ok (snap, s') → snap = l.*2 ∧ s' = s.
Proof.
  intros HI. destruct (fg_Inv_head _ _ HI) as (hn & Hh & Hv & Hn & Hseg).
  rewrite <- Hn in Hseg.
  unfold snapshot. rewrite Hh.
  destruct (walk next fuel (heap s) (next hn)) as [x| |] eqn:Hw; [|done..].
  destruct (walk_lseg_inv _ _ _ _ _ _ _ _ Hseg Hw) as (Hm & _).
  intros [= <- <-]. split; [|done].
  rewrite <- Hm. by rewrite <- list_fmap_compose.
Qed.


Lemma fg_locate_inv fuel val s l p cr st :
  Inv s l → locate fuel val s = Ok ((p, cr), st) →
  p = last_addr (head s) (front val l) ∧ cr = first_addr (back val l).
Proof.
  intros HI Hrun.
  apply (fg_locate_mono fuel (fuel + length l)) in Hrun; [|lia].
  rewrite (fg_locate_spec (fuel + length l) val s l HI) in Hrun; [|lia].
  by injection Hrun as <- <- <-.
Qed.

End FGFacts.

(** ** The lazy list refines the sorted multiset *)

Module MLFacts.
Import MarkedList.

Local Abbreviation lseg := (lseg value next live).

Lemma ml_traverse_unfold fuel val pred c :
  traverse fuel val pred (Some c) =
  (cn <- load c;;
   if value cn <? val then
     match fuel with
     | O => timeout
     | S k => cn' <- load c;; traverse k val c (next cn')
     end
   else ret (pred, Some c)).
Proof. by destruct fuel. Qed.

Lemma ml_traverse_null fuel val pred :
  traverse fuel val pred None = ret (pred, None).
Proof. by destruct fuel. Qed.

Lemma ml_state_eq h L a g s :
  heap s = h → locks s = L → head s = a → log s = g → s = mkState h L a g.
Proof. destruct s; simpl; by intros -> -> -> ->. Qed.

Lemma ml_traverse_spec val l : ∀ fuel pred s,
  lseg (heap s) (first_addr l) None l →
  (length l ≤ fuel)%nat →
  traverse fuel val pred (first_addr l) s =
    Ok ((last_addr pred (front val l), first_addr (back val l)), s).
Proof.
  induction l as [|[c v] l IH]; intros fuel pred s Hseg Hlen.
  - simpl. by rewrite ml_traverse_null.
  - change (first_addr ((c, v) :: l)) with (Some c) in *.
    destruct (lseg_cons_inv _ _ _ _ _ _ _ _ _ Hseg)
      as (_ & n & Hc & Hv & _ & Hseg').
    pose proof (lseg_end _ _ _ _ _ _ Hseg') as Hnext.
    rewrite ml_traverse_unfold.
    rewrite (bind_ok _ _ s n s); [|by unfold load; rewrite Hc].
    simpl. rewrite Hv. destruct (v <? val) eqn:Hlt; [|done].
    destruct fuel as [|k]; [simpl in Hlen; lia|].
    rewrite (bind_ok _ _ s n s); [|by unfold load; rewrite Hc].
    rewrite Hnext in *.
    rewrite (IH k c s); [|done|simpl in Hlen; lia].
    by rewrite last_addr_cons.
Qed.

Lemma ml_Inv_head s l :
  Inv s l → ∃ hn, heap s !! head s = Some hn ∧ value hn = -1 ∧
                  next hn = first_addr l ∧
                  lseg (heap s) (first_addr l) None l.
Proof.
  intros (Hseg & _).
  destruct (lseg_cons_inv _ _ _ _ _ _ _ _ _ Hseg)
    as (_ & n & Hc & Hv & _ & Hseg').
  pose proof (lseg_end _ _ _ _ _ _ Hseg') as Hnext.
  exists n. rewrite <- Hnext. done.
Qed.

Lemma ml_unlock_pair {A} h (pred : addr) (curr : ptr) a g (k : M state A) :
  pred ∉ ptr_set curr →
  (unlock_if curr;;; unlock pred;;; k)
    (mkState h ({[ pred ]} ∪ ptr_set curr) a g) = k (mkState h ∅ a g).
Proof.
  intros Hne. unfold bind.
  assert (unlock pred (mkState h {[ pred ]} a g) = Ok ((), mkState h ∅ a g)) as Hu.
  { unfold unlock. simpl. rewrite decide_True by set_solver.
    unfold set_locks. simpl. do 3 f_equal. set_solver. }
  destruct curr as [c|]; simpl in *.
  - unfold unlock at 1. simpl. rewrite decide_True by set_solver.
    unfold set_locks. simpl.
    replace (({[pred]} ∪ {[c]}) ∖ {[c]} : gset addr) with ({[pred]} : gset addr)
      by set_solver.
    by rewrite Hu.
  - replace ({[pred]} ∪ ∅ : gset addr) with ({[pred]} : gset addr) by set_solver.
    by rewrite Hu.
Qed.

(** What every operation knows once the pair is locked and validated. *)
Lemma ml_stop_facts fuel val s l :
  Inv s l → (length l ≤ fuel)%nat →
  let pred := last_addr (head s) (front val l) in
  let curr := first_addr (back val l) in
  locate fuel val s =
    Ok ((pred, curr, true),
        mkState (heap s) ({[ pred ]} ∪ ptr_set curr) (head s) (log s)) ∧
  s = mkState (heap s) ∅ (head s) (log s) ∧
  ∃ pre pn,
    (head s, -1) :: front val l = pre ++ [(pred, value pn)] ∧
    heap s !! pred = Some pn ∧
    removed pn = false ∧
    next pn = curr ∧
    lseg (heap s) (Some (head s)) (Some pred) pre ∧
    lseg (heap s) curr None (back val l) ∧
    NoDup (pre.*1) ∧ NoDup ((back val l).*1) ∧
    (∀ x, x ∈ pre.*1 → x ∉ pred :: (back val l).*1) ∧
    (pred ∉ pre.*1) ∧ (pred ∉ (back val l).*1) ∧ (pred ∉ ptr_set curr).
Proof.
  intros HI Hlen pred curr.
  destruct (ml_Inv_head _ _ HI) as (hn & Hh & Hv & Hn & Hchain).
  destruct HI as (Hseg & Hnd & Hsort & HL).
  destruct (lseg_stop _ _ _ _ _ _ _ val Hseg)
    as (pre & pn & E & Hp & Hlive & Hpn & Hpre & Hback).
  fold pred curr in E, Hp, Hpn, Hpre, Hback.
  pose proof (NoDup_stop _ _ _ _ _ _ val Hnd E) as Hnd'.
  apply NoDup_app in Hnd' as (Hnd1 & Hdisj & [Hpb Hnd2]%NoDup_cons).
  assert (removed pn = false) as Hrm.
  { unfold live in Hlive. by destruct (removed pn). }
  assert (pred ∉ ptr_set curr) as Hpc.
  { unfold curr. destruct (back val l) as [|[c w] l2]; simpl in *.
    - set_solver.
    - apply not_elem_of_cons in Hpb as [? _]. set_solver. }
  assert (s = mkState (heap s) ∅ (head s) (log s)) as Hs by (by apply ml_state_eq).
  split_and!; [|done|].
  - unfold locate.
    rewrite (bind_ok _ _ s (head s) s); [|done].
    rewrite (bind_ok _ _ s hn s); [|by unfold load; rewrite Hh].
    rewrite Hn.
    rewrite (bind_ok _ _ _ _ _ (ml_traverse_spec val l fuel (head s) s Hchain Hlen)).
    fold pred curr.
    set (s1 := mkState (heap s) {[ pred ]} (head s) (log s)).
    rewrite (bind_ok _ _ s () s1).
    2:{ unfold lock. rewrite Hp, decide_False by (rewrite HL; set_solver).
        unfold s1, set_locks. do 3 f_equal. rewrite HL. set_solver. }
    set (s2 := mkState (heap s) ({[ pred ]} ∪ ptr_set curr) (head s) (log s)).
    rewrite (bind_ok _ _ s1 () s2).
    2:{ unfold curr in *. destruct (back val l) as [|[d w] l2]; simpl.
        - unfold ret, s2, s1. simpl. do 3 f_equal. set_solver.
        - unfold lock. simpl.
          destruct (lseg_cons_inv _ _ _ _ _ _ _ _ _ Hback)
            as (_ & dn & Hd & _).
          rewrite Hd, decide_False by set_solver.
          unfold s2, set_locks. simpl. do 3 f_equal. set_solver. }
    rewrite (bind_ok _ _ s2 true s2); [done|].
    unfold validate.
    rewrite (bind_ok _ _ s2 pn s2); [|by unfold load; simpl; rewrite Hp].
    rewrite Hrm.
    unfold curr in *. destruct (back val l) as [|[d w] l2]; simpl.
    + rewrite (bind_ok _ _ s2 pn s2); [|by unfold load; simpl; rewrite Hp].
      unfold ret. by rewrite bool_decide_eq_true_2.
    + destruct (lseg_cons_inv _ _ _ _ _ _ _ _ _ Hback)
        as (_ & dn & Hd & _ & Hdl & _).
      rewrite (bind_ok _ _ s2 dn s2); [|by unfold load; simpl; rewrite Hd].
      unfold live in Hdl. destruct (removed dn); [done|].
      rewrite (bind_ok _ _ s2 pn s2); [|by unfold load; simpl; rewrite Hp].
      unfold ret. by rewrite bool_decide_eq_true_2.
  - exists pre, pn. split_and!; try done.
    intros Hin. apply (Hdisj _ Hin). left.
Qed.


Lemma ml_insert_once_spec fuel val s l :
  Inv s l → (length l ≤ fuel)%nat →
  let pred := last_addr (head s) (front val l) in
  let curr := first_addr (back val l) in
  let new := fresh (dom (heap s)) in
  ∃ s', insert_once fuel val s = Ok (Some (), s') ∧
        Inv s' (front val l ++ (new, val) :: back val l) ∧
        head s' = head s ∧
        dom (heap s') = {[ new ]} ∪ dom (heap s) ∧
        heap s' !! new = Some (mkNode val curr false) ∧
        log s' = log s ++ [EvNew new val curr; EvSetNext pred (Some new)] ∧
        (∀ a n, heap s !! a = Some n → removed n = true → heap s' !! a = Some n).
Proof.
  intros HI Hlen pred curr new.
  destruct (ml_stop_facts fuel val s l HI Hlen)
    as (Hloc & Hs & pre & pn & E & Hp & Hrm & Hpn & Hpre & Hback
        & Hnd1 & Hnd2 & Hdisj & Hppre & Hpb & Hpc).
  fold pred curr in Hloc, E, Hp, Hpn, Hpre, Hback, Hdisj, Hppre, Hpb, Hpc.
  destruct HI as (Hseg & Hnd & Hsort & HL).
  assert (new ∉ dom (heap s)) as Hnew by apply is_fresh.
  assert (pred ≠ new) as Hpnew.
  { intros Heq. apply Hnew. rewrite <- Heq. apply elem_of_dom. eauto. }
  set (h1 := <[new := mkNode val curr false]> (heap s)).
  set (h2 := <[pred := mkNode (value pn) (Some new) (removed pn)]> h1).
  exists (mkState h2 ∅ (head s)
            (log s ++ [EvNew new val curr; EvSetNext pred (Some new)])).
  split_and!.
  - unfold insert_once. rewrite (bind_ok _ _ _ _ _ Hloc). simpl.
    unfold bind at 1. unfold new_node. simpl. fold new h1.
    unfold bind at 1. unfold store_next. simpl.
    unfold h1 at 1. rewrite lookup_insert_ne, Hp by done. simpl.
    fold h1 h2. unfold set_heap. simpl.
    rewrite ml_unlock_pair by done. unfold ret. by rewrite <- app_assoc.
  - split_and!; simpl; [| | |done].
    + replace ((head s, -1) :: front val l ++ (new, val) :: back val l)
        with (pre ++ (pred, value (mkNode (value pn) (Some new) (removed pn)))
                    :: (new, val) :: back val l).
      2:{ simpl. rewrite app_comm_cons, E, <- app_assoc. done. }
      unfold h2. apply lseg_relink; simpl.
      * apply lseg_insert; [done|]. by eapply lseg_fresh.
      * apply (lseg_cons value next live h1 new (mkNode val curr false));
          [apply lookup_insert_eq|done|]. simpl.
        apply lseg_insert; [done|]. by eapply lseg_fresh.
      * done.
      * apply not_elem_of_cons. done.
      * unfold live. simpl. by rewrite Hrm.
    + replace (head s :: (front val l ++ (new, val) :: back val l).*1)
        with (pre.*1 ++ pred :: new :: (back val l).*1).
      2:{ rewrite fmap_app. simpl. rewrite app_comm_cons.
          change (head s :: (front val l).*1)
            with (((head s, -1) :: front val l).*1).
          rewrite E, fmap_app, <- app_assoc. done. }
      apply NoDup_app. split_and!; [done| |].
      * intros x Hx [->|[->|Hin]%elem_of_cons]%elem_of_cons.
        -- done.
        -- by eapply (lseg_fresh _ _ _ _ _ _ _ Hpre).
        -- apply (Hdisj _ Hx). by right.
      * apply NoDup_cons. split.
        -- apply not_elem_of_cons. done.
        -- apply NoDup_cons. split; [|done].
           by eapply (lseg_fresh _ _ _ _ _ _ _ Hback).
    + rewrite insert_front_back. by apply insert_sorted.
  - done.
  - simpl. unfold h2, h1. rewrite !dom_insert_L.
    assert (pred ∈ dom (heap s)) by (apply elem_of_dom; eauto).
    set_solver.
  - simpl. unfold h2. rewrite lookup_insert_ne by done.
    apply lookup_insert_eq.
  - done.
  - intros a n Ha Hr. simpl. unfold h2, h1.
    rewrite !lookup_insert_ne; [done| |].
    + intros <-. apply Hnew, elem_of_dom. eauto.
    + intros <-. congruence.
Qed.

Lemma ml_contains_once_spec fuel val s l :
  Inv s l → (length l ≤ fuel)%nat →
  contains_once fuel val s = Ok (Some (found val l), s).
Proof.
  intros HI Hlen.
  destruct (ml_stop_facts fuel val s l HI Hlen)
    as (Hloc & Hs & pre & pn & E & Hp & Hrm & Hpn & Hpre & Hback
        & _ & _ & _ & _ & _ & Hpc).
  unfold contains_once. rewrite (bind_ok _ _ _ _ _ Hloc). simpl.
  set (st := mkState _ _ _ _).
  assert (match first_addr (back val l) with
          | None => ret false
          | Some c =>
              cn <- load c;;
              if removed cn then ret false
              else cn' <- load c;; ret (value cn' =? val)
          end st = Ok (found val l, st)) as Hfound.
  { unfold found. destruct (back val l) as [|[c w] l2]; simpl; [done|].
    destruct (lseg_cons_inv _ _ _ _ _ _ _ _ _ Hback)
      as (_ & cn & Hc & Hcv & Hcl & _).
    unfold bind, load, st. simpl. rewrite Hc.
    unfold live in Hcl. destruct (removed cn); [done|].
    simpl. rewrite Hc. by rewrite Hcv. }
  rewrite (bind_ok _ _ _ _ _ Hfound). unfold st.
  rewrite ml_unlock_pair by done. unfold ret. by rewrite <- Hs.
Qed.

Lemma ml_remove_once_miss fuel val s l :
  Inv s l → (length l ≤ fuel)%nat → found val l = false →
  remove_once fuel val s = Ok (Some false, s).
Proof.
  intros HI Hlen Hf.
  destruct (ml_stop_facts fuel val s l HI Hlen)
    as (Hloc & Hs & pre & pn & E & Hp & Hrm & Hpn & Hpre & Hback
        & _ & _ & _ & _ & _ & Hpc).
  unfold remove_once. rewrite (bind_ok _ _ _ _ _ Hloc). simpl.
  unfold found in Hf.
  destruct (back val l) as [|[c w] l2] eqn:Eb.
  - transitivity (ret (S := state) (Some false)
                    (mkState (heap s) ∅ (head s) (log s))).
    + exact (ml_unlock_pair (heap s) _ None (head s) (log s) (ret (Some false)) Hpc).
    + unfold ret. by rewrite <- Hs.
  - change (first_addr ((c, w) :: l2)) with (Some c) in *.
    destruct (lseg_cons_inv _ _ _ _ _ _ _ _ _ Hback)
      as (_ & cn & Hc & Hcv & _ & _).
    unfold bind at 1. unfold load at 1. simpl. rewrite Hc, Hcv.
    simpl in Hf. rewrite Hf. simpl.
    rewrite (ml_unlock_pair _ _ (Some c)) by done. unfold ret. by rewrite <- Hs.
Qed.

Lemma ml_remove_once_hit fuel val s l :
  Inv s l → (length l ≤ fuel)%nat → found val l = true →
  let pred := last_addr (head s) (front val l) in
  ∃ c l2 s',
    back val l = (c, val) :: l2 ∧
    remove_once fuel val s = Ok (Some true, s') ∧
    Inv s' (front val l ++ l2) ∧
    head s' = head s ∧
    dom (heap s') = dom (heap s) ∧
    heap s !! c = Some (mkNode val (first_addr l2) false) ∧
    heap s' !! c = Some (mkNode val (first_addr l2) true) ∧
    log s' = log s ++ [EvSetRemoved c; EvSetNext pred (first_addr l2)] ∧
    (∀ a n, heap s !! a = Some n → removed n = true → heap s' !! a = Some n).
Proof.
  intros HI Hlen Hf pred.
  destruct (ml_stop_facts fuel val s l HI Hlen)
    as (Hloc & Hs & pre & pn & E & Hp & Hrm & Hpn & Hpre & Hback
        & Hnd1 & Hnd2 & Hdisj & Hppre & Hpb & Hpc).
  fold pred in Hloc, E, Hp, Hpn, Hpre, Hback, Hdisj, Hppre, Hpb, Hpc.
  destruct HI as (Hseg & Hnd & Hsort & HL).
  destruct (found_back _ _ Hf) as (c & l2 & Eb).
  rewrite Eb in *.
  change (first_addr ((c, val) :: l2)) with (Some c) in *.
  simpl in Hnd2, Hdisj, Hpb, Hpc.
  destruct (lseg_cons_inv _ _ _ _ _ _ _ _ _ Hback)
    as (_ & cn & Hc & Hcv & Hcl & Hrest).
  pose proof (lseg_end _ _ _ _ _ _ Hrest) as Hcn.
  assert (removed cn = false) as Hcrm.
  { unfold live in Hcl. by destruct (removed cn). }
  assert (cn = mkNode val (first_addr l2) false) as Hcn'.
  { destruct cn; simpl in *; by subst. }
  apply not_elem_of_cons in Hpb as [Hpcne Hpl2].
  apply NoDup_cons in Hnd2 as [Hcl2 Hnd2].
  assert (c ∉ pre.*1) as Hcpre.
  { intros Hin. apply (Hdisj _ Hin). right. left. }
  set (h1 := <[c := mkNode (value cn) (next cn) true]> (heap s)).
  set (h2 := <[pred := mkNode (value pn) (next cn) (removed pn)]> h1).
  exists c, l2, (mkState h2 ∅ (head s)
                   (log s ++ [EvSetRemoved c; EvSetNext pred (first_addr l2)])).
  split_and!; [done| | |done| | | |done|].
  - unfold remove_once. rewrite (bind_ok _ _ _ _ _ Hloc). simpl.
    unfold bind at 1. unfold load at 1. simpl. rewrite Hc.
    rewrite Hcv, Z.eqb_refl. simpl.
    unfold bind at 1. unfold store_removed at 1. simpl. rewrite Hc.
    fold h1. unfold set_heap. simpl.
    unfold bind at 1. unfold load at 1. simpl.
    unfold h1 at 1. rewrite lookup_insert_eq. simpl.
    unfold bind at 1. unfold store_next at 1. simpl.
    unfold h1 at 1. rewrite lookup_insert_ne, Hp by done.
    fold h1 h2. unfold set_heap. simpl.
    rewrite (ml_unlock_pair h2 pred (Some c)) by done.
    unfold ret. rewrite <- app_assoc. simpl. by rewrite Hcn.
  - split_and!; simpl; [| | |done].
    + replace ((head s, -1) :: front val l ++ l2)
        with (pre ++ (pred, value (mkNode (value pn) (next cn) (removed pn))) :: l2).
      2:{ simpl. rewrite app_comm_cons, E, <- app_assoc. done. }
      unfold h2. apply lseg_relink; simpl; [| |done|done|].
      * by apply lseg_insert.
      * by apply lseg_insert.
      * unfold live. simpl. by rewrite Hrm.
    + replace (head s :: (front val l ++ l2).*1) with (pre.*1 ++ pred :: l2.*1).
      2:{ rewrite fmap_app, app_comm_cons.
          change (head s :: (front val l).*1)
            with (((head s, -1) :: front val l).*1).
          rewrite E, fmap_app, <- app_assoc. done. }
      apply NoDup_app. split_and!; [done| |by apply NoDup_cons].
      intros x Hx [->|Hin]%elem_of_cons; [done|].
      apply (Hdisj _ Hx). right. by right.
    + rewrite <- (front_back val l), Eb, fmap_app in Hsort. simpl in Hsort.
      rewrite fmap_app. by eapply sorted_drop_mid.
  - simpl. unfold h2, h1. rewrite !dom_insert_L.
    assert (pred ∈ dom (heap s)) by (apply elem_of_dom; eauto).
    assert (c ∈ dom (heap s)) by (apply elem_of_dom; eauto).
    set_solver.
  - by rewrite Hc, Hcn'.
  - simpl. unfold h2, h1. rewrite lookup_insert_ne by done.
    rewrite lookup_insert_eq. by rewrite Hcn'.
  - intros a n Ha Hr. simpl. unfold h2, h1.
    rewrite !lookup_insert_ne; [done| |]; intros <-; congruence.
Qed.


Lemma ml_retry_ok {A} tries (body : M state (option A)) s a s' :
  body s = Ok (Some a, s') → retry (S tries) body s = Ok (a, s').
Proof. intros H. simpl. by rewrite (bind_ok _ _ _ _ _ H). Qed.

Lemma ml_new_list_Inv : Inv new_list [].
Proof.
  unfold Inv, new_list. simpl. split_and!; [|by apply NoDup_singleton|constructor|done].
  apply (lseg_cons value next live _ _ (mkNode (-1) None false));
    [apply lookup_singleton_eq|done|constructor].
Qed.

(** Each operation does on the chain what the abstract step does on
    the list of values; marked nodes are left as they are and the log
    only grows. *)
Lemma ml_exec_refines tries fuel o s l :
  Inv s l → (length l ≤ fuel)%nat →
  ∃ s' l', exec (S tries) fuel o s = Ok ((spec_exec o (l.*2)).1, s') ∧
           Inv s' l' ∧
           l'.*2 = (spec_exec o (l.*2)).2 ∧
           head s' = head s ∧
           (length l' ≤ S (length l))%nat ∧
           (∀ a n, heap s !! a = Some n → removed n = true →
                   heap s' !! a = Some n) ∧
           (∃ evs, log s' = log s ++ evs).
Proof.
  intros HI Hlen. pose proof HI as (_ & _ & Hsort & _).
  destruct o as [v|v|v]; simpl.
  - destruct (ml_insert_once_spec fuel v s l HI Hlen)
      as (s' & Hrun & HI' & Hh & _ & _ & Hlog & Hfr).
    eexists s', _. unfold insert.
    rewrite (bind_ok _ _ _ _ _ (ml_retry_ok tries _ _ _ _ Hrun)).
    split_and!; [done|exact HI'|apply insert_front_back|done| |done|by eexists].
    pose proof (f_equal length (front_back v l)) as Hfb.
    rewrite length_app in Hfb. rewrite length_app. simpl. lia.
  - destruct (found v l) eqn:Hf.
    + destruct (ml_remove_once_hit fuel v s l HI Hlen Hf)
        as (c & l2 & s' & Eb & Hrun & HI' & Hh & _ & _ & _ & Hlog & Hfr).
      eexists s', _. unfold remove.
      rewrite (bind_ok _ _ _ _ _ (ml_retry_ok tries _ _ _ _ Hrun)).
      rewrite (remove_front_back_hit v c l l2 Eb). simpl.
      split_and!; [done|exact HI'|done|done| |done|by eexists].
      pose proof (f_equal length (front_back v l)) as Hfb.
      rewrite Eb, length_app in Hfb. rewrite length_app. simpl in *. lia.
    + exists s, l. unfold remove.
      rewrite (bind_ok _ _ _ _ _
                 (ml_retry_ok tries _ _ _ _ (ml_remove_once_miss fuel v s l HI Hlen Hf))).
      rewrite (found_remove_miss v l Hsort Hf). simpl.
      split_and!; [done|done|done|done|lia|done|].
      exists []. by rewrite app_nil_r.
  - exists s, l. unfold contains.
    rewrite (bind_ok _ _ _ _ _
               (ml_retry_ok tries _ _ _ _ (ml_contains_once_spec fuel v s l HI Hlen))).
    rewrite (found_contains v l Hsort).
    split_and!; [done|done|done|done|lia|done|].
    exists []. by rewrite app_nil_r.
Qed.

Lemma ml_run_refines tries fuel ops : ∀ s l,
  Inv s l → (length l + length ops ≤ fuel)%nat →
  ∃ s' l', run (S tries) fuel ops s = Ok ((spec_run ops (l.*2)).1, s') ∧
           Inv s' l' ∧
           l'.*2 = (spec_run ops (l.*2)).2 ∧
           head s' = head s ∧
           (length l' ≤ length l + length ops)%nat ∧
           (∀ a n, heap s !! a = Some n → removed n = true →
                   heap s' !! a = Some n) ∧
           (∃ evs, log s' = log s ++ evs).
Proof.
  induction ops as [|o ops IH]; intros s l HI Hlen; simpl in *.
  - exists s, l. split_and!; [done|done|done|done|lia|done|].
    exists []. by rewrite app_nil_r.
  - destruct (ml_exec_refines tries fuel o s l HI)
      as (s1 & l1 & Hrun & HI1 & E1 & Hh1 & Hl1 & Hfr1 & evs1 & Hlog1); [lia|].
    destruct (IH s1 l1 HI1)
      as (s2 & l2 & Hrun2 & HI2 & E2 & Hh2 & Hl2 & Hfr2 & evs2 & Hlog2); [lia|].
    exists s2, l2. rewrite (bind_ok _ _ _ _ _ Hrun), (bind_ok _ _ _ _ _ Hrun2).
    destruct (spec_exec o (l.*2)) as [r la]. simpl in *. subst la.
    destruct (spec_run ops (l1.*2)) as [rs lb]. simpl in *.
    split_and!; [done|done|done|congruence|lia| |].
    + intros a n Ha Hr. eauto.
    + exists (evs1 ++ evs2). by rewrite Hlog2, Hlog1, app_assoc.
Qed.

Lemma ml_printList_spec fuel s l :
  Inv s l → (length l ≤ fuel)%nat → printList fuel s = Ok (l.*2, s).
Proof.
  intros HI Hlen.
  destruct (ml_Inv_head _ _ HI) as (hn & Hh & Hv & Hn & Hseg).
  rewrite <- Hn in Hseg.
  destruct (walk_lseg _ _ _ _ _ _ fuel Hseg Hlen) as (nodes & Hw & Hm & Hall).
  unfold printList. rewrite Hh, Hw. do 2 f_equal.
  rewrite <- Hm. rewrite <- list_fmap_compose.
  f_equal. clear Hm Hw. induction Hall as [|x nodes [_ Hx] _ IH]; [done|].
  rewrite filter_cons. unfold live in Hx.
  destruct (decide (removed x.2 = false)) as [_|Hne]; [by rewrite IH|].
  by destruct (removed x.2).
Qed.

Lemma ml_chain_nodes_spec fuel s l :
  Inv s l → (length l < fuel)%nat →
  ∃ nodes, chain_nodes fuel s = Ok (nodes, s) ∧
           map (λ x, (x.1, value x.2)) nodes = (head s, -1) :: l ∧
           Forall (λ x, heap s !! x.1 = Some x.2 ∧ removed x.2 = false) nodes.
Proof.
  intros (Hseg & _) Hlen.
  destruct (walk_lseg _ _ _ _ _ _ fuel Hseg) as (nodes & Hw & Hm & Hall);
    [simpl; lia|].
  exists nodes. unfold chain_nodes. rewrite Hw. split_and!; [done|done|].
  eapply Forall_impl; [exact Hall|]. simpl. intros x [? Hl]. split; [done|].
  unfold live in Hl. by destruct (removed x.2).
Qed.


(** *** Fuel *)

Lemma ml_traverse_mono fuel : ∀ fuel' val pred curr s x,
  (fuel ≤ fuel')%nat →
  traverse fuel val pred curr s = Ok x → traverse fuel' val pred curr s = Ok x.
Proof.
  induction fuel as [|k IH]; intros fuel' val pred [c|] s x Hle;
    rewrite ?ml_traverse_null, ?ml_traverse_unfold; try done.
  - apply bind_mono_r. intros cn s1. by destruct (value cn <? val).
  - apply bind_mono_r. intros cn s1. destruct (value cn <? val); [|done].
    destruct fuel' as [|k']; [lia|].
    apply bind_mono_r; intros ? ?. apply IH. lia.
Qed.

Lemma ml_locate_mono fuel fuel' val s x :
  (fuel ≤ fuel')%nat →
  locate fuel val s = Ok x → locate fuel' val s = Ok x.
Proof.
  intros Hle. unfold locate.
  do 2 (apply bind_mono_r; intros ? ?).
  apply bind_mono_l. intros y. by apply ml_traverse_mono.
Qed.

(** A loop whose body returns at once returns what the body returns. *)
Lemma ml_retry_first {A} tries (body body' : M state (option A)) s x :
  (∀ y, body s = Ok y → body' s = Ok y) →
  (∃ a s', body' s = Ok (Some a, s')) →
  retry tries body s = Ok x → retry 1 body' s = Ok x.
Proof.
  intros Hmono (a & s' & Hb'). destruct tries as [|k]; [done|]. simpl.
  unfold bind. destruct (body s) as [[r s1]| |] eqn:Hb; [|done..].
  rewrite (Hmono _ eq_refl) in Hb'. injection Hb' as -> ->.
  by rewrite (Hmono _ eq_refl).
Qed.

Lemma ml_exec_first tries fuel o s l x :
  Inv s l → exec tries fuel o s = Ok x →
  exec 1 (fuel + length l) o s = Ok x.
Proof.
  intros HI. assert (length l ≤ fuel + length l)%nat as Hlen by lia.
  destruct o as [v|v|v]; simpl; apply bind_mono_l; intros y.
  - apply ml_retry_first.
    + intros z. apply bind_mono_l. intros w. apply ml_locate_mono. lia.
    + destruct (ml_insert_once_spec _ v s l HI Hlen) as (s' & Hrun & _). eauto.
  - apply ml_retry_first.
    + intros z. apply bind_mono_l. intros w. apply ml_locate_mono. lia.
    + destruct (found v l) eqn:Hf.
      * destruct (ml_remove_once_hit _ v s l HI Hlen Hf)
          as (c & l2 & s' & _ & Hrun & _). eauto.
      * pose proof (ml_remove_once_miss _ v s l HI Hlen Hf). eauto.
  - apply ml_retry_first.
    + intros z. apply bind_mono_l. intros w. apply ml_locate_mono. lia.
    + pose proof (ml_contains_once_spec _ v s l HI Hlen). eauto.
Qed.

Lemma ml_exec_Inv tries fuel o s l r s' :
  Inv s l → exec tries fuel o s = Ok (r, s') →
  ∃ l', Inv s' l' ∧ head s' = head s ∧
        r = (spec_exec o (l.*2)).1 ∧ l'.*2 = (spec_exec o (l.*2)).2 ∧
        (∀ a n, heap s !! a = Some n → removed n = true →
                heap s' !! a = Some n) ∧
        (∃ evs, log s' = log s ++ evs).
Proof.
  intros HI Hrun.
  apply (ml_exec_first _ _ _ _ l) in Hrun; [|done].
  destruct (ml_exec_refines 0 (fuel + length l) o s l HI)
    as (s1 & l1 & Hrun1 & HI1 & E1 & Hh1 & _ & Hfr & Hlog); [lia|].
  rewrite Hrun1 in Hrun. injection Hrun as <- <-. eauto 10.
Qed.


(** What [printList] shows, whatever the bound it was run with. *)
Lemma ml_printList_inv fuel s l snap s' :
  Inv s l → printList fuel s = Ok (snap, s') → snap = l.*2 ∧ s' = s.
Proof.
  intros HI. destruct (ml_Inv_head _ _ HI) as (hn & Hh & Hv & Hn & Hseg).
  rewrite <- Hn in Hseg.
  unfold printList. rewrite Hh.
  destruct (walk next fuel (heap s) (next hn)) as [x| |] eqn:Hw; [|done..].
  destruct (walk_lseg_inv _ _ _ _ _ _ _ _ Hseg Hw) as (Hm & Hall).
  intros [= <- <-]. split; [|done].
  rewrite <- Hm. rewrite <- list_fmap_compose. f_equal.
  clear Hm Hw. induction Hall as [|y x [_ Hy] _ IH]; [done|].
  rewrite filter_cons. unfold live in Hy.
  destruct (decide (removed y.2 = false)) as [_|Hne]; [by rewrite IH|].
  by destruct (removed y.2).
Qed.


Lemma ml_chain_values_spec fuel s l :
  Inv s l → (length l < fuel)%nat →
  ∃ nodes, chain_nodes fuel s = Ok (nodes, s) ∧
           map (λ x, value x.2) nodes = -1 :: l.*2 ∧
           Forall (λ x, removed x.2 = false) nodes.
Proof.
  intros HI Hlen.
  destruct (ml_chain_nodes_spec fuel s l HI Hlen) as (nodes & Hrun & Hm & Hall).
  exists nodes. split_and!; [done| |].
  - change (-1 :: l.*2) with (((head s, -1) :: l).*2).
    rewrite <- Hm. by rewrite <- list_fmap_compose.
  - eapply Forall_impl; [exact Hall|]. by intros x [_ ?].
Qed.


(** *** Results read backwards *)

Lemma ml_locate_inv fuel val s l p cr ok st :
  Inv s l → locate fuel val s = Ok ((p, cr, ok), st) →
  p = last_addr (head s) (front val l) ∧
  cr = first_addr (back val l) ∧
  ok = true.
Proof.
  intros HI Hrun.
  apply (ml_locate_mono fuel (fuel + length l)) in Hrun; [|lia].
  destruct (ml_stop_facts (fuel + length l) val s l HI) as (Hloc & _); [lia|].
  rewrite Hloc in Hrun. by injection Hrun as <- <- <- <-.
Qed.

Lemma ml_chain_nodes_inv fuel s l nodes st :
  Inv s l → chain_nodes fuel s = Ok (nodes, st) →
  map (λ x, (x.1, value x.2)) nodes = (head s, -1) :: l ∧
  Forall (λ x, heap s !! x.1 = Some x.2 ∧ removed x.2 = false) nodes ∧
  st = s.
Proof.
  intros (Hseg & _). unfold chain_nodes.
  destruct (walk next fuel (heap s) (Some (head s))) as [x| |] eqn:Hw; [|done..].
  destruct (walk_lseg_inv _ _ _ _ _ _ _ _ Hseg Hw) as (Hm & Hall).
  intros [= <- <-]. split_and!; [done| |done].
  eapply Forall_impl; [exact Hall|]. simpl. intros y [? Hl]. split; [done|].
  unfold live in Hl. by destruct (removed y.2).
Qed.

(** A marked node is on no chain. *)
Lemma ml_marked_off_chain s l c n :
  Inv s l → heap s !! c = Some n → removed n = true → c ∉ head s :: l.*1.
Proof.
  intros (Hseg & _) Hc Hr Hin.
  destruct (lseg_lookup _ _ _ _ _ _ _ c Hseg Hin) as (m & Hm & Hl).
  unfold live in Hl. rewrite Hc in Hm. injection Hm as <-.
  by rewrite Hr in Hl.
Qed.

Lemma ml_remove_true_inv tries fuel v s l s' :
  Inv s l → remove tries fuel v s = Ok (true, s') →
  found v l = true ∧
  remove_once (fuel + length l) v s = Ok (Some true, s').
Proof.
  intros HI Hrun. assert (length l ≤ fuel + length l)%nat as Hlen by lia.
  unfold remove in Hrun.
  apply (ml_retry_first _ _ (remove_once (fuel + length l) v)) in Hrun.
  - simpl in Hrun. unfold bind in Hrun.
    destruct (found v l) eqn:Hf.
    + destruct (ml_remove_once_hit _ v s l HI Hlen Hf)
        as (c & l2 & s1 & _ & Hrun1 & _).
      rewrite Hrun1 in Hrun |- *. by injection Hrun as <-.
    + rewrite (ml_remove_once_miss _ v s l HI Hlen Hf) in Hrun. done.
  - intros z. apply bind_mono_l. intros w. apply ml_locate_mono. lia.
  - destruct (found v l) eqn:Hf.
    + destruct (ml_remove_once_hit _ v s l HI Hlen Hf)
        as (c & l2 & s1 & _ & Hrun1 & _). eauto.
    + pose proof (ml_remove_once_miss _ v s l HI Hlen Hf). eauto.
Qed.

End MLFacts.

(** ** Facts about abstract histories *)

Lemma spec_run_app ops1 ops2 l :
  spec_run (ops1 ++ ops2) l =
  (let '(rs1, l1) := spec_run ops1 l in
   let '(rs2, l2) := spec_run ops2 l1 in
   (rs1 ++ rs2, l2)).
Proof.
  revert l. induction ops1 as [|o ops1 IH]; intros l; simpl.
  - by destruct (spec_run ops2 l).
  - destruct (spec_exec o l) as [r l1]. rewrite IH.
    destruct (spec_run ops1 l1) as [rs1 l2].
    by destruct (spec_run ops2 l2).
Qed.

Lemma spec_run_length ops l : length (spec_run ops l).1 = length ops.
Proof.
  revert l. induction ops as [|o ops IH]; intros l; simpl; [done|].
  destruct (spec_exec o l) as [r l1]. specialize (IH l1).
  destruct (spec_run ops l1). simpl in *. by rewrite IH.
Qed.

(** The multiset law: what is in the list is what was inserted and not
    yet removed. *)
Lemma spec_run_count v ops l :
  (SortedSet.count v (spec_run ops l).2 + removes_of v ops (spec_run ops l).1 =
   SortedSet.count v l + inserts_of v ops)%nat.
Proof.
  revert l. induction ops as [|o ops IH]; intros l; simpl; [lia|].
  destruct o as [x|x|x]; simpl.
  - specialize (IH (SortedSet.insert x l)). rewrite insert_count in IH.
    destruct (spec_run ops (SortedSet.insert x l)) as [rs l']. simpl in *.
    destruct (decide (x = v)); lia.
  - pose proof (remove_count x v l) as Hc.
    destruct (SortedSet.remove x l) as [b l1]. specialize (IH l1).
    destruct (spec_run ops l1) as [rs l']. simpl in *.
    destruct b; [|lia]. destruct (decide (x = v)); lia.
  - specialize (IH l). destruct (spec_run ops l) as [rs l']. simpl in *. lia.
Qed.

Lemma spec_contains_law ops v ops2 :
  ∃ rs b rs2,
    (spec_run (ops ++ OContains v :: ops2) []).1 = rs ++ RBool b :: rs2 ∧
    length rs = length ops ∧
    (b = true ↔ (removes_of v ops rs < inserts_of v ops)%nat).
Proof.
  rewrite spec_run_app.
  pose proof (spec_run_length ops []) as Hlen.
  pose proof (spec_run_count v ops []) as Hcount.
  destruct (spec_run ops []) as [rs l1]. simpl in *.
  destruct (spec_run ops2 l1) as [rs2 l2].
  exists rs, (SortedSet.contains v l1), rs2. split_and!; [done|done|].
  rewrite contains_count. unfold SortedSet.count in *. simpl in Hcount. lia.
Qed.

Lemma remove_elem_of v x l : x ∈ (SortedSet.remove v l).2 → x ∈ l.
Proof.
  induction l as [|y l IH]; simpl; [done|].
  destruct (y =? v); simpl.
  - by right.
  - destruct (SortedSet.remove v l) as [b r]. simpl in *.
    intros [->|Hx]%elem_of_cons; [by left|]. right. by apply IH.
Qed.

Lemma spec_run_elem_of ops : ∀ l x,
  x ∈ (spec_run ops l).2 → x ∈ l ∨ OInsert x ∈ ops.
Proof.
  induction ops as [|o ops IH]; intros l x; simpl; [by left|].
  destruct (spec_exec o l) as [r l1] eqn:E. specialize (IH l1 x).
  destruct (spec_run ops l1) as [rs l2]. simpl in *.
  intros [Hx|Hx]%IH; [|right; by right].
  destruct o as [v|v|v]; simpl in E.
  - injection E as <- <-. apply insert_elem_of in Hx as [->|Hx]; [|by left].
    right. left.
  - pose proof (remove_elem_of v x l) as Hr.
    destruct (SortedSet.remove v l) as [b r']. injection E as <- <-.
    left. by apply Hr.
  - injection E as <- <-. by left.
Qed.

(** A value that is already present gets its copy right next to it. *)
Lemma insert_adjacent v l :
  StronglySorted Z.le l → v ∈ l →
  ∃ l1 l2, l = l1 ++ v :: l2 ∧ SortedSet.insert v l = l1 ++ v :: v :: l2.
Proof.
  induction 1 as [|y l Hl IH Hy]; simpl; [by intros ?%elem_of_nil|].
  intros Hin. destruct (y <? v) eqn:E.
  - apply elem_of_cons in Hin as [->|Hin]; [lia|].
    destruct (IH Hin) as (l1 & l2 & -> & ->). by exists (y :: l1), l2.
  - apply elem_of_cons in Hin as [->|Hin]; [by exists [], l|].
    eapply Forall_forall in Hy; [|exact Hin].
    assert (y = v) as -> by lia. by exists [], l.
Qed.

Lemma sorted_with_sentinel (l : list Z) :
  StronglySorted Z.le l → (∀ x, x ∈ l → -1 <= x) → Sorted Z.le (-1 :: l).
Proof.
  intros Hs Hall. apply StronglySorted_Sorted. constructor; [done|].
  by apply Forall_forall.
Qed.

(** ** Reachable states *)

Lemma fg_steps_Inv s s' l :
  FineGrainedList.Inv s l → FineGrainedList.steps s s' →
  ∃ l', FineGrainedList.Inv s' l' ∧
        FineGrainedList.head s' = FineGrainedList.head s.
Proof.
  intros HI. induction 1 as [|fuel o s1 r s2 _ IH Hrun]; [eauto|].
  destruct IH as (l1 & HI1 & Hh1).
  destruct (FGFacts.fg_exec_Inv _ _ _ _ _ _ HI1 Hrun) as (l2 & HI2 & Hh2 & _).
  exists l2. split; [done|congruence].
Qed.

Lemma fg_reachable_Inv s :
  FineGrainedList.reachable s →
  ∃ l, FineGrainedList.Inv s l ∧
       FineGrainedList.head s = FineGrainedList.head FineGrainedList.new_list.
Proof. apply (fg_steps_Inv _ _ []), FGFacts.fg_new_list_Inv. Qed.

Lemma ml_steps_Inv s s' l :
  MarkedList.Inv s l → MarkedList.steps s s' →
  ∃ l', MarkedList.Inv s' l' ∧
        MarkedList.head s' = MarkedList.head s ∧
        (∀ a n, MarkedList.heap s !! a = Some n → MarkedList.removed n = true →
                MarkedList.heap s' !! a = Some n) ∧
        (∃ evs, MarkedList.log s' = MarkedList.log s ++ evs).
Proof.
  intros HI. induction 1 as [|tries fuel o s1 r s2 _ IH Hrun].
  - exists l. split_and!; [done|done|done|]. exists []. by rewrite app_nil_r.
  - destruct IH as (l1 & HI1 & Hh1 & Hfr1 & evs1 & Hlog1).
    destruct (MLFacts.ml_exec_Inv _ _ _ _ _ _ _ HI1 Hrun)
      as (l2 & HI2 & Hh2 & _ & _ & Hfr2 & evs2 & Hlog2).
    exists l2. split_and!; [done|congruence|eauto|].
    exists (evs1 ++ evs2). by rewrite Hlog2, Hlog1, app_assoc.
Qed.

Lemma ml_reachable_Inv s :
  MarkedList.reachable s →
  ∃ l, MarkedList.Inv s l ∧
       MarkedList.head s = MarkedList.head MarkedList.new_list.
Proof.
  intros H. destruct (ml_steps_Inv _ _ _ MLFacts.ml_new_list_Inv H) as (l & ? & ? & _).
  eauto.
Qed.

Lemma fg_run_steps fuel ops : ∀ s0 s rs s',
  FineGrainedList.steps s0 s →
  FineGrainedList.run fuel ops s = Ok (rs, s') →
  FineGrainedList.steps s0 s'.
Proof.
  induction ops as [|o ops IH]; intros s0 s rs s' Hst; simpl.
  - by intros [= <- <-].
  - unfold bind at 1.
    destruct (FineGrainedList.exec fuel o s) as [[r s1]| |] eqn:E; [|done..].
    unfold bind at 1.
    destruct (FineGrainedList.run fuel ops s1) as [[rs1 s2]| |] eqn:E2; [|done..].
    intros [= <- <-]. eapply IH; [|exact E2].
    by eapply FineGrainedList.steps_exec.
Qed.

Lemma ml_run_steps tries fuel ops : ∀ s0 s rs s',
  MarkedList.steps s0 s →
  MarkedList.run tries fuel ops s = Ok (rs, s') →
  MarkedList.steps s0 s'.
Proof.
  induction ops as [|o ops IH]; intros s0 s rs s' Hst; simpl.
  - by intros [= <- <-].
  - unfold bind at 1.
    destruct (MarkedList.exec tries fuel o s) as [[r s1]| |] eqn:E; [|done..].
    unfold bind at 1.
    destruct (MarkedList.run tries fuel ops s1) as [[rs1 s2]| |] eqn:E2; [|done..].
    intros [= <- <-]. eapply IH; [|exact E2].
    by eapply MarkedList.steps_exec.
Qed.

(** The walk along a chain, cut where a search for [val] finds it: the
    nodes passed hold smaller values, the node found is the first of
    the rest. *)
Lemma walk_stop {N} (value : N → Z) (next : N → ptr) (live : N → bool)
    (h : gmap addr N) a v0 l val c l2 fuel :
  lseg value next live h (Some a) None ((a, v0) :: l) →
  back val l = (c, val) :: l2 →
  (length l < fuel)%nat →
  ∃ hn before n after,
    walk next fuel h (Some a) = Ok ((a, hn) :: before ++ (c, n) :: after) ∧
    Forall (λ x, value x.2 < val) before ∧
    h !! c = Some n ∧
    before.*1 = (front val l).*1 ∧
    after.*1 = l2.*1.
Proof.
  intros Hseg Eb Hlen.
  destruct (walk_lseg value next live h (Some a) _ fuel Hseg)
    as (nodes & Hw & Hm & Hall); [simpl; lia|].
  rewrite <- (front_back val l), Eb in Hm.
  destruct nodes as [|[a' hn] nodes]; [done|].
  injection Hm as -> _ Hm.
  apply fmap_app_inv in Hm as (before & rest & Hb & Hr & ->).
  symmetry in Hr. apply fmap_cons_inv in Hr as ([c' n] & after & Hc & Ha & ->).
  simpl in Hc. injection Hc as <- Hv.
  exists hn, before, n, after. split_and!; [done| | | |].
  - pose proof (front_below val l) as Hf. rewrite Hb in Hf.
    by apply Forall_fmap in Hf.
  - apply Forall_cons in Hall as [_ Hall].
    apply Forall_app in Hall as [_ Hall].
    by apply Forall_cons in Hall as [[? _] _].
  - rewrite Hb, <- list_fmap_compose. done.
  - rewrite Ha, <- list_fmap_compose. done.
Qed.

(** The walk along a whole chain visits its nodes in order. *)
Lemma walk_addrs {N} (value : N → Z) (next : N → ptr) (live : N → bool)
    (h : gmap addr N) p l fuel :
  lseg value next live h p None l →
  (length l ≤ fuel)%nat →
  ∃ nodes, walk next fuel h p = Ok nodes ∧ nodes.*1 = l.*1.
Proof.
  intros Hseg Hlen.
  destruct (walk_lseg value next live h p l fuel Hseg Hlen) as (nodes & Hw & Hm & _).
  exists nodes. split; [done|]. rewrite <- Hm, <- list_fmap_compose. done.
Qed.

(** ** The claims *)

(** C1. Membership, one thread.  In a history that starts from the
    empty set, on either variant, a [contains(v)] call returns [true]
    exactly when the [insert(v)] calls made before it outnumber the
    [remove(v)] calls before it that returned [true].  [ops] is the
    history before the call, [ops2] whatever follows it; the history
    runs to completion as soon as the iteration bound is at least its
    length. *)
Theorem C1_membership (ops ops2 : list op) (v : Z) (tries fuel : nat) :
  (length ops + S (length ops2) ≤ fuel)%nat →
  (∃ rs b rs2 s,
     FineGrainedList.run fuel (ops ++ OContains v :: ops2)
       FineGrainedList.new_list = Ok (rs ++ RBool b :: rs2, s) ∧
     length rs = length ops ∧
     (b = true ↔ (removes_of v ops rs < inserts_of v ops)%nat)) ∧
  (∃ rs b rs2 s,
     MarkedList.run (S tries) fuel (ops ++ OContains v :: ops2)
       MarkedList.new_list = Ok (rs ++ RBool b :: rs2, s) ∧
     length rs = length ops ∧
     (b = true ↔ (removes_of v ops rs < inserts_of v ops)%nat)).
Proof.
  intros Hfuel.
  destruct (spec_contains_law ops v ops2) as (rs & b & rs2 & E & Hlen & Hb).
  split.
  - destruct (FGFacts.fg_run_refines fuel (ops ++ OContains v :: ops2)
                _ [] FGFacts.fg_new_list_Inv) as (s & l & Hrun & _).
    { rewrite length_app. simpl. lia. }
    exists rs, b, rs2, s. simpl in Hrun. by rewrite <- E.
  - destruct (MLFacts.ml_run_refines tries fuel (ops ++ OContains v :: ops2)
                _ [] MLFacts.ml_new_list_Inv) as (s & l & Hrun & _).
    { rewrite length_app. simpl. lia. }
    exists rs, b, rs2, s. simpl in Hrun. by rewrite <- E.
Qed.

Lemma C1_membership_witness :
  (∃ rs b rs2 s,
     FineGrainedList.run 4 ([OInsert 7; ORemove 7; OInsert 7] ++ OContains 7 :: [])
       FineGrainedList.new_list = Ok (rs ++ RBool b :: rs2, s) ∧
     length rs = 3%nat ∧
     (b = true ↔
      (removes_of 7 [OInsert 7; ORemove 7; OInsert 7] rs
       < inserts_of 7 [OInsert 7; ORemove 7; OInsert 7])%nat)) ∧
  (∃ rs b rs2 s,
     MarkedList.run 1 4 ([OInsert 7; ORemove 7; OInsert 7] ++ OContains 7 :: [])
       MarkedList.new_list = Ok (rs ++ RBool b :: rs2, s) ∧
     length rs = 3%nat ∧
     (b = true ↔
      (removes_of 7 [OInsert 7; ORemove 7; OInsert 7] rs
       < inserts_of 7 [OInsert 7; ORemove 7; OInsert 7])%nat)).
Proof.
  apply (C1_membership [OInsert 7; ORemove 7; OInsert 7] [] 7 0 4).
  simpl. lia.
Defined.

(** C2. [insert(v)] in any state a thread can reach, on either variant.
    With [snap] the snapshot before the call and an iteration bound of
    at least its length, the call completes (it has no result), the
    memory gains exactly one node, which holds [v], and the snapshot
    afterwards is the sorted insertion of [v] into [snap].  If [v] was
    already there the new entry lies next to an old one. *)
Theorem C2_insert (sf : FineGrainedList.state) (sm : MarkedList.state)
    (snapf snapm : list Z) (v : Z) (fuelf fuelm tries fuel : nat) :
  FineGrainedList.reachable sf →
  FineGrainedList.snapshot fuelf sf = Ok (snapf, sf) →
  MarkedList.reachable sm →
  MarkedList.printList fuelm sm = Ok (snapm, sm) →
  (length snapf ≤ fuel)%nat →
  (length snapm ≤ fuel)%nat →
  (∃ s' new n,
     FineGrainedList.insert fuel v sf = Ok ((), s') ∧
     FineGrainedList.snapshot (S fuel) s' = Ok (SortedSet.insert v snapf, s') ∧
     (new ∉ dom (FineGrainedList.heap sf)) ∧
     dom (FineGrainedList.heap s') = {[ new ]} ∪ dom (FineGrainedList.heap sf) ∧
     FineGrainedList.heap s' !! new = Some n ∧
     FineGrainedList.value n = v ∧
     (v ∈ snapf → ∃ l1 l2, snapf = l1 ++ v :: l2 ∧
                           SortedSet.insert v snapf = l1 ++ v :: v :: l2)) ∧
  (∃ s' new n,
     MarkedList.insert (S tries) fuel v sm = Ok ((), s') ∧
     MarkedList.printList (S fuel) s' = Ok (SortedSet.insert v snapm, s') ∧
     (new ∉ dom (MarkedList.heap sm)) ∧
     dom (MarkedList.heap s') = {[ new ]} ∪ dom (MarkedList.heap sm) ∧
     MarkedList.heap s' !! new = Some n ∧
     MarkedList.value n = v ∧
     MarkedList.removed n = false ∧
     (v ∈ snapm → ∃ l1 l2, snapm = l1 ++ v :: l2 ∧
                           SortedSet.insert v snapm = l1 ++ v :: v :: l2)).
Proof.
  intros Hrf Hsf Hrm Hsm Hlf Hlm. split.
  - destruct (fg_reachable_Inv _ Hrf) as (l & HI & _).
    destruct (FGFacts.fg_snapshot_inv _ _ _ _ _ HI Hsf) as [-> _].
    rewrite length_fmap in Hlf.
    destruct (FGFacts.fg_insert_spec fuel v sf l HI Hlf)
      as (s' & Hrun & HI' & _ & Hdom & Hnew).
    eexists s', (fresh (dom (FineGrainedList.heap sf))), _.
    split_and!; [done| |apply is_fresh|done|exact Hnew|done|].
    + rewrite (FGFacts.fg_snapshot_spec (S fuel) _ _ HI').
      * by rewrite insert_front_back.
      * pose proof (f_equal length (front_back v l)) as Hfb.
        rewrite length_app in Hfb. rewrite length_app. simpl. lia.
    + apply insert_adjacent. by destruct HI as (_ & _ & ? & _).
  - destruct (ml_reachable_Inv _ Hrm) as (l & HI & _).
    destruct (MLFacts.ml_printList_inv _ _ _ _ _ HI Hsm) as [-> _].
    rewrite length_fmap in Hlm.
    destruct (MLFacts.ml_insert_once_spec fuel v sm l HI Hlm)
      as (s' & Hrun & HI' & _ & Hdom & Hnew & _).
    eexists s', (fresh (dom (MarkedList.heap sm))), _.
    split_and!; [|  |apply is_fresh|done|exact Hnew|done|done|].
    + unfold MarkedList.insert. by apply MLFacts.ml_retry_ok.
    + rewrite (MLFacts.ml_printList_spec (S fuel) _ _ HI').
      * by rewrite insert_front_back.
      * pose proof (f_equal length (front_back v l)) as Hfb.
        rewrite length_app in Hfb. rewrite length_app. simpl. lia.
    + apply insert_adjacent. by destruct HI as (_ & _ & ? & _).
Qed.

Lemma C2_insert_witness :
  (∃ s' new n,
     FineGrainedList.insert 3 7 (fg_after [OInsert 5; OInsert 7; OInsert 9])
       = Ok ((), s') ∧
     FineGrainedList.snapshot 4 s' = Ok ([5; 7; 7; 9], s') ∧
     (new ∉ dom (FineGrainedList.heap
                   (fg_after [OInsert 5; OInsert 7; OInsert 9]))) ∧
     dom (FineGrainedList.heap s')
       = {[ new ]} ∪ dom (FineGrainedList.heap
                            (fg_after [OInsert 5; OInsert 7; OInsert 9])) ∧
     FineGrainedList.heap s' !! new = Some n ∧
     FineGrainedList.value n = 7 ∧
     ∃ l1 l2, [5; 7; 9] = l1 ++ 7 :: l2 ∧
              SortedSet.insert 7 [5; 7; 9] = l1 ++ 7 :: 7 :: l2) ∧
  (∃ s' new n,
     MarkedList.insert 1 3 7 (ml_after [OInsert 5; OInsert 7; OInsert 9])
       = Ok ((), s') ∧
     MarkedList.printList 4 s' = Ok ([5; 7; 7; 9], s') ∧
     (new ∉ dom (MarkedList.heap
                   (ml_after [OInsert 5; OInsert 7; OInsert 9]))) ∧
     dom (MarkedList.heap s')
       = {[ new ]} ∪ dom (MarkedList.heap
                            (ml_after [OInsert 5; OInsert 7; OInsert 9])) ∧
     MarkedList.heap s' !! new = Some n ∧
     MarkedList.value n = 7 ∧
     MarkedList.removed n = false ∧
     ∃ l1 l2, [5; 7; 9] = l1 ++ 7 :: l2 ∧
              SortedSet.insert 7 [5; 7; 9] = l1 ++ 7 :: 7 :: l2).
Proof.
  destruct (C2_insert (fg_after [OInsert 5; OInsert 7; OInsert 9])
              (ml_after [OInsert 5; OInsert 7; OInsert 9])
              [5; 7; 9] [5; 7; 9] 7 3 3 0 3)
    as [(sf' & nf & nnf & Hf1 & Hf2 & Hf3 & Hf4 & Hf5 & Hf6 & Hf7)
        (sm' & nm & nnm & Hm1 & Hm2 & Hm3 & Hm4 & Hm5 & Hm6 & Hm7 & Hm8)].
  - apply (fg_run_steps 3 [OInsert 5; OInsert 7; OInsert 9] _
             FineGrainedList.new_list [RVoid; RVoid; RVoid]);
      [apply FineGrainedList.steps_refl|].
    vm_compute. reflexivity.
  - vm_compute. reflexivity.
  - apply (ml_run_steps 1 3 [OInsert 5; OInsert 7; OInsert 9] _
             MarkedList.new_list [RVoid; RVoid; RVoid]);
      [apply MarkedList.steps_refl|].
    vm_compute. reflexivity.
  - vm_compute. reflexivity.
  - simpl. lia.
  - simpl. lia.
  - change (SortedSet.insert 7 [5; 7; 9]) with [5; 7; 7; 9] in Hf2, Hm2.
    split.
    + exists sf', nf, nnf. split_and!; try assumption.
      apply Hf7. apply list_elem_of_further, list_elem_of_here.
    + exists sm', nm, nnm. split_and!; try assumption.
      apply Hm8. apply list_elem_of_further, list_elem_of_here.
Defined.

(** C3. [remove(v)] in any state a thread can reach, on either variant.
    With [snap] the snapshot before the call and an iteration bound of
    at least its length: if [v] occurs in [snap] the call returns
    [true], the snapshot loses the first occurrence of [v] and nothing
    else, so the number of entries equal to [v] drops by one and every
    other count stays; exactly one node, holding [v], leaves the chain
    (freed in the lock-coupling list, marked in the lazy list).  That
    node [c] is the first one with value [v] met in traversal order:
    it is the node at which the traversal for [v] stops, every node
    the walk from the sentinel passes before it holds a smaller value,
    and the walk after the call visits the same nodes in the same
    order without [c].  If [v] does not occur the call returns [false]
    and the state is the one before the call. *)
Theorem C3_remove (sf : FineGrainedList.state) (sm : MarkedList.state)
    (snapf snapm : list Z) (v : Z) (fuelf fuelm tries fuel : nat) :
  FineGrainedList.reachable sf →
  FineGrainedList.snapshot fuelf sf = Ok (snapf, sf) →
  MarkedList.reachable sm →
  MarkedList.printList fuelm sm = Ok (snapm, sm) →
  (length snapf ≤ fuel)%nat →
  (length snapm ≤ fuel)%nat →
  ((v ∈ snapf →
    ∃ l1 l2 s' c n,
      snapf = l1 ++ v :: l2 ∧ (v ∉ l1) ∧
      FineGrainedList.remove fuel v sf = Ok (true, s') ∧
      FineGrainedList.snapshot fuel s' = Ok (l1 ++ l2, s') ∧
      (∀ x, SortedSet.count x snapf =
            SortedSet.count x (l1 ++ l2) + (if decide (x = v) then 1 else 0))%nat ∧
      FineGrainedList.heap sf !! c = Some n ∧
      FineGrainedList.value n = v ∧
      dom (FineGrainedList.heap s') = dom (FineGrainedList.heap sf) ∖ {[ c ]} ∧
      (∃ p st, FineGrainedList.locate fuel v sf = Ok ((p, Some c), st)) ∧
      (∃ hn before after nodes',
         walk FineGrainedList.next (S fuel) (FineGrainedList.heap sf)
           (Some (FineGrainedList.head sf))
         = Ok ((FineGrainedList.head sf, hn) :: before ++ (c, n) :: after) ∧
         Forall (λ x, FineGrainedList.value x.2 < v) before ∧
         walk FineGrainedList.next (S fuel) (FineGrainedList.heap s')
           (Some (FineGrainedList.head s'))
         = Ok nodes' ∧
         nodes'.*1 = FineGrainedList.head sf :: before.*1 ++ after.*1)) ∧
   (v ∉ snapf →
    FineGrainedList.remove fuel v sf = Ok (false, sf))) ∧
  ((v ∈ snapm →
    ∃ l1 l2 s' c nx,
      snapm = l1 ++ v :: l2 ∧ (v ∉ l1) ∧
      MarkedList.remove (S tries) fuel v sm = Ok (true, s') ∧
      MarkedList.printList fuel s' = Ok (l1 ++ l2, s') ∧
      (∀ x, SortedSet.count x snapm =
            SortedSet.count x (l1 ++ l2) + (if decide (x = v) then 1 else 0))%nat ∧
      MarkedList.heap sm !! c = Some (MarkedList.mkNode v nx false) ∧
      MarkedList.heap s' !! c = Some (MarkedList.mkNode v nx true) ∧
      dom (MarkedList.heap s') = dom (MarkedList.heap sm) ∧
      (∃ p st, MarkedList.locate fuel v sm = Ok ((p, Some c, true), st)) ∧
      (∃ hn before after nodes',
         MarkedList.chain_nodes (S fuel) sm
         = Ok ((MarkedList.head sm, hn) :: before
               ++ (c, MarkedList.mkNode v nx false) :: after, sm) ∧
         Forall (λ x, MarkedList.value x.2 < v) before ∧
         MarkedList.chain_nodes (S fuel) s' = Ok (nodes', s') ∧
         nodes'.*1 = MarkedList.head sm :: before.*1 ++ after.*1)) ∧
   (v ∉ snapm →
    MarkedList.remove (S tries) fuel v sm = Ok (false, sm))).
Proof.
  intros Hrf Hsf Hrm Hsm Hlf Hlm. split.
  - destruct (fg_reachable_Inv _ Hrf) as (l & HI & _).
    destruct (FGFacts.fg_snapshot_inv _ _ _ _ _ HI Hsf) as [-> _].
    rewrite length_fmap in Hlf.
    pose proof HI as (_ & _ & Hsort & _). split; intros Hin.
    + apply (found_elem_of v l Hsort) in Hin.
      destruct (FGFacts.fg_remove_hit fuel v sf l HI Hlf Hin)
        as (c & l2 & s' & Eb & Hrun & HI' & Hh' & Hdom).
      destruct (FGFacts.fg_stop_facts fuel v sf l HI Hlf) as (Hloc & _).
      rewrite Eb in Hloc.
      pose proof HI as (Hseg & _). pose proof HI' as (Hseg' & _).
      destruct (walk_stop _ _ _ _ _ _ _ v c l2 (S fuel) Hseg Eb)
        as (hn & before & cn & after & Hw & Hbelow & Hc & Hbf & Haf); [lia|].
      destruct (lseg_stop _ _ _ _ _ _ _ v Hseg) as (_ & _ & _ & _ & _ & _ & _ & Hback).
      rewrite Eb in Hback.
      destruct (lseg_cons_inv _ _ _ _ _ _ _ _ _ Hback) as (_ & cn' & Hc' & Hcv & _).
      rewrite Hc in Hc'. injection Hc' as <-.
      pose proof (front_back v l) as Hfb. rewrite Eb in Hfb.
      assert (length (front v l ++ l2) ≤ fuel)%nat as Hlen'.
      { apply (f_equal length) in Hfb. rewrite length_app in Hfb |- *.
        simpl in Hfb. lia. }
      destruct (walk_addrs _ _ _ _ _ _ (S fuel) Hseg') as (nodes' & Hw' & Hn');
        [simpl; lia|].
      exists (front v l).*2, l2.*2, s', c, cn.
      split_and!; [| |done| | |done|done|done|by eauto|].
      * rewrite <- Hfb at 1. by rewrite fmap_app.
      * intros (x & Hx & Hxin)%list_elem_of_fmap.
        pose proof (front_below v l) as Hbelow'.
        eapply Forall_forall in Hbelow'; [|exact Hxin]. simpl in Hbelow'. lia.
      * rewrite <- fmap_app. by apply FGFacts.fg_snapshot_spec.
      * intros x. pose proof (remove_count v x (l.*2)) as Hcc.
        rewrite (remove_front_back_hit v c l l2 Eb) in Hcc. simpl in Hcc.
        rewrite fmap_app in Hcc. rewrite Hcc.
        destruct (decide (v = x)), (decide (x = v)); congruence.
      * exists hn, before, after, nodes'. split_and!; [done|done|done|].
        rewrite Hn', Hh'. simpl. by rewrite fmap_app, Hbf, Haf.
    + apply (FGFacts.fg_remove_miss fuel v sf l); [done|done|].
      destruct (found v l) eqn:Hf; [|done].
      by apply (found_elem_of v l Hsort) in Hf.
  - destruct (ml_reachable_Inv _ Hrm) as (l & HI & _).
    destruct (MLFacts.ml_printList_inv _ _ _ _ _ HI Hsm) as [-> _].
    rewrite length_fmap in Hlm.
    pose proof HI as (_ & _ & Hsort & _). split; intros Hin.
    + apply (found_elem_of v l Hsort) in Hin.
      destruct (MLFacts.ml_remove_once_hit fuel v sm l HI Hlm Hin)
        as (c & l2 & s' & Eb & Hrun & HI' & Hh' & Hdom & Hc & Hc' & _).
      destruct (MLFacts.ml_stop_facts fuel v sm l HI Hlm) as (Hloc & _).
      rewrite Eb in Hloc.
      pose proof HI as (Hseg & _). pose proof HI' as (Hseg' & _).
      destruct (walk_stop _ _ _ _ _ _ _ v c l2 (S fuel) Hseg Eb)
        as (hn & before & cn & after & Hw & Hbelow & Hcn & Hbf & Haf); [lia|].
      rewrite Hc in Hcn. injection Hcn as <-.
      pose proof (front_back v l) as Hfb. rewrite Eb in Hfb.
      assert (length (front v l ++ l2) ≤ fuel)%nat as Hlen'.
      { apply (f_equal length) in Hfb. rewrite length_app in Hfb |- *.
        simpl in Hfb. lia. }
      destruct (walk_addrs _ _ _ _ _ _ (S fuel) Hseg') as (nodes' & Hw' & Hn');
        [simpl; lia|].
      exists (front v l).*2, l2.*2, s', c, (first_addr l2).
      split_and!; [| | | | |done|done|done|by eauto|].
      * rewrite <- Hfb at 1. by rewrite fmap_app.
      * intros (x & Hx & Hxin)%list_elem_of_fmap.
        pose proof (front_below v l) as Hbelow'.
        eapply Forall_forall in Hbelow'; [|exact Hxin]. simpl in Hbelow'. lia.
      * unfold MarkedList.remove. by apply MLFacts.ml_retry_ok.
      * rewrite <- fmap_app. by apply MLFacts.ml_printList_spec.
      * intros x. pose proof (remove_count v x (l.*2)) as Hcc.
        rewrite (remove_front_back_hit v c l l2 Eb) in Hcc. simpl in Hcc.
        rewrite fmap_app in Hcc. rewrite Hcc.
        destruct (decide (v = x)), (decide (x = v)); congruence.
      * exists hn, before, after, nodes'. unfold MarkedList.chain_nodes.
        rewrite Hw, Hw'. split_and!; [done|done|done|].
        rewrite Hn', Hh'. simpl. by rewrite fmap_app, Hbf, Haf.
    + unfold MarkedList.remove. apply MLFacts.ml_retry_ok.
      apply (MLFacts.ml_remove_once_miss fuel v sm l); [done|done|].
      destruct (found v l) eqn:Hf; [|done].
      by apply (found_elem_of v l Hsort) in Hf.
Qed.

Lemma C3_remove_witness :
  (∃ s' n (after nodes' : list (addr * FineGrainedList.Node)),
     FineGrainedList.remove 2 5 FineGrainedList.two_fives = Ok (true, s') ∧
     FineGrainedList.snapshot 2 s' = Ok ([5], s') ∧
     FineGrainedList.heap FineGrainedList.two_fives !! 3%positive = Some n ∧
     FineGrainedList.value n = 5 ∧
     dom (FineGrainedList.heap s')
       = dom (FineGrainedList.heap FineGrainedList.two_fives) ∖ {[ 3%positive ]} ∧
     (∃ p st, FineGrainedList.locate 2 5 FineGrainedList.two_fives
              = Ok ((p, Some 3%positive), st)) ∧
     after.*1 = [2%positive] ∧
     walk FineGrainedList.next 3 (FineGrainedList.heap s')
       (Some (FineGrainedList.head s')) = Ok nodes' ∧
     nodes'.*1 = [1%positive; 2%positive]) ∧
  (∃ s' nx (after nodes' : list (addr * MarkedList.Node)),
     MarkedList.remove 1 2 5 MarkedList.two_fives = Ok (true, s') ∧
     MarkedList.printList 2 s' = Ok ([5], s') ∧
     MarkedList.heap MarkedList.two_fives !! 3%positive
       = Some (MarkedList.mkNode 5 nx false) ∧
     MarkedList.heap s' !! 3%positive = Some (MarkedList.mkNode 5 nx true) ∧
     dom (MarkedList.heap s') = dom (MarkedList.heap MarkedList.two_fives) ∧
     (∃ p st, MarkedList.locate 2 5 MarkedList.two_fives
              = Ok ((p, Some 3%positive, true), st)) ∧
     after.*1 = [2%positive] ∧
     MarkedList.chain_nodes 3 s' = Ok (nodes', s') ∧
     nodes'.*1 = [1%positive; 2%positive]) ∧
  FineGrainedList.remove 2 7 FineGrainedList.two_fives
    = Ok (false, FineGrainedList.two_fives) ∧
  MarkedList.remove 1 2 7 MarkedList.two_fives = Ok (false, MarkedList.two_fives).
Proof.
  assert (FineGrainedList.reachable FineGrainedList.two_fives) as Hrf.
  { apply (fg_run_steps 2 [OInsert 5; OInsert 5] _ FineGrainedList.new_list
             [RVoid; RVoid]); [apply FineGrainedList.steps_refl|].
    vm_compute. reflexivity. }
  assert (MarkedList.reachable MarkedList.two_fives) as Hrm.
  { apply (ml_run_steps 1 2 [OInsert 5; OInsert 5] _ MarkedList.new_list
             [RVoid; RVoid]); [apply MarkedList.steps_refl|].
    vm_compute. reflexivity. }
  assert (FineGrainedList.snapshot 2 FineGrainedList.two_fives
          = Ok ([5; 5], FineGrainedList.two_fives)) as Hsf
    by (vm_compute; reflexivity).
  assert (MarkedList.printList 2 MarkedList.two_fives
          = Ok ([5; 5], MarkedList.two_fives)) as Hsm
    by (vm_compute; reflexivity).
  destruct (C3_remove _ _ [5; 5] [5; 5] 5 2 2 0 2 Hrf Hsf Hrm Hsm)
    as [[Hf _] [Hm _]]; [simpl; lia..|].
  destruct (C3_remove _ _ [5; 5] [5; 5] 7 2 2 0 2 Hrf Hsf Hrm Hsm)
    as [[_ Hf'] [_ Hm']]; [simpl; lia..|].
  destruct Hf as (l1 & l2 & s' & c & n & E & Hn & Hrun & Hsnap & _ & Hc & Hv
                  & Hdom & Hloc & hn & before & after & nodes' & Hw & Hlt
                  & Hw' & Hn');
    [by left|].
  destruct Hm as (k1 & k2 & t' & d & nx & E' & Hm & Hrun' & Hsnap' & _ & Hd
                  & Hd' & Hdom' & Hloc' & hm & before' & after' & nodes''
                  & Hx & Hlt' & Hx' & Hk');
    [by left|].
  assert (l1 = [] ∧ l2 = [5]) as [-> ->].
  { destruct l1 as [|x l1]; [by injection E as <-|].
    injection E as <- E. exfalso. apply Hn. by left. }
  assert (k1 = [] ∧ k2 = [5]) as [-> ->].
  { destruct k1 as [|x k1]; [by injection E' as <-|].
    injection E' as <- E'. exfalso. apply Hm. by left. }
  assert (before = []) as ->.
  { destruct before as [|[b bn] before]; [done|]. exfalso.
    apply Forall_cons in Hlt as [Hlt _].
    vm_compute in Hw. injection Hw as _ _ <- _. vm_compute in Hlt. done. }
  assert (before' = []) as ->.
  { destruct before' as [|[b bn] before']; [done|]. exfalso.
    apply Forall_cons in Hlt' as [Hlt' _].
    vm_compute in Hx. injection Hx as _ _ <- _. vm_compute in Hlt'. done. }
  assert (c = 3%positive ∧ after.*1 = [2%positive]) as [-> Ha].
  { vm_compute in Hw. injection Hw as _ <- _ <-. done. }
  assert (d = 3%positive ∧ after'.*1 = [2%positive]) as [-> Ha'].
  { vm_compute in Hx. injection Hx as _ <- _ <-. done. }
  rewrite Ha in Hn'. rewrite Ha' in Hk'.
  split_and!.
  - exists s', n, after, nodes'. split_and!; try assumption.
  - exists t', nx, after', nodes''. split_and!; try assumption.
  - apply Hf'. intros [?|[?|?%elem_of_nil]%elem_of_cons]%elem_of_cons; done.
  - apply Hm'. intros [?|[?|?%elem_of_nil]%elem_of_cons]%elem_of_cons; done.
Defined.

(** C4, as stated, fails: after [insert(-5)] on the empty list the chain
    read from the sentinel itself holds [-1] and then [-5]. *)
Lemma C4_counterexample :
  (∃ s, FineGrainedList.run 1 [OInsert (-5)] FineGrainedList.new_list
          = Ok ([RVoid], s) ∧
        FineGrainedList.chain_values 2 s = Ok ([-1; -5], s)) ∧
  (∃ s nodes, MarkedList.run 1 1 [OInsert (-5)] MarkedList.new_list
                = Ok ([RVoid], s) ∧
              MarkedList.chain_nodes 2 s = Ok (nodes, s) ∧
              map (λ x, MarkedList.value x.2) nodes = [-1; -5]) ∧
  ¬ Sorted Z.le [-1; -5].
Proof.
  split_and!.
  - eexists. split; vm_compute; reflexivity.
  - eexists _, _. split_and!; vm_compute; reflexivity.
  - intros H. apply Sorted_inv in H as [_ H]. apply HdRel_inv in H. lia.
Qed.

(** C4, amended.  After any history run by one thread, on either
    variant, the snapshot (the chain from the sentinel's successor; no
    node of it is marked in the lazy list) is in non-decreasing order.
    The chain read from the sentinel is [-1] followed by the snapshot,
    and it is in non-decreasing order when no value below [-1] was
    inserted. *)
Theorem C4_sorted (ops : list op) (tries fuel : nat) :
  (length ops ≤ fuel)%nat →
  ∃ snap,
    (∃ rs s,
       FineGrainedList.run fuel ops FineGrainedList.new_list = Ok (rs, s) ∧
       FineGrainedList.snapshot fuel s = Ok (snap, s) ∧
       FineGrainedList.chain_values (S fuel) s = Ok (-1 :: snap, s)) ∧
    (∃ rs s nodes,
       MarkedList.run (S tries) fuel ops MarkedList.new_list = Ok (rs, s) ∧
       MarkedList.printList fuel s = Ok (snap, s) ∧
       MarkedList.chain_nodes (S fuel) s = Ok (nodes, s) ∧
       map (λ x, MarkedList.value x.2) nodes = -1 :: snap ∧
       Forall (λ x, MarkedList.removed x.2 = false) nodes) ∧
    Sorted Z.le snap ∧
    ((∀ x, OInsert x ∈ ops → -1 <= x) → Sorted Z.le (-1 :: snap)).
Proof.
  intros Hfuel.
  destruct (FGFacts.fg_run_refines fuel ops _ [] FGFacts.fg_new_list_Inv)
    as (sf & lf & Hrunf & HIf & Ef & _ & Hlf); [simpl; lia|].
  destruct (MLFacts.ml_run_refines tries fuel ops _ [] MLFacts.ml_new_list_Inv)
    as (sm & lm & Hrunm & HIm & Em & _ & Hlm & _); [simpl; lia|].
  simpl in *. exists (spec_run ops []).2.
  pose proof HIf as (_ & _ & Hsort & _). rewrite Ef in Hsort.
  split_and!.
  - exists (spec_run ops []).1, sf. rewrite <- Ef. split_and!; [done| |].
    + apply FGFacts.fg_snapshot_spec; [done|lia].
    + apply FGFacts.fg_chain_values_spec; [done|lia].
  - destruct (MLFacts.ml_chain_values_spec (S fuel) sm lm HIm) as (nodes & Hn & Hv & Hr);
      [lia|].
    exists (spec_run ops []).1, sm, nodes. rewrite <- Em.
    split_and!; [done| |done|done|done].
    apply MLFacts.ml_printList_spec; [done|lia].
  - by apply StronglySorted_Sorted.
  - intros Hall. apply sorted_with_sentinel; [done|].
    intros x [?%elem_of_nil|Hx]%spec_run_elem_of; [done|by apply Hall].
Qed.

Lemma C4_sorted_witness :
  ∃ snap,
    (∃ rs s,
       FineGrainedList.run 3 [OInsert 10; OInsert 5; OInsert 20]
         FineGrainedList.new_list = Ok (rs, s) ∧
       FineGrainedList.snapshot 3 s = Ok (snap, s) ∧
       FineGrainedList.chain_values 4 s = Ok (-1 :: snap, s)) ∧
    (∃ rs s nodes,
       MarkedList.run 1 3 [OInsert 10; OInsert 5; OInsert 20]
         MarkedList.new_list = Ok (rs, s) ∧
       MarkedList.printList 3 s = Ok (snap, s) ∧
       MarkedList.chain_nodes 4 s = Ok (nodes, s) ∧
       map (λ x, MarkedList.value x.2) nodes = -1 :: snap ∧
       Forall (λ x, MarkedList.removed x.2 = false) nodes) ∧
    Sorted Z.le snap ∧
    ((∀ x, OInsert x ∈ [OInsert 10; OInsert 5; OInsert 20] → -1 <= x) →
     Sorted Z.le (-1 :: snap)).
Proof.
  apply (C4_sorted [OInsert 10; OInsert 5; OInsert 20] 0 3). simpl. lia.
Defined.

(** C5. [validate(pred, curr)] on any memory, for a node [pred] and a
    pointer [curr] that is null or a node: the call returns, changes
    nothing, and its result is [true] exactly when [pred] is not marked,
    [curr] (when not null) is not marked, and [pred->next == curr]. *)
Theorem C5_validate (s : MarkedList.state) (pred : addr) (curr : ptr)
    (pn : MarkedList.Node) :
  MarkedList.heap s !! pred = Some pn →
  (∀ c, curr = Some c → is_Some (MarkedList.heap s !! c)) →
  ∃ b, MarkedList.validate pred curr s = Ok (b, s) ∧
       (b = true ↔
        MarkedList.removed pn = false ∧
        (∀ c cn, curr = Some c → MarkedList.heap s !! c = Some cn →
                 MarkedList.removed cn = false) ∧
        MarkedList.next pn = curr).
Proof.
  intros Hp Hc. unfold MarkedList.validate.
  rewrite (bind_ok _ _ s pn s); [|by unfold MarkedList.load; rewrite Hp].
  destruct (MarkedList.removed pn) eqn:Hrm.
  - exists false. split; [done|]. split; [done|]. by intros (? & _).
  - destruct curr as [c|].
    + destruct (Hc c eq_refl) as [cn Hcn].
      rewrite (bind_ok _ _ s cn s); [|by unfold MarkedList.load; rewrite Hcn].
      destruct (MarkedList.removed cn) eqn:Hcrm.
      * exists false. split; [done|]. split; [done|].
        intros (_ & H & _). specialize (H c cn eq_refl Hcn). congruence.
      * rewrite (bind_ok _ _ s pn s); [|by unfold MarkedList.load; rewrite Hp].
        eexists. split; [done|]. rewrite bool_decide_eq_true.
        split; [|by intros (_ & _ & ?)].
        intros Hn. split_and!; [done| |done].
        intros c' cn' [= <-] Hcn'. congruence.
    + rewrite (bind_ok _ _ s pn s); [|by unfold MarkedList.load; rewrite Hp].
      eexists. split; [done|]. rewrite bool_decide_eq_true.
      split; [|by intros (_ & _ & ?)].
      intros Hn. split_and!; [done| |done]. by intros c' cn' [=].
Qed.

Lemma C5_validate_witness :
  ∃ b, MarkedList.validate (MarkedList.head MarkedList.two_fives) (Some 3%positive)
         MarkedList.two_fives = Ok (b, MarkedList.two_fives) ∧
       (b = true ↔
        MarkedList.removed (MarkedList.mkNode (-1) (Some 3%positive) false) = false ∧
        (∀ c cn, Some 3%positive = Some c →
                 MarkedList.heap MarkedList.two_fives !! c = Some cn →
                 MarkedList.removed cn = false) ∧
        MarkedList.next (MarkedList.mkNode (-1) (Some 3%positive) false)
          = Some 3%positive).
Proof.
  apply (C5_validate MarkedList.two_fives).
  - vm_compute. reflexivity.
  - intros c [= <-]. vm_compute. eauto.
Defined.

(** C6. The two variants agree.  For every history run by one thread
    from the empty set, with an iteration bound of at least its length,
    both lists complete it with the same results (so every [remove] and
    every [contains] returns the same [bool] in both), these are the
    results of the abstract sorted multiset, and the final snapshot of
    the lock-coupling list equals what [printList] shows of the lazy
    list. *)
Theorem C6_same_contract (ops : list op) (tries fuel : nat) :
  (length ops ≤ fuel)%nat →
  ∃ rs snap sf sm,
    FineGrainedList.run fuel ops FineGrainedList.new_list = Ok (rs, sf) ∧
    MarkedList.run (S tries) fuel ops MarkedList.new_list = Ok (rs, sm) ∧
    FineGrainedList.snapshot fuel sf = Ok (snap, sf) ∧
    MarkedList.printList fuel sm = Ok (snap, sm) ∧
    spec_run ops [] = (rs, snap).
Proof.
  intros Hfuel.
  destruct (FGFacts.fg_run_refines fuel ops _ [] FGFacts.fg_new_list_Inv)
    as (sf & lf & Hrunf & HIf & Ef & _ & Hlf); [simpl; lia|].
  destruct (MLFacts.ml_run_refines tries fuel ops _ [] MLFacts.ml_new_list_Inv)
    as (sm & lm & Hrunm & HIm & Em & _ & Hlm & _); [simpl; lia|].
  simpl in *.
  exists (spec_run ops []).1, (spec_run ops []).2, sf, sm.
  split_and!; [done|done| | |by destruct (spec_run ops [])].
  - rewrite <- Ef. apply FGFacts.fg_snapshot_spec; [done|lia].
  - rewrite <- Em. apply MLFacts.ml_printList_spec; [done|lia].
Qed.

Lemma C6_same_contract_witness :
  ∃ rs snap sf sm,
    FineGrainedList.run 4 [OInsert 3; OInsert 3; ORemove 3; OContains 3]
      FineGrainedList.new_list = Ok (rs, sf) ∧
    MarkedList.run 1 4 [OInsert 3; OInsert 3; ORemove 3; OContains 3]
      MarkedList.new_list = Ok (rs, sm) ∧
    FineGrainedList.snapshot 4 sf = Ok (snap, sf) ∧
    MarkedList.printList 4 sm = Ok (snap, sm) ∧
    spec_run [OInsert 3; OInsert 3; ORemove 3; OContains 3] [] = (rs, snap).
Proof.
  apply (C6_same_contract [OInsert 3; OInsert 3; ORemove 3; OContains 3] 0 4).
  simpl. lia.
Defined.

(** C7. Logical before physical removal in the lazy list.  In every
    state a thread can reach, every node on the chain from the sentinel
    is unmarked.  When [remove(v)] returns [true] there, the call made
    exactly two writes, in this order: it set the [removed] flag of the
    node [c] that held [v] right after the predecessor [pred], then it
    redirected [pred->next] past [c].  The node is not freed: it is
    still allocated, with its flag set, after the call and in every
    later state.  No later operation observes it: it is never the node
    that the traversal of [insert], [remove] or [contains] stops at, and
    it is never on the chain again. *)
Theorem C7_lazy_remove (s : MarkedList.state) (v : Z) (tries fuel : nat) :
  MarkedList.reachable s →
  (∀ fuel0 nodes st,
     MarkedList.chain_nodes fuel0 s = Ok (nodes, st) →
     Forall (λ x, MarkedList.removed x.2 = false) nodes) ∧
  (∀ s',
     MarkedList.remove tries fuel v s = Ok (true, s') →
     ∃ pred pn c nx,
       MarkedList.heap s !! pred = Some pn ∧
       MarkedList.next pn = Some c ∧
       MarkedList.heap s !! c = Some (MarkedList.mkNode v nx false) ∧
       MarkedList.log s' =
         MarkedList.log s
         ++ [MarkedList.EvSetRemoved c; MarkedList.EvSetNext pred nx] ∧
       MarkedList.heap s' !! c = Some (MarkedList.mkNode v nx true) ∧
       dom (MarkedList.heap s') = dom (MarkedList.heap s) ∧
       ∀ s'',
         MarkedList.steps s' s'' →
         MarkedList.heap s'' !! c = Some (MarkedList.mkNode v nx true) ∧
         (∀ fuel2 w p cr ok st,
            MarkedList.locate fuel2 w s'' = Ok ((p, cr, ok), st) →
            cr ≠ Some c) ∧
         (∀ fuel2 nodes st,
            MarkedList.chain_nodes fuel2 s'' = Ok (nodes, st) →
            (c ∉ nodes.*1) ∧
            Forall (λ x, MarkedList.removed x.2 = false) nodes)).
Proof.
  intros Hreach. destruct (ml_reachable_Inv _ Hreach) as (l & HI & _). split.
  - intros fuel0 nodes st Hn.
    destruct (MLFacts.ml_chain_nodes_inv _ _ _ _ _ HI Hn) as (_ & Hall & _).
    eapply Forall_impl; [exact Hall|]. by intros x [_ ?].
  - intros s' Hrun.
    destruct (MLFacts.ml_remove_true_inv _ _ _ _ _ _ HI Hrun) as (Hf & Honce).
    assert (length l ≤ fuel + length l)%nat as Hlen by lia.
    destruct (MLFacts.ml_remove_once_hit _ v s l HI Hlen Hf)
      as (c & l2 & s1 & Eb & Hrun1 & HI' & _ & Hdom & Hc & Hc' & Hlog & _).
    rewrite Hrun1 in Honce. injection Honce as ->.
    destruct (MLFacts.ml_stop_facts _ v s l HI Hlen)
      as (_ & _ & pre & pn & _ & Hp & _ & Hpn & _).
    rewrite Eb in Hpn.
    exists (last_addr (MarkedList.head s) (front v l)), pn, c, (first_addr l2).
    split_and!; [done|done|done|done|done|done|].
    intros s'' Hst.
    destruct (ml_steps_Inv _ _ _ HI' Hst) as (l'' & HI'' & _ & Hfr & _).
    pose proof (Hfr _ _ Hc' eq_refl) as Hc''.
    pose proof (MLFacts.ml_marked_off_chain _ _ _ _ HI'' Hc'' eq_refl) as Hoff.
    split_and!; [done| |].
    + intros fuel2 w p cr ok st Hloc ->.
      destruct (MLFacts.ml_locate_inv _ _ _ _ _ _ _ _ HI'' Hloc) as (_ & Hcr & _).
      apply Hoff. right. by eapply back_first_elem_of.
    + intros fuel2 nodes st Hn.
      destruct (MLFacts.ml_chain_nodes_inv _ _ _ _ _ HI'' Hn) as (Hm & Hall & _).
      split.
      * replace (nodes.*1)
          with ((map (λ x, (x.1, MarkedList.value x.2)) nodes).*1).
        -- by rewrite Hm.
        -- by rewrite <- list_fmap_compose.
      * eapply Forall_impl; [exact Hall|]. by intros x [_ ?].
Qed.

Lemma C7_lazy_remove_witness :
  ∃ s' pred c nx,
    MarkedList.remove 1 2 5 MarkedList.two_fives = Ok (true, s') ∧
    MarkedList.log s' =
      MarkedList.log MarkedList.two_fives
      ++ [MarkedList.EvSetRemoved c; MarkedList.EvSetNext pred nx] ∧
    MarkedList.heap s' !! c = Some (MarkedList.mkNode 5 nx true) ∧
    (∀ fuel2 w p cr ok st,
       MarkedList.locate fuel2 w s' = Ok ((p, cr, ok), st) → cr ≠ Some c).
Proof.
  assert (MarkedList.reachable MarkedList.two_fives) as Hreach.
  { apply (ml_run_steps 1 2 [OInsert 5; OInsert 5] _ MarkedList.new_list
             [RVoid; RVoid]); [apply MarkedList.steps_refl|].
    vm_compute. reflexivity. }
  assert (∃ s', MarkedList.remove 1 2 5 MarkedList.two_fives = Ok (true, s'))
    as [s' Hrun] by (eexists; vm_compute; reflexivity).
  destruct (C7_lazy_remove MarkedList.two_fives 5 1 2 Hreach) as [_ HB].
  destruct (HB s' Hrun) as (pred & pn & c & nx & _ & _ & _ & Hlog & Hc & _ & Hever).
  exists s', pred, c, nx. split_and!; [done|done|done|].
  apply (Hever s' (MarkedList.steps_refl s')).
Defined.

(** C8, as stated, fails in its first part: the sentinel holds [-1],
    which is an [int] like any other; [insert(-1)] stores it and
    [contains(-1)] then reports it. *)
Lemma C8_counterexample :
  (∃ n, FineGrainedList.heap FineGrainedList.new_list
          !! FineGrainedList.head FineGrainedList.new_list = Some n ∧
        is_int (FineGrainedList.value n)) ∧
  (∃ n, MarkedList.heap MarkedList.new_list
          !! MarkedList.head MarkedList.new_list = Some n ∧
        is_int (MarkedList.value n)) ∧
  (∃ s, FineGrainedList.run 1 [OInsert (-1); OContains (-1)]
          FineGrainedList.new_list = Ok ([RVoid; RBool true], s)) ∧
  (∃ s, MarkedList.run 1 1 [OInsert (-1); OContains (-1)]
          MarkedList.new_list = Ok ([RVoid; RBool true], s)).
Proof.
  split_and!.
  - eexists. split; [vm_compute; reflexivity|]. unfold is_int, INT_MIN, INT_MAX.
    simpl. lia.
  - eexists. split; [vm_compute; reflexivity|]. unfold is_int, INT_MIN, INT_MAX.
    simpl. lia.
  - eexists. vm_compute. reflexivity.
  - eexists. vm_compute. reflexivity.
Qed.

(** C8, amended.  The sentinel holds [-1], a value inside the domain of
    the operations.  All the same, in every state a thread can reach,
    on either variant and whatever values the operations were called
    with, the list still starts at the sentinel allocated by the
    constructor, the sentinel still holds [-1] (and is unmarked in the
    lazy list), and the node at which the traversal of an operation
    stops, the only one [contains] compares and [remove] unlinks, is
    never the sentinel. *)
Theorem C8_sentinel (sf : FineGrainedList.state) (sm : MarkedList.state) :
  FineGrainedList.reachable sf →
  MarkedList.reachable sm →
  is_int (-1) ∧
  (FineGrainedList.head sf = FineGrainedList.head FineGrainedList.new_list ∧
   (∃ nx, FineGrainedList.heap sf !! FineGrainedList.head sf
            = Some (FineGrainedList.mkNode (-1) nx)) ∧
   (∀ fuel w p cr st,
      FineGrainedList.locate fuel w sf = Ok ((p, cr), st) →
      cr ≠ Some (FineGrainedList.head sf))) ∧
  (MarkedList.head sm = MarkedList.head MarkedList.new_list ∧
   (∃ nx, MarkedList.heap sm !! MarkedList.head sm
            = Some (MarkedList.mkNode (-1) nx false)) ∧
   (∀ fuel w p cr ok st,
      MarkedList.locate fuel w sm = Ok ((p, cr, ok), st) →
      cr ≠ Some (MarkedList.head sm))).
Proof.
  intros Hrf Hrm. split_and!.
  - unfold is_int, INT_MIN, INT_MAX. lia.
  - by destruct (fg_reachable_Inv _ Hrf) as (l & _ & ?).
  - destruct (fg_reachable_Inv _ Hrf) as (l & HI & _).
    destruct (FGFacts.fg_Inv_head _ _ HI) as ([hv hnx] & Hh & Hv & _).
    simpl in Hv. subst hv. eauto.
  - destruct (fg_reachable_Inv _ Hrf) as (l & HI & _).
    intros fuel w p cr st Hloc ->.
    destruct (FGFacts.fg_locate_inv _ _ _ _ _ _ _ HI Hloc) as (_ & Hcr).
    destruct HI as (_ & [Hnd _]%NoDup_cons & _).
    apply Hnd. by eapply back_first_elem_of.
  - by destruct (ml_reachable_Inv _ Hrm) as (l & _ & ?).
  - destruct (ml_reachable_Inv _ Hrm) as (l & HI & _).
    destruct HI as (Hseg & _).
    destruct (lseg_cons_inv _ _ _ _ _ _ _ _ _ Hseg)
      as (_ & [hv hnx hr] & Hh & Hv & Hl & _).
    unfold MarkedList.live in Hl. simpl in Hv, Hl. subst hv.
    destruct hr; [done|]. eauto.
  - destruct (ml_reachable_Inv _ Hrm) as (l & HI & _).
    intros fuel w p cr ok st Hloc ->.
    destruct (MLFacts.ml_locate_inv _ _ _ _ _ _ _ _ HI Hloc) as (_ & Hcr & _).
    destruct HI as (_ & [Hnd _]%NoDup_cons & _).
    apply Hnd. by eapply back_first_elem_of.
Qed.

Lemma C8_sentinel_witness :
  FineGrainedList.head FineGrainedList.two_fives
    = FineGrainedList.head FineGrainedList.new_list ∧
  MarkedList.head MarkedList.two_fives = MarkedList.head MarkedList.new_list.
Proof.
  assert (FineGrainedList.reachable FineGrainedList.two_fives) as Hrf.
  { apply (fg_run_steps 2 [OInsert 5; OInsert 5] _ FineGrainedList.new_list
             [RVoid; RVoid]); [apply FineGrainedList.steps_refl|].
    vm_compute. reflexivity. }
  assert (MarkedList.reachable MarkedList.two_fives) as Hrm.
  { apply (ml_run_steps 1 2 [OInsert 5; OInsert 5] _ MarkedList.new_list
             [RVoid; RVoid]); [apply MarkedList.steps_refl|].
    vm_compute. reflexivity. }
  destruct (C8_sentinel _ _ Hrf Hrm) as (_ & (Hf & _) & (Hm & _)).
  by split.
Defined.

(** C9. The concrete scenarios, on either variant, starting empty:
    after [insert(10)], [insert(5)], [insert(20)] the snapshot is
    [5, 10, 20] and [contains(10)] is [true]; [remove(10)] returns
    [true], after which [contains(10)] is [false] and the snapshot is
    [5, 20]; [remove(99)] returns [false] and the snapshot is still
    [5, 20]. *)
Theorem C9_scenarios :
  (∃ s, FineGrainedList.scenario 3 FineGrainedList.new_list
        = Ok (([5; 10; 20], true, true, false, [5; 20], false, [5; 20]), s)) ∧
  (∃ s, MarkedList.scenario 1 3 MarkedList.new_list
        = Ok (([5; 10; 20], true, true, false, [5; 20], false, [5; 20]), s)).
Proof. split; eexists; vm_compute; reflexivity. Qed.

(** C10. Termination with one thread.  In every state a thread can
    reach, with [snap] the snapshot, every operation of either variant
    completes within an iteration bound equal to the length of [snap].
    In the lazy list [validate] returns [true] on the first attempt, so
    the body of the retry loop returns without asking for another
    iteration: whatever number of iterations the loop is allowed, it
    makes one. *)
Theorem C10_termination (sf : FineGrainedList.state) (sm : MarkedList.state)
    (snapf snapm : list Z) (v : Z) (fuelf fuelm fuel : nat) :
  FineGrainedList.reachable sf →
  FineGrainedList.snapshot fuelf sf = Ok (snapf, sf) →
  MarkedList.reachable sm →
  MarkedList.printList fuelm sm = Ok (snapm, sm) →
  (length snapf ≤ fuel)%nat →
  (length snapm ≤ fuel)%nat →
  ((∃ s', FineGrainedList.insert fuel v sf = Ok ((), s')) ∧
   (∃ b s', FineGrainedList.remove fuel v sf = Ok (b, s')) ∧
   (∃ b s', FineGrainedList.contains fuel v sf = Ok (b, s'))) ∧
  ((∃ p cr st, MarkedList.locate fuel v sm = Ok ((p, cr, true), st)) ∧
   (∃ s', MarkedList.insert_once fuel v sm = Ok (Some (), s') ∧
          ∀ tries, MarkedList.insert (S tries) fuel v sm = Ok ((), s')) ∧
   (∃ b s', MarkedList.remove_once fuel v sm = Ok (Some b, s') ∧
            ∀ tries, MarkedList.remove (S tries) fuel v sm = Ok (b, s')) ∧
   (∃ b s', MarkedList.contains_once fuel v sm = Ok (Some b, s') ∧
            ∀ tries, MarkedList.contains (S tries) fuel v sm = Ok (b, s'))).
Proof.
  intros Hrf Hsf Hrm Hsm Hlf Hlm. split.
  - destruct (fg_reachable_Inv _ Hrf) as (l & HI & _).
    destruct (FGFacts.fg_snapshot_inv _ _ _ _ _ HI Hsf) as [-> _].
    rewrite length_fmap in Hlf. split_and!.
    + destruct (FGFacts.fg_insert_spec fuel v sf l HI Hlf) as (s' & Hrun & _). eauto.
    + destruct (found v l) eqn:Hf.
      * destruct (FGFacts.fg_remove_hit fuel v sf l HI Hlf Hf)
          as (c & l2 & s' & _ & Hrun & _). eauto.
      * pose proof (FGFacts.fg_remove_miss fuel v sf l HI Hlf Hf). eauto.
    + pose proof (FGFacts.fg_contains_spec fuel v sf l HI Hlf). eauto.
  - destruct (ml_reachable_Inv _ Hrm) as (l & HI & _).
    destruct (MLFacts.ml_printList_inv _ _ _ _ _ HI Hsm) as [-> _].
    rewrite length_fmap in Hlm. split_and!.
    + destruct (MLFacts.ml_stop_facts fuel v sm l HI Hlm) as (Hloc & _). eauto.
    + destruct (MLFacts.ml_insert_once_spec fuel v sm l HI Hlm) as (s' & Hrun & _).
      exists s'. split; [done|]. intros tries. by apply MLFacts.ml_retry_ok.
    + destruct (found v l) eqn:Hf.
      * destruct (MLFacts.ml_remove_once_hit fuel v sm l HI Hlm Hf)
          as (c & l2 & s' & _ & Hrun & _).
        exists true, s'. split; [done|]. intros tries. by apply MLFacts.ml_retry_ok.
      * pose proof (MLFacts.ml_remove_once_miss fuel v sm l HI Hlm Hf) as Hrun.
        exists false, sm. split; [done|]. intros tries. by apply MLFacts.ml_retry_ok.
    + pose proof (MLFacts.ml_contains_once_spec fuel v sm l HI Hlm) as Hrun.
      eexists _, sm. split; [done|]. intros tries. by apply MLFacts.ml_retry_ok.
Qed.

Lemma C10_termination_witness :
  ((∃ s', FineGrainedList.insert 2 5 FineGrainedList.two_fives = Ok ((), s')) ∧
   (∃ b s', FineGrainedList.remove 2 5 FineGrainedList.two_fives = Ok (b, s')) ∧
   (∃ b s', FineGrainedList.contains 2 5 FineGrainedList.two_fives = Ok (b, s'))) ∧
  ((∃ p cr st, MarkedList.locate 2 5 MarkedList.two_fives = Ok ((p, cr, true), st)) ∧
   (∃ s', MarkedList.insert_once 2 5 MarkedList.two_fives = Ok (Some (), s') ∧
          ∀ tries, MarkedList.insert (S tries) 2 5 MarkedList.two_fives = Ok ((), s')) ∧
   (∃ b s', MarkedList.remove_once 2 5 MarkedList.two_fives = Ok (Some b, s') ∧
            ∀ tries, MarkedList.remove (S tries) 2 5 MarkedList.two_fives = Ok (b, s')) ∧
   (∃ b s', MarkedList.contains_once 2 5 MarkedList.two_fives = Ok (Some b, s') ∧
            ∀ tries, MarkedList.contains (S tries) 2 5 MarkedList.two_fives = Ok (b, s'))).
Proof.
  apply (C10_termination _ _ [5; 5] [5; 5] 5 2 2 2).
  - apply (fg_run_steps 2 [OInsert 5; OInsert 5] _ FineGrainedList.new_list
             [RVoid; RVoid]); [apply FineGrainedList.steps_refl|].
    vm_compute. reflexivity.
  - vm_compute. reflexivity.
  - apply (ml_run_steps 1 2 [OInsert 5; OInsert 5] _ MarkedList.new_list
             [RVoid; RVoid]); [apply MarkedList.steps_refl|].
    vm_compute. reflexivity.
  - vm_compute. reflexivity.
  - simpl. lia.
  - simpl. lia.
Defined.

(** * Further properties *)

(** ** Example states *)

(** A state given as the outcome of a history is reachable: run it. *)
Ltac fg_by_running ops rs :=
  apply (fg_run_steps (length ops) ops _ FineGrainedList.new_list rs);
  [apply FineGrainedList.steps_refl | vm_compute; reflexivity].

Ltac ml_by_running ops rs :=
  apply (ml_run_steps 1 (length ops) ops _ MarkedList.new_list rs);
  [apply MarkedList.steps_refl | vm_compute; reflexivity].

(** ** Memory of the lock-coupling list *)

Lemma lseg_functional {N} (value : N → Z) (next : N → ptr) (live : N → bool)
    (h : gmap addr N) p l1 :
  lseg value next live h p None l1 →
  ∀ l2, lseg value next live h p None l2 → l1 = l2.
Proof.
  remember None as q eqn:Hq.
  induction 1 as [|a n q l Ha Hl _ IH]; intros l2 H2; subst.
  - by inversion H2.
  - destruct l2 as [|[b w] l2]; [by inversion H2|].
    destruct (lseg_cons_inv _ _ _ _ _ _ _ _ _ H2) as ([= <-] & n' & Hn' & <- & _ & Hrest).
    rewrite Ha in Hn'. injection Hn' as <-. f_equal. by apply IH.
Qed.


Lemma front_back_addrs v (l : list (addr * Z)) :
  (list_to_set (l.*1) : gset addr)
  = list_to_set ((front v l).*1) ∪ list_to_set ((back v l).*1).
Proof. by rewrite <- list_to_set_app_L, <- fmap_app, front_back. Qed.

(** Every allocated node of the lock-coupling list is on the chain. *)
Lemma fg_exec_dom fuel o s l r s' :
  FineGrainedList.Inv s l →
  dom (FineGrainedList.heap s) = list_to_set (FineGrainedList.head s :: l.*1) →
  FineGrainedList.exec fuel o s = Ok (r, s') →
  ∃ l', FineGrainedList.Inv s' l' ∧
        dom (FineGrainedList.heap s')
        = list_to_set (FineGrainedList.head s' :: l'.*1).
Proof.
  intros HI Hdom Hrun.
  apply (FGFacts.fg_exec_mono fuel (fuel + length l)) in Hrun; [|lia].
  assert (length l ≤ fuel + length l)%nat as Hlen by lia.
  pose proof (front_back_addrs) as Hfb.
  destruct o as [v|v|v]; simpl in Hrun.
  - destruct (FGFacts.fg_insert_spec _ v s l HI Hlen)
      as (s1 & Hrun1 & HI1 & Hh & Hdom1 & _).
    rewrite (bind_ok _ _ _ _ _ Hrun1) in Hrun. injection Hrun as _ <-.
    eexists. split; [exact HI1|].
    rewrite Hdom1, Hdom, Hh. simpl. rewrite (Hfb v l), fmap_app. simpl.
    rewrite list_to_set_app_L. simpl. set_solver.
  - destruct (found v l) eqn:Hf.
    + destruct (FGFacts.fg_remove_hit _ v s l HI Hlen Hf)
        as (c & l2 & s1 & Eb & Hrun1 & HI1 & Hh & Hdom1).
      rewrite (bind_ok _ _ _ _ _ Hrun1) in Hrun. injection Hrun as _ <-.
      eexists. split; [exact HI1|].
      destruct HI as (_ & Hnd & _).
      rewrite <- (front_back v l), Eb, fmap_app in Hnd. simpl in Hnd.
      apply NoDup_cons in Hnd as [Hhd Hnd].
      apply NoDup_app in Hnd as (_ & Hdisj & [Hc2 _]%NoDup_cons).
      rewrite Hdom1, Hdom, Hh. simpl. rewrite (Hfb v l), Eb, fmap_app. simpl.
      rewrite list_to_set_app_L.
      assert (c ≠ FineGrainedList.head s).
      { intros ->. apply Hhd. apply elem_of_app. right. left. }
      assert (c ∉ (front v l).*1).
      { intros Hin. apply (Hdisj _ Hin). left. }
      set_solver.
    + rewrite (bind_ok _ _ _ _ _ (FGFacts.fg_remove_miss _ v s l HI Hlen Hf)) in Hrun.
      injection Hrun as _ <-. eauto.
  - rewrite (bind_ok _ _ _ _ _ (FGFacts.fg_contains_spec _ v s l HI Hlen)) in Hrun.
    injection Hrun as _ <-. eauto.
Qed.

Lemma fg_reachable_dom s :
  FineGrainedList.reachable s →
  ∃ l, FineGrainedList.Inv s l ∧
       dom (FineGrainedList.heap s) = list_to_set (FineGrainedList.head s :: l.*1).
Proof.
  induction 1 as [|fuel o s1 r s2 _ IH Hrun].
  - exists []. split; [apply FGFacts.fg_new_list_Inv|].
    unfold FineGrainedList.new_list. simpl. rewrite dom_singleton_L. set_solver.
  - destruct IH as (l & HI & Hdom). by eapply fg_exec_dom.
Qed.

Lemma fg_destroy_from_null fuel :
  FineGrainedList.destroy_from fuel None = ret ().
Proof. by destruct fuel. Qed.

Lemma fg_destroy_from_spec l : ∀ fuel s,
  lseg FineGrainedList.value FineGrainedList.next FineGrainedList.live
    (FineGrainedList.heap s) (first_addr l) None l →
  NoDup (l.*1) →
  FineGrainedList.locks s = ∅ →
  (length l ≤ fuel)%nat →
  ∃ s', FineGrainedList.destroy_from fuel (first_addr l) s = Ok ((), s') ∧
        dom (FineGrainedList.heap s')
        = dom (FineGrainedList.heap s) ∖ list_to_set (l.*1) ∧
        FineGrainedList.locks s' = ∅.
Proof.
  induction l as [|[c v] l IH]; intros fuel s Hseg Hnd HL Hlen.
  - exists s. simpl. rewrite fg_destroy_from_null. split_and!; [done| |done].
    set_solver.
  - change (first_addr ((c, v) :: l)) with (Some c) in *.
    destruct (lseg_cons_inv _ _ _ _ _ _ _ _ _ Hseg) as (_ & cn & Hc & _ & _ & Hrest).
    pose proof (lseg_end _ _ _ _ _ _ Hrest) as Hn.
    simpl in Hnd. apply NoDup_cons in Hnd as [Hcl Hnd].
    destruct fuel as [|k]; [simpl in Hlen; lia|].
    set (s1 := FineGrainedList.set_heap (delete c (FineGrainedList.heap s)) s).
    destruct (IH k s1) as (s' & Hrun & Hdom & HL').
    { rewrite <- Hn. simpl. by apply lseg_delete. }
    { done. }
    { done. }
    { simpl in Hlen. lia. }
    exists s'. split_and!; [| |done].
    + simpl.
      rewrite (bind_ok _ _ s cn s); [|by unfold FineGrainedList.load; rewrite Hc].
      rewrite (bind_ok _ _ s () s1).
      * by rewrite Hn.
      * unfold FineGrainedList.delete_node. rewrite Hc, HL.
        by rewrite decide_False by set_solver.
    + rewrite Hdom. simpl. rewrite dom_delete_L. set_solver.
Qed.

(** X1. [~FineGrainedList()] leaves nothing behind: in every state a
    thread can reach, with an iteration bound above the length of the
    snapshot, the destructor returns and the memory is empty. *)
Theorem X1_fg_destructor_frees_all (s : FineGrainedList.state)
    (snap : list Z) (fuel0 fuel : nat) :
  FineGrainedList.reachable s →
  FineGrainedList.snapshot fuel0 s = Ok (snap, s) →
  (length snap < fuel)%nat →
  ∃ s', FineGrainedList.destructor fuel s = Ok ((), s') ∧
        FineGrainedList.heap s' = ∅ ∧
        FineGrainedList.locks s' = ∅.
Proof.
  intros Hreach Hsnap Hlen.
  destruct (fg_reachable_dom _ Hreach) as (l & HI & Hdom).
  destruct (FGFacts.fg_snapshot_inv _ _ _ _ _ HI Hsnap) as [-> _].
  rewrite length_fmap in Hlen.
  destruct HI as (Hseg & Hnd & _ & HL).
  destruct (fg_destroy_from_spec ((FineGrainedList.head s, -1) :: l) fuel s)
    as (s' & Hrun & Hdom' & HL'); [done|done|done|simpl; lia|].
  exists s'. split_and!; [done| |done].
  apply dom_empty_iff_L. rewrite Hdom', Hdom. set_solver.
Qed.

Lemma X1_fg_destructor_frees_all_witness :
  ∃ s', FineGrainedList.destructor 3 FineGrainedList.two_fives = Ok ((), s') ∧
        FineGrainedList.heap s' = ∅ ∧
        FineGrainedList.locks s' = ∅.
Proof.
  apply (X1_fg_destructor_frees_all _ [5; 5] 2 3).
  - apply (fg_run_steps 2 [OInsert 5; OInsert 5] _ FineGrainedList.new_list
             [RVoid; RVoid]); [apply FineGrainedList.steps_refl|].
    vm_compute. reflexivity.
  - vm_compute. reflexivity.
  - simpl. lia.
Defined.

Lemma fg_reachable_size s l :
  FineGrainedList.reachable s → FineGrainedList.Inv s l →
  size (FineGrainedList.heap s) = S (length l).
Proof.
  intros Hreach HI.
  destruct (fg_reachable_dom _ Hreach) as (l' & HI' & Hdom).
  assert (l' = l) as ->.
  { destruct HI as (H1 & _), HI' as (H1' & _).
    pose proof (lseg_functional _ _ _ _ _ _ H1' _ H1) as Heq.
    by injection Heq. }
  destruct HI as (_ & Hnd & _).
  rewrite <- size_dom, Hdom, size_list_to_set by done.
  simpl. by rewrite !length_fmap.
Qed.

(** X2. The lock-coupling list holds no garbage: in every state a
    thread can reach, the allocated nodes are the sentinel and one node
    per entry of the snapshot, and the thread holds no mutex. *)
Theorem X2_fg_no_garbage (s : FineGrainedList.state) (snap : list Z)
    (fuel0 : nat) :
  FineGrainedList.reachable s →
  FineGrainedList.snapshot fuel0 s = Ok (snap, s) →
  size (FineGrainedList.heap s) = S (length snap) ∧
  FineGrainedList.locks s = ∅.
Proof.
  intros Hreach Hsnap.
  destruct (fg_reachable_Inv _ Hreach) as (l & HI & _).
  destruct (FGFacts.fg_snapshot_inv _ _ _ _ _ HI Hsnap) as [-> _].
  rewrite length_fmap. split; [by apply fg_reachable_size|].
  by destruct HI as (_ & _ & _ & HL).
Qed.

Lemma X2_fg_no_garbage_witness :
  size (FineGrainedList.heap FineGrainedList.two_fives) = 3%nat ∧
  FineGrainedList.locks FineGrainedList.two_fives = ∅.
Proof.
  apply (X2_fg_no_garbage _ [5; 5] 2).
  - apply (fg_run_steps 2 [OInsert 5; OInsert 5] _ FineGrainedList.new_list
             [RVoid; RVoid]); [apply FineGrainedList.steps_refl|].
    vm_compute. reflexivity.
  - vm_compute. reflexivity.
Defined.

(** ** Memory of the lazy list *)

(** Every allocated node of the lazy list is on the chain or marked;
    an operation allocates one node when it is an [insert] and none
    otherwise, and frees none. *)
Lemma ml_exec_garbage tries fuel o s l r s' :
  MarkedList.Inv s l →
  (∀ a n, MarkedList.heap s !! a = Some n →
          a ∈ MarkedList.head s :: l.*1 ∨ MarkedList.removed n = true) →
  MarkedList.exec tries fuel o s = Ok (r, s') →
  ∃ l', MarkedList.Inv s' l' ∧
        (∀ a n, MarkedList.heap s' !! a = Some n →
                a ∈ MarkedList.head s' :: l'.*1 ∨ MarkedList.removed n = true) ∧
        size (MarkedList.heap s')
        = (size (MarkedList.heap s) + match o with OInsert _ => 1 | _ => 0 end)%nat.
Proof.
  intros HI Hinv Hrun.
  apply (MLFacts.ml_exec_first _ _ _ _ l) in Hrun; [|done].
  assert (length l ≤ fuel + length l)%nat as Hlen by lia.
  destruct o as [v|v|v]; simpl in Hrun.
  - destruct (MLFacts.ml_insert_once_spec _ v s l HI Hlen)
      as (s1 & Hrun1 & HI1 & Hh & Hdom1 & Hnew & _ & Hfr).
    unfold MarkedList.insert in Hrun.
    rewrite (bind_ok _ _ _ _ _ (MLFacts.ml_retry_ok 0 _ _ _ _ Hrun1)) in Hrun.
    injection Hrun as _ <-.
    eexists. split_and!; [exact HI1| |].
    + intros a n Ha.
      assert (a ∈ dom (MarkedList.heap s1)) as Hin by (apply elem_of_dom; eauto).
      rewrite Hdom1 in Hin. rewrite Hh, fmap_app. simpl.
      apply elem_of_union in Hin as [->%elem_of_singleton|Hin].
      * left. right. apply elem_of_app. right. left.
      * apply elem_of_dom in Hin as [n0 Hn0].
        destruct (Hinv _ _ Hn0) as [Hch|Hrm].
        -- left. apply elem_of_cons in Hch as [->|Hch]; [left|right].
           rewrite <- (front_back v l), fmap_app in Hch.
           apply elem_of_app in Hch as [?|?]; apply elem_of_app; [by left|].
           right. by right.
        -- right. rewrite (Hfr _ _ Hn0 Hrm) in Ha. by injection Ha as <-.
    + rewrite <- !size_dom, Hdom1, size_union, size_singleton; [lia|].
      apply disjoint_singleton_l, is_fresh.
  - destruct (found v l) eqn:Hf.
    + destruct (MLFacts.ml_remove_once_hit _ v s l HI Hlen Hf)
        as (c & l2 & s1 & Eb & Hrun1 & HI1 & Hh & Hdom1 & Hc & Hc' & _ & Hfr).
      unfold MarkedList.remove in Hrun.
      rewrite (bind_ok _ _ _ _ _ (MLFacts.ml_retry_ok 0 _ _ _ _ Hrun1)) in Hrun.
      injection Hrun as _ <-.
      eexists. split_and!; [exact HI1| |].
      * intros a n Ha.
        destruct (decide (a = c)) as [->|Hne].
        { right. rewrite Hc' in Ha. by injection Ha as <-. }
        assert (a ∈ dom (MarkedList.heap s)) as Hin.
        { rewrite <- Hdom1. apply elem_of_dom. eauto. }
        apply elem_of_dom in Hin as [n0 Hn0].
        destruct (Hinv _ _ Hn0) as [Hch|Hrm].
        -- left. rewrite Hh, fmap_app.
           apply elem_of_cons in Hch as [->|Hch]; [left|right].
           rewrite <- (front_back v l), Eb, fmap_app in Hch. simpl in Hch.
           apply elem_of_app in Hch as [?|[?|?]%elem_of_cons];
             apply elem_of_app; [by left|done|by right].
        -- right. rewrite (Hfr _ _ Hn0 Hrm) in Ha. by injection Ha as <-.
      * rewrite <- !size_dom, Hdom1. lia.
    + unfold MarkedList.remove in Hrun.
      rewrite (bind_ok _ _ _ _ _
                 (MLFacts.ml_retry_ok 0 _ _ _ _
                    (MLFacts.ml_remove_once_miss _ v s l HI Hlen Hf))) in Hrun.
      injection Hrun as _ <-. exists l. split_and!; [done|done|lia].
  - unfold MarkedList.contains in Hrun.
    rewrite (bind_ok _ _ _ _ _
               (MLFacts.ml_retry_ok 0 _ _ _ _
                  (MLFacts.ml_contains_once_spec _ v s l HI Hlen))) in Hrun.
    injection Hrun as _ <-. exists l. split_and!; [done|done|lia].
Qed.

Lemma ml_new_list_garbage a n :
  MarkedList.heap MarkedList.new_list !! a = Some n →
  a ∈ MarkedList.head MarkedList.new_list :: ([] : list (addr * Z)).*1
  ∨ MarkedList.removed n = true.
Proof.
  unfold MarkedList.new_list. simpl.
  intros [-> _]%lookup_singleton_Some. left. left.
Qed.

Lemma ml_reachable_garbage s :
  MarkedList.reachable s →
  ∃ l, MarkedList.Inv s l ∧
       (∀ a n, MarkedList.heap s !! a = Some n →
               a ∈ MarkedList.head s :: l.*1 ∨ MarkedList.removed n = true).
Proof.
  induction 1 as [|tries fuel o s1 r s2 _ IH Hrun].
  - exists []. split; [apply MLFacts.ml_new_list_Inv|apply ml_new_list_garbage].
  - destruct IH as (l & HI & Hinv).
    destruct (ml_exec_garbage _ _ _ _ _ _ _ HI Hinv Hrun) as (l' & ? & ? & _).
    eauto.
Qed.

Lemma ml_destroy_from_null fuel :
  MarkedList.destroy_from fuel None = ret ().
Proof. by destruct fuel. Qed.

Lemma ml_destroy_from_spec l : ∀ fuel s,
  lseg MarkedList.value MarkedList.next MarkedList.live
    (MarkedList.heap s) (first_addr l) None l →
  NoDup (l.*1) →
  MarkedList.locks s = ∅ →
  (length l ≤ fuel)%nat →
  ∃ s', MarkedList.destroy_from fuel (first_addr l) s = Ok ((), s') ∧
        (∀ a, a ∈ l.*1 → MarkedList.heap s' !! a = None) ∧
        (∀ a, a ∉ l.*1 → MarkedList.heap s' !! a = MarkedList.heap s !! a) ∧
        MarkedList.locks s' = ∅ ∧
        MarkedList.log s' = MarkedList.log s.
Proof.
  induction l as [|[c v] l IH]; intros fuel s Hseg Hnd HL Hlen.
  - exists s. simpl. rewrite ml_destroy_from_null.
    split_and!; [done| |done|done|done]. by intros a ?%elem_of_nil.
  - change (first_addr ((c, v) :: l)) with (Some c) in *.
    destruct (lseg_cons_inv _ _ _ _ _ _ _ _ _ Hseg) as (_ & cn & Hc & _ & _ & Hrest).
    pose proof (lseg_end _ _ _ _ _ _ Hrest) as Hn.
    simpl in Hnd. apply NoDup_cons in Hnd as [Hcl Hnd].
    destruct fuel as [|k]; [simpl in Hlen; lia|].
    set (s1 := MarkedList.mkState (delete c (MarkedList.heap s))
                 (MarkedList.locks s) (MarkedList.head s) (MarkedList.log s)).
    destruct (IH k s1) as (s' & Hrun & Hin & Hout & HL' & Hlog).
    { rewrite <- Hn. simpl. by apply lseg_delete. }
    { done. }
    { done. }
    { simpl in Hlen. lia. }
    exists s'. split_and!; [| | |done|done].
    + simpl.
      rewrite (bind_ok _ _ s cn s); [|by unfold MarkedList.load; rewrite Hc].
      rewrite (bind_ok _ _ s () s1).
      * by rewrite Hn.
      * unfold MarkedList.delete_node. rewrite Hc.
        by rewrite decide_False by (rewrite HL; set_solver).
    + simpl. intros a [->|Ha]%elem_of_cons; [|by apply Hin].
      rewrite (Hout _ Hcl). simpl. apply lookup_delete_eq.
    + simpl. intros a [Hac Ha]%not_elem_of_cons.
      rewrite (Hout _ Ha). simpl. by rewrite lookup_delete_ne.
Qed.

(** X3. [~MarkedList()] frees the chain and nothing else: in every
    state a thread can reach, with an iteration bound above the length
    of what [printList] shows, the destructor returns, and the nodes
    still allocated afterwards are exactly the nodes that were marked
    removed, unchanged. *)
Theorem X3_ml_destructor_leaks_marked (s : MarkedList.state)
    (snap : list Z) (fuel0 fuel : nat) :
  MarkedList.reachable s →
  MarkedList.printList fuel0 s = Ok (snap, s) →
  (length snap < fuel)%nat →
  ∃ s', MarkedList.destructor fuel s = Ok ((), s') ∧
        (∀ a n, MarkedList.heap s' !! a = Some n ↔
                MarkedList.heap s !! a = Some n ∧ MarkedList.removed n = true).
Proof.
  intros Hreach Hsnap Hlen.
  destruct (ml_reachable_garbage _ Hreach) as (l & HI & Hinv).
  destruct (MLFacts.ml_printList_inv _ _ _ _ _ HI Hsnap) as [-> _].
  rewrite length_fmap in Hlen.
  pose proof HI as (Hseg & Hnd & _ & HL).
  destruct (ml_destroy_from_spec ((MarkedList.head s, -1) :: l) fuel s)
    as (s' & Hrun & Hin & Hout & _); [done|done|done|simpl; lia|].
  exists s'. split; [done|]. simpl in Hin, Hout. intros a n. split.
  - intros Ha. destruct (decide (a ∈ MarkedList.head s :: l.*1)) as [Hch|Hch].
    + by rewrite (Hin _ Hch) in Ha.
    + rewrite (Hout _ Hch) in Ha. split; [done|].
      by destruct (Hinv _ _ Ha).
  - intros [Ha Hr]. rewrite Hout; [done|].
    by eapply MLFacts.ml_marked_off_chain.
Qed.

Lemma X3_ml_destructor_leaks_marked_witness :
  ∃ s', MarkedList.destructor 2
          (ml_after [OInsert 5; OInsert 5; ORemove 5]) = Ok ((), s') ∧
        (∀ a n, MarkedList.heap s' !! a = Some n ↔
                MarkedList.heap (ml_after [OInsert 5; OInsert 5; ORemove 5]) !! a
                  = Some n ∧ MarkedList.removed n = true).
Proof.
  apply (X3_ml_destructor_leaks_marked _ [5] 1 2).
  - ml_by_running [OInsert 5; OInsert 5; ORemove 5] [RVoid; RVoid; RBool true].
  - vm_compute. reflexivity.
  - simpl. lia.
Defined.

(** ** Counting allocations *)

Lemma remove_length v l :
  (length (SortedSet.remove v l).2
   + (if (SortedSet.remove v l).1 then 1 else 0) = length l)%nat.
Proof.
  induction l as [|x l IH]; simpl; [done|].
  destruct (x =? v); simpl; [lia|].
  destruct (SortedSet.remove v l) as [b r]. simpl in *. lia.
Qed.

Lemma spec_insert_length v l : length (SortedSet.insert v l) = S (length l).
Proof.
  induction l as [|y l IH]; simpl; [done|].
  destruct (y <? v); simpl; [by rewrite IH | done].
Qed.

Lemma spec_run_account ops : ∀ l,
  (length (spec_run ops l).2 + total_removes ops (spec_run ops l).1
   = length l + total_inserts ops)%nat.
Proof.
  induction ops as [|o ops IH]; intros l; simpl; [lia|].
  destruct o as [v|v|v]; simpl.
  - specialize (IH (SortedSet.insert v l)). rewrite spec_insert_length in IH.
    destruct (spec_run ops (SortedSet.insert v l)). simpl in *. lia.
  - pose proof (remove_length v l) as Hr.
    destruct (SortedSet.remove v l) as [b l1]. specialize (IH l1).
    destruct (spec_run ops l1). simpl in *. destruct b; lia.
  - specialize (IH l). destruct (spec_run ops l). simpl in *. lia.
Qed.

Lemma total_inserts_le ops : (total_inserts ops ≤ length ops)%nat.
Proof. induction ops as [|[]]; simpl; lia. Qed.

Lemma fg_run_Inv fuel ops : ∀ s l rs s',
  FineGrainedList.Inv s l →
  FineGrainedList.run fuel ops s = Ok (rs, s') →
  ∃ l', FineGrainedList.Inv s' l' ∧
        rs = (spec_run ops (l.*2)).1 ∧ l'.*2 = (spec_run ops (l.*2)).2.
Proof.
  induction ops as [|o ops IH]; intros s l rs s' HI; simpl.
  - intros [= <- <-]. eauto.
  - unfold bind at 1.
    destruct (FineGrainedList.exec fuel o s) as [[r s1]| |] eqn:E; [|done..].
    unfold bind at 1.
    destruct (FineGrainedList.run fuel ops s1) as [[rs1 s2]| |] eqn:E2; [|done..].
    intros [= <- <-].
    destruct (FGFacts.fg_exec_Inv _ _ _ _ _ _ HI E) as (l1 & HI1 & _ & Hr & Hl1).
    destruct (IH _ _ _ _ HI1 E2) as (l2 & HI2 & Hrs & Hl2).
    exists l2. destruct (spec_exec o (l.*2)) as [r' la]. simpl in *. subst.
    destruct (spec_run ops (l1.*2)). simpl in *. by subst.
Qed.

Lemma ml_run_Inv tries fuel ops : ∀ s l rs s',
  MarkedList.Inv s l →
  (∀ a n, MarkedList.heap s !! a = Some n →
          a ∈ MarkedList.head s :: l.*1 ∨ MarkedList.removed n = true) →
  MarkedList.run tries fuel ops s = Ok (rs, s') →
  ∃ l', MarkedList.Inv s' l' ∧
        rs = (spec_run ops (l.*2)).1 ∧ l'.*2 = (spec_run ops (l.*2)).2 ∧
        size (MarkedList.heap s') = (size (MarkedList.heap s) + total_inserts ops)%nat.
Proof.
  induction ops as [|o ops IH]; intros s l rs s' HI Hinv; simpl.
  - intros [= <- <-]. exists l. split_and!; [done|done|done|lia].
  - unfold bind at 1.
    destruct (MarkedList.exec tries fuel o s) as [[r s1]| |] eqn:E; [|done..].
    unfold bind at 1.
    destruct (MarkedList.run tries fuel ops s1) as [[rs1 s2]| |] eqn:E2; [|done..].
    intros [= <- <-].
    destruct (MLFacts.ml_exec_Inv _ _ _ _ _ _ _ HI E) as (l1 & HI1 & _ & Hr & Hl1 & _).
    destruct (ml_exec_garbage _ _ _ _ _ _ _ HI Hinv E) as (l1' & HI1' & Hinv1 & Hsz).
    assert (l1' = l1) as ->.
    { destruct HI1 as (H1 & _), HI1' as (H1' & _).
      pose proof (lseg_functional _ _ _ _ _ _ H1' _ H1) as Heq.
      by injection Heq. }
    destruct (IH _ _ _ _ HI1 Hinv1 E2) as (l2 & HI2 & Hrs & Hl2 & Hsz2).
    exists l2. destruct (spec_exec o (l.*2)) as [r' la]. simpl in *. subst.
    destruct (spec_run ops (l1.*2)). simpl in *. subst.
    split_and!; [done|done|done|]. rewrite Hsz2, Hsz. destruct o; lia.
Qed.

(** X4. The lazy list never gives memory back.  After any history a
    thread has completed from the empty list, the memory holds the
    sentinel and one node for every [insert] of the history, removed
    or not, while [printList] shows the inserts less the [remove] calls
    that returned [true]. *)
Theorem X4_ml_memory_grows (ops : list op) (rs : list result)
    (s : MarkedList.state) (tries fuel : nat) :
  MarkedList.run tries fuel ops MarkedList.new_list = Ok (rs, s) →
  size (MarkedList.heap s) = S (total_inserts ops) ∧
  ∃ snap, MarkedList.printList (length ops) s = Ok (snap, s) ∧
          (length snap + total_removes ops rs = total_inserts ops)%nat.
Proof.
  intros Hrun.
  destruct (ml_run_Inv _ _ _ _ _ _ _ MLFacts.ml_new_list_Inv ml_new_list_garbage Hrun)
    as (l & HI & Hrs & Hl & Hsz).
  pose proof (spec_run_account ops []) as Hacc.
  simpl in *. rewrite <- Hrs, <- Hl, length_fmap in Hacc.
  split.
  - rewrite Hsz. unfold MarkedList.new_list. simpl. by rewrite map_size_singleton.
  - exists (l.*2). rewrite length_fmap. split; [|done].
    apply MLFacts.ml_printList_spec; [done|].
    pose proof (total_inserts_le ops). lia.
Qed.

Lemma X4_ml_memory_grows_witness :
  ∃ s,
    MarkedList.run 1 3 [OInsert 5; OInsert 5; ORemove 5] MarkedList.new_list
      = Ok ([RVoid; RVoid; RBool true], s) ∧
    size (MarkedList.heap s) = 3%nat ∧
    ∃ snap, MarkedList.printList 3 s = Ok (snap, s) ∧ (length snap + 1 = 2)%nat.
Proof.
  assert (∃ s, MarkedList.run 1 3 [OInsert 5; OInsert 5; ORemove 5]
                 MarkedList.new_list = Ok ([RVoid; RVoid; RBool true], s))
    as [s Hrun] by (eexists; vm_compute; reflexivity).
  exists s. split; [done|].
  apply (X4_ml_memory_grows _ _ _ _ _ Hrun).
Defined.

(** X5. The lock-coupling list gives every removed node back.  After
    any history a thread has completed from the empty list, the memory
    holds the sentinel and one node for every [insert] of the history
    less the [remove] calls that returned [true]. *)
Theorem X5_fg_memory_balance (ops : list op) (rs : list result)
    (s : FineGrainedList.state) (fuel : nat) :
  FineGrainedList.run fuel ops FineGrainedList.new_list = Ok (rs, s) →
  (size (FineGrainedList.heap s) + total_removes ops rs
   = S (total_inserts ops))%nat.
Proof.
  intros Hrun.
  destruct (fg_run_Inv _ _ _ _ _ _ FGFacts.fg_new_list_Inv Hrun)
    as (l & HI & Hrs & Hl).
  assert (FineGrainedList.reachable s) as Hreach.
  { eapply fg_run_steps; [apply FineGrainedList.steps_refl|exact Hrun]. }
  rewrite (fg_reachable_size _ _ Hreach HI).
  pose proof (spec_run_account ops []) as Hacc.
  simpl in *. rewrite <- Hrs, <- Hl, length_fmap in Hacc. lia.
Qed.

Lemma X5_fg_memory_balance_witness :
  ∃ s,
    FineGrainedList.run 3 [OInsert 5; OInsert 5; ORemove 5] FineGrainedList.new_list
      = Ok ([RVoid; RVoid; RBool true], s) ∧
    (size (FineGrainedList.heap s) + 1 = 3)%nat.
Proof.
  assert (∃ s, FineGrainedList.run 3 [OInsert 5; OInsert 5; ORemove 5]
                 FineGrainedList.new_list = Ok ([RVoid; RVoid; RBool true], s))
    as [s Hrun] by (eexists; vm_compute; reflexivity).
  exists s. split; [done|].
  apply (X5_fg_memory_balance _ _ _ _ Hrun).
Defined.

(** ** Where the traversal stops *)

Lemma stop_pred_below (a : addr) (l pre : list (addr * Z)) p w v :
  (a, -1) :: front v l = pre ++ [(p, w)] → p = a ∨ w < v.
Proof.
  intros E.
  assert ((p, w) ∈ (a, -1) :: front v l) as Hin.
  { rewrite E. apply elem_of_app. right. left. }
  apply elem_of_cons in Hin as [[= -> ->]|Hin]; [by left|right].
  pose proof (front_below v l) as Hb.
  eapply Forall_forall in Hb; [|exact Hin]. done.
Qed.

(** X6. The traversal of the lock-coupling list.  In every state a
    thread can reach, when the common prologue of [insert], [remove]
    and [contains] returns the pair [(pred, curr)] for the argument
    [v]: the memory is untouched; [pred->next == curr]; [pred] is the
    sentinel or holds a value below [v]; [curr] is null or holds a
    value of at least [v]; and the thread holds the mutexes of these
    two nodes and no other. *)
Theorem X6_fg_locate (s st : FineGrainedList.state) (v : Z) (fuel : nat)
    (p : addr) (cr : ptr) :
  FineGrainedList.reachable s →
  FineGrainedList.locate fuel v s = Ok ((p, cr), st) →
  FineGrainedList.heap st = FineGrainedList.heap s ∧
  FineGrainedList.head st = FineGrainedList.head s ∧
  FineGrainedList.locks st = {[ p ]} ∪ ptr_set cr ∧
  (p ∉ ptr_set cr) ∧
  ∃ pn, FineGrainedList.heap s !! p = Some pn ∧
        FineGrainedList.next pn = cr ∧
        (p = FineGrainedList.head s ∨ FineGrainedList.value pn < v) ∧
        (∀ c, cr = Some c →
              ∃ cn, FineGrainedList.heap s !! c = Some cn ∧
                    v <= FineGrainedList.value cn).
Proof.
  intros Hreach Hloc.
  destruct (fg_reachable_Inv _ Hreach) as (l & HI & _).
  apply (FGFacts.fg_locate_mono fuel (fuel + length l)) in Hloc; [|lia].
  destruct (FGFacts.fg_stop_facts (fuel + length l) v s l HI)
    as (Hloc' & _ & pre & pn & E & Hp & Hpn & _ & Hback & _ & _ & _ & _ & _ & Hpc);
    [lia|].
  rewrite Hloc' in Hloc. injection Hloc as <- <- <-. simpl.
  split_and!; [done|done|done|done|].
  exists pn. split_and!; [done|done|by eapply stop_pred_below|].
  intros c Hc. destruct (back v l) as [|[d w] l2] eqn:Eb; [done|].
  injection Hc as <-.
  destruct (lseg_cons_inv _ _ _ _ _ _ _ _ _ Hback) as (_ & cn & Hcn & Hv & _).
  exists cn. split; [done|]. rewrite Hv.
  apply (back_head v l (d, w) l2 Eb).
Qed.

Lemma X6_fg_locate_witness :
  ∃ p cr st,
    FineGrainedList.locate 2 7 (fg_after [OInsert 5; OInsert 9]) = Ok ((p, cr), st) ∧
    FineGrainedList.locks st = {[ p ]} ∪ ptr_set cr ∧
    ∃ pn, FineGrainedList.heap (fg_after [OInsert 5; OInsert 9]) !! p = Some pn ∧
          FineGrainedList.next pn = cr ∧
          (p = FineGrainedList.head (fg_after [OInsert 5; OInsert 9])
           ∨ FineGrainedList.value pn < 7).
Proof.
  assert (∃ p cr st, FineGrainedList.locate 2 7 (fg_after [OInsert 5; OInsert 9])
                     = Ok ((p, cr), st)) as (p & cr & st & Hloc)
    by (eexists _, _, _; vm_compute; reflexivity).
  exists p, cr, st. split; [done|].
  assert (FineGrainedList.reachable (fg_after [OInsert 5; OInsert 9])) as Hreach
    by (fg_by_running [OInsert 5; OInsert 9] [RVoid; RVoid]).
  destruct (X6_fg_locate _ _ _ _ _ _ Hreach Hloc)
    as (_ & _ & HL & _ & pn & Hp & Hn & Hv & _).
  split; [done|]. by exists pn.
Defined.

(** X7. The traversal of the lazy list.  In every state a thread can
    reach, when steps (1) to (4) of an operation return the pair
    [(pred, curr)] for the argument [v], validation has succeeded, and:
    the memory and the log are untouched; [pred->next == curr]; [pred]
    is unmarked, and is the sentinel or holds a value below [v];
    [curr] is null or an unmarked node with a value of at least [v];
    and the thread holds the mutexes of these two nodes and no other. *)
Theorem X7_ml_locate (s st : MarkedList.state) (v : Z) (fuel : nat)
    (p : addr) (cr : ptr) (ok : bool) :
  MarkedList.reachable s →
  MarkedList.locate fuel v s = Ok ((p, cr, ok), st) →
  ok = true ∧
  MarkedList.heap st = MarkedList.heap s ∧
  MarkedList.log st = MarkedList.log s ∧
  MarkedList.locks st = {[ p ]} ∪ ptr_set cr ∧
  (p ∉ ptr_set cr) ∧
  ∃ pn, MarkedList.heap s !! p = Some pn ∧
        MarkedList.next pn = cr ∧
        MarkedList.removed pn = false ∧
        (p = MarkedList.head s ∨ MarkedList.value pn < v) ∧
        (∀ c, cr = Some c →
              ∃ cn, MarkedList.heap s !! c = Some cn ∧
                    MarkedList.removed cn = false ∧
                    v <= MarkedList.value cn).
Proof.
  intros Hreach Hloc.
  destruct (ml_reachable_Inv _ Hreach) as (l & HI & _).
  apply (MLFacts.ml_locate_mono fuel (fuel + length l)) in Hloc; [|lia].
  destruct (MLFacts.ml_stop_facts (fuel + length l) v s l HI)
    as (Hloc' & _ & pre & pn & E & Hp & Hrm & Hpn & _ & Hback
        & _ & _ & _ & _ & _ & Hpc); [lia|].
  rewrite Hloc' in Hloc. injection Hloc as <- <- <- <-. simpl.
  split_and!; [done|done|done|done|done|].
  exists pn. split_and!; [done|done|done|by eapply stop_pred_below|].
  intros c Hc. destruct (back v l) as [|[d w] l2] eqn:Eb; [done|].
  injection Hc as <-.
  destruct (lseg_cons_inv _ _ _ _ _ _ _ _ _ Hback) as (_ & cn & Hcn & Hv & Hl & _).
  exists cn. split_and!; [done| |].
  - unfold MarkedList.live in Hl. by destruct (MarkedList.removed cn).
  - rewrite Hv. apply (back_head v l (d, w) l2 Eb).
Qed.

Lemma X7_ml_locate_witness :
  ∃ p cr st,
    MarkedList.locate 2 7 (ml_after [OInsert 5; OInsert 9]) = Ok ((p, cr, true), st) ∧
    MarkedList.locks st = {[ p ]} ∪ ptr_set cr.
Proof.
  assert (∃ p cr ok st, MarkedList.locate 2 7 (ml_after [OInsert 5; OInsert 9])
                        = Ok ((p, cr, ok), st)) as (p & cr & ok & st & Hloc)
    by (eexists _, _, _, _; vm_compute; reflexivity).
  assert (MarkedList.reachable (ml_after [OInsert 5; OInsert 9])) as Hreach
    by (ml_by_running [OInsert 5; OInsert 9] [RVoid; RVoid]).
  destruct (X7_ml_locate _ _ _ _ _ _ _ Hreach Hloc)
    as (-> & _ & _ & HL & _).
  by exists p, cr, st.
Defined.

(** ** Sorting by insertion *)

Lemma spec_insert_perm v l : SortedSet.insert v l ≡ₚ v :: l.
Proof.
  induction l as [|y l IH]; simpl; [done|].
  destruct (y <? v); [|done]. by rewrite IH, Permutation_swap.
Qed.

Lemma spec_run_inserts vs : ∀ l,
  (spec_run (OInsert <$> vs) l).1 = replicate (length vs) RVoid ∧
  (spec_run (OInsert <$> vs) l).2 ≡ₚ vs ++ l.
Proof.
  induction vs as [|v vs IH]; intros l; [done|].
  destruct (IH (SortedSet.insert v l)) as [H1 H2].
  change (spec_run (OInsert <$> v :: vs) l)
    with (let '(rs, l') := spec_run (OInsert <$> vs) (SortedSet.insert v l) in
          (RVoid :: rs, l')).
  destruct (spec_run (OInsert <$> vs) (SortedSet.insert v l)) as [rs l'].
  simpl in *. split; [by rewrite H1|].
  rewrite H2, spec_insert_perm. by rewrite Permutation_middle.
Qed.

(** X8. Inserting sorts.  When a thread inserts the values [vs], in
    any order, into the empty list of either variant, with an
    iteration bound of at least their number, all calls complete and
    the snapshot is [vs] sorted: the same entries, duplicates kept, in
    non-decreasing order. *)
Theorem X8_insert_sorts (vs : list Z) (tries fuel : nat) :
  (length vs ≤ fuel)%nat →
  (∃ s, FineGrainedList.run fuel (OInsert <$> vs) FineGrainedList.new_list
          = Ok (replicate (length vs) RVoid, s) ∧
        FineGrainedList.snapshot fuel s = Ok (merge_sort Z.le vs, s)) ∧
  (∃ s, MarkedList.run (S tries) fuel (OInsert <$> vs) MarkedList.new_list
          = Ok (replicate (length vs) RVoid, s) ∧
        MarkedList.printList fuel s = Ok (merge_sort Z.le vs, s)).
Proof.
  intros Hfuel.
  destruct (spec_run_inserts vs []) as [Hrs Hperm]. rewrite app_nil_r in Hperm.
  assert (∀ l : list (addr * Z),
            StronglySorted Z.le (l.*2) →
            l.*2 = (spec_run (OInsert <$> vs) []).2 →
            l.*2 = merge_sort Z.le vs) as Huniq.
  { intros l Hs E. apply (Sorted_unique Z.le).
    - by apply StronglySorted_Sorted.
    - apply Sorted_merge_sort. apply _.
    - by rewrite E, Hperm, merge_sort_Permutation. }
  split.
  - destruct (FGFacts.fg_run_refines fuel (OInsert <$> vs) _ []
                FGFacts.fg_new_list_Inv) as (s & l & Hrun & HI & E & _ & Hl).
    { simpl. by rewrite length_fmap. }
    simpl in *. rewrite length_fmap in Hl.
    exists s. rewrite <- Hrs. split; [done|].
    rewrite <- (Huniq l); [|by destruct HI as (_ & _ & ? & _)|done].
    apply FGFacts.fg_snapshot_spec; [done|lia].
  - destruct (MLFacts.ml_run_refines tries fuel (OInsert <$> vs) _ []
                MLFacts.ml_new_list_Inv) as (s & l & Hrun & HI & E & _ & Hl & _).
    { simpl. by rewrite length_fmap. }
    simpl in *. rewrite length_fmap in Hl.
    exists s. rewrite <- Hrs. split; [done|].
    rewrite <- (Huniq l); [|by destruct HI as (_ & _ & ? & _)|done].
    apply MLFacts.ml_printList_spec; [done|lia].
Qed.

Lemma X8_insert_sorts_witness :
  (∃ s, FineGrainedList.run 4 (OInsert <$> [3; 1; 3; 2]) FineGrainedList.new_list
          = Ok (replicate 4 RVoid, s) ∧
        FineGrainedList.snapshot 4 s = Ok (merge_sort Z.le [3; 1; 3; 2], s)) ∧
  (∃ s, MarkedList.run 1 4 (OInsert <$> [3; 1; 3; 2]) MarkedList.new_list
          = Ok (replicate 4 RVoid, s) ∧
        MarkedList.printList 4 s = Ok (merge_sort Z.le [3; 1; 3; 2], s)).
Proof. apply (X8_insert_sorts [3; 1; 3; 2] 0 4). simpl. lia. Defined.

(** ** Insert, then remove *)

Lemma front_inserted v a (l k : list (addr * Z)) :
  front v (front v l ++ (a, v) :: k) = front v l.
Proof.
  induction l as [|x l IH]; simpl.
  - by rewrite Z.ltb_irrefl.
  - destruct (x.2 <? v) eqn:E; simpl; [by rewrite E, IH|].
    by rewrite Z.ltb_irrefl.
Qed.

Lemma back_inserted v a (l k : list (addr * Z)) :
  back v (front v l ++ (a, v) :: k) = (a, v) :: k.
Proof.
  induction l as [|x l IH]; simpl.
  - by rewrite Z.ltb_irrefl.
  - destruct (x.2 <? v) eqn:E; simpl; [by rewrite E, IH|].
    by rewrite Z.ltb_irrefl.
Qed.

Lemma found_inserted v a (l k : list (addr * Z)) :
  found v (front v l ++ (a, v) :: k) = true.
Proof. unfold found. rewrite back_inserted. simpl. apply Z.eqb_refl. Qed.

(** The chain fixes the contents of its nodes. *)
Lemma fg_lseg_lookup_det h h' l : ∀ p,
  lseg FineGrainedList.value FineGrainedList.next FineGrainedList.live h p None l →
  lseg FineGrainedList.value FineGrainedList.next FineGrainedList.live h' p None l →
  ∀ a, a ∈ l.*1 → h !! a = h' !! a.
Proof.
  induction l as [|[b w] l IH]; intros p H H' a; simpl.
  - by intros ?%elem_of_nil.
  - destruct (lseg_cons_inv _ _ _ _ _ _ _ _ _ H) as (_ & n & Hn & Hv & _ & Hrest).
    destruct (lseg_cons_inv _ _ _ _ _ _ _ _ _ H') as (_ & n' & Hn' & Hv' & _ & Hrest').
    pose proof (lseg_end _ _ _ _ _ _ Hrest) as Hnx.
    pose proof (lseg_end _ _ _ _ _ _ Hrest') as Hnx'.
    assert (n = n') as <-.
    { destruct n, n'. simpl in *. congruence. }
    intros [->|Ha]%elem_of_cons; [congruence|].
    by apply (IH _ Hrest Hrest').
Qed.

Lemma fg_state_canonical s s' l :
  FineGrainedList.Inv s l → FineGrainedList.Inv s' l →
  FineGrainedList.head s' = FineGrainedList.head s →
  dom (FineGrainedList.heap s) = list_to_set (FineGrainedList.head s :: l.*1) →
  dom (FineGrainedList.heap s') = dom (FineGrainedList.heap s) →
  s' = s.
Proof.
  intros (Hseg & _ & _ & HL) (Hseg' & _ & _ & HL') Hh Hdom Hdom'.
  rewrite Hh in Hseg'.
  destruct s as [h L a], s' as [h' L' a']. simpl in *. subst. f_equal.
  apply map_eq. intros b.
  destruct (decide (b ∈ a :: l.*1)) as [Hin|Hout].
  - by apply (fg_lseg_lookup_det _ _ _ _ Hseg' Hseg).
  - assert (b ∉ dom h) as Hb by (rewrite Hdom; set_solver).
    assert (b ∉ dom h') as Hb' by (by rewrite Hdom').
    apply not_elem_of_dom in Hb, Hb'. congruence.
Qed.

(** X9. A round trip on the lock-coupling list.  In every state a
    thread can reach, [insert(v)] followed by [remove(v)] completes,
    [remove] returns [true], and the list is back in the state it
    started from: the same memory, the same head and no mutex held. *)
Theorem X9_fg_insert_remove (s : FineGrainedList.state) (snap : list Z)
    (v : Z) (fuel0 fuel : nat) :
  FineGrainedList.reachable s →
  FineGrainedList.snapshot fuel0 s = Ok (snap, s) →
  (length snap ≤ fuel)%nat →
  (FineGrainedList.insert fuel v;;; FineGrainedList.remove (S fuel) v) s
  = Ok (true, s).
Proof.
  intros Hreach Hsnap Hlen.
  destruct (fg_reachable_dom _ Hreach) as (l & HI & Hdom).
  destruct (FGFacts.fg_snapshot_inv _ _ _ _ _ HI Hsnap) as [-> _].
  rewrite length_fmap in Hlen.
  destruct (FGFacts.fg_insert_spec fuel v s l HI Hlen)
    as (s1 & Hrun1 & HI1 & Hh1 & Hdom1 & _).
  set (new := fresh (dom (FineGrainedList.heap s))) in *.
  assert (length (front v l ++ (new, v) :: back v l) ≤ S fuel)%nat as Hlen1.
  { pose proof (f_equal length (front_back v l)) as Hfb.
    rewrite length_app in Hfb. rewrite length_app. simpl. lia. }
  destruct (FGFacts.fg_remove_hit (S fuel) v s1 _ HI1 Hlen1 (found_inserted _ _ _ _))
    as (c & l2 & s2 & Eb & Hrun2 & HI2 & Hh2 & Hdom2).
  rewrite back_inserted in Eb. injection Eb as <- <-.
  rewrite front_inserted, front_back in HI2.
  rewrite (bind_ok _ _ _ _ _ Hrun1), Hrun2. do 2 f_equal.
  apply (fg_state_canonical _ _ l); [done|done|congruence|done|].
  rewrite Hdom2, Hdom1.
  assert (new ∉ dom (FineGrainedList.heap s)) by apply is_fresh. set_solver.
Qed.

Lemma X9_fg_insert_remove_witness :
  (FineGrainedList.insert 2 7;;; FineGrainedList.remove 3 7)
    (fg_after [OInsert 5; OInsert 9])
  = Ok (true, fg_after [OInsert 5; OInsert 9]).
Proof.
  apply (X9_fg_insert_remove _ [5; 9] 7 2 2).
  - fg_by_running [OInsert 5; OInsert 9] [RVoid; RVoid].
  - vm_compute. reflexivity.
  - simpl. lia.
Defined.

(** X10. The same round trip on the lazy list.  In every state a
    thread can reach, [insert(v)] followed by [remove(v)] completes,
    [remove] returns [true] and [printList] shows what it showed
    before; but the node stays behind, marked: the memory holds one
    node more than before. *)
Theorem X10_ml_insert_remove (s : MarkedList.state) (snap : list Z)
    (v : Z) (fuel0 tries fuel : nat) :
  MarkedList.reachable s →
  MarkedList.printList fuel0 s = Ok (snap, s) →
  (length snap ≤ fuel)%nat →
  ∃ s' new nx,
    (MarkedList.insert (S tries) fuel v;;;
     MarkedList.remove (S tries) (S fuel) v) s = Ok (true, s') ∧
    MarkedList.printList fuel s' = Ok (snap, s') ∧
    size (MarkedList.heap s') = S (size (MarkedList.heap s)) ∧
    MarkedList.heap s !! new = None ∧
    MarkedList.heap s' !! new = Some (MarkedList.mkNode v nx true).
Proof.
  intros Hreach Hsnap Hlen.
  destruct (ml_reachable_Inv _ Hreach) as (l & HI & _).
  destruct (MLFacts.ml_printList_inv _ _ _ _ _ HI Hsnap) as [-> _].
  rewrite length_fmap in Hlen.
  destruct (MLFacts.ml_insert_once_spec fuel v s l HI Hlen)
    as (s1 & Hrun1 & HI1 & Hh1 & Hdom1 & _).
  set (new := fresh (dom (MarkedList.heap s))) in *.
  assert (length (front v l ++ (new, v) :: back v l) ≤ S fuel)%nat as Hlen1.
  { pose proof (f_equal length (front_back v l)) as Hfb.
    rewrite length_app in Hfb. rewrite length_app. simpl. lia. }
  destruct (MLFacts.ml_remove_once_hit (S fuel) v s1 _ HI1 Hlen1
              (found_inserted _ _ _ _))
    as (c & l2 & s2 & Eb & Hrun2 & HI2 & Hh2 & Hdom2 & _ & Hc' & _).
  rewrite back_inserted in Eb. injection Eb as <- <-.
  rewrite front_inserted, front_back in HI2.
  exists s2, new, (first_addr (back v l)). split_and!.
  - unfold MarkedList.insert, MarkedList.remove.
    rewrite (bind_ok _ _ _ _ _ (MLFacts.ml_retry_ok tries _ _ _ _ Hrun1)).
    by apply MLFacts.ml_retry_ok.
  - by apply MLFacts.ml_printList_spec.
  - rewrite <- !size_dom, Hdom2, Hdom1, size_union, size_singleton; [lia|].
    apply disjoint_singleton_l, is_fresh.
  - apply not_elem_of_dom, is_fresh.
  - done.
Qed.

Lemma X10_ml_insert_remove_witness :
  ∃ s' new nx,
    (MarkedList.insert 1 2 7;;; MarkedList.remove 1 3 7)
      (ml_after [OInsert 5; OInsert 9]) = Ok (true, s') ∧
    MarkedList.printList 2 s' = Ok ([5; 9], s') ∧
    size (MarkedList.heap s')
    = S (size (MarkedList.heap (ml_after [OInsert 5; OInsert 9]))) ∧
    MarkedList.heap (ml_after [OInsert 5; OInsert 9]) !! new = None ∧
    MarkedList.heap s' !! new = Some (MarkedList.mkNode 7 nx true).
Proof.
  apply (X10_ml_insert_remove _ [5; 9] 7 2 0 2).
  - ml_by_running [OInsert 5; OInsert 9] [RVoid; RVoid].
  - vm_compute. reflexivity.
  - simpl. lia.
Defined.

(** ** Reading *)

(** X11. [contains] only reads.  In every state a thread can reach, on
    either variant, with [snap] the snapshot and an iteration bound of
    at least its length, [contains(v)] returns whether [v] occurs in
    [snap] and leaves the state exactly as it was: the same memory, no
    mutex held, and in the lazy list no write logged. *)
Theorem X11_contains_reads (sf : FineGrainedList.state) (sm : MarkedList.state)
    (snapf snapm : list Z) (v : Z) (fuelf fuelm tries fuel : nat) :
  FineGrainedList.reachable sf →
  FineGrainedList.snapshot fuelf sf = Ok (snapf, sf) →
  MarkedList.reachable sm →
  MarkedList.printList fuelm sm = Ok (snapm, sm) →
  (length snapf ≤ fuel)%nat →
  (length snapm ≤ fuel)%nat →
  FineGrainedList.contains fuel v sf = Ok (bool_decide (v ∈ snapf), sf) ∧
  MarkedList.contains (S tries) fuel v sm = Ok (bool_decide (v ∈ snapm), sm).
Proof.
  intros Hrf Hsf Hrm Hsm Hlf Hlm. split.
  - destruct (fg_reachable_Inv _ Hrf) as (l & HI & _).
    destruct (FGFacts.fg_snapshot_inv _ _ _ _ _ HI Hsf) as [-> _].
    rewrite length_fmap in Hlf.
    rewrite (FGFacts.fg_contains_spec fuel v sf l HI Hlf).
    rewrite <- (found_contains v l); [done|]. by destruct HI as (_ & _ & ? & _).
  - destruct (ml_reachable_Inv _ Hrm) as (l & HI & _).
    destruct (MLFacts.ml_printList_inv _ _ _ _ _ HI Hsm) as [-> _].
    rewrite length_fmap in Hlm.
    unfold MarkedList.contains.
    rewrite (MLFacts.ml_retry_ok tries _ _ _ _
               (MLFacts.ml_contains_once_spec fuel v sm l HI Hlm)).
    rewrite <- (found_contains v l); [done|]. by destruct HI as (_ & _ & ? & _).
Qed.

Lemma X11_contains_reads_witness :
  FineGrainedList.contains 2 9 (fg_after [OInsert 5; OInsert 9])
  = Ok (bool_decide (9 ∈ [5; 9]), fg_after [OInsert 5; OInsert 9]) ∧
  MarkedList.contains 1 2 9 (ml_after [OInsert 5; OInsert 9])
  = Ok (bool_decide (9 ∈ [5; 9]), ml_after [OInsert 5; OInsert 9]).
Proof.
  apply (X11_contains_reads _ _ [5; 9] [5; 9] 9 2 2 0 2).
  - fg_by_running [OInsert 5; OInsert 9] [RVoid; RVoid].
  - vm_compute. reflexivity.
  - ml_by_running [OInsert 5; OInsert 9] [RVoid; RVoid].
  - vm_compute. reflexivity.
  - simpl. lia.
  - simpl. lia.
Defined.

(** ** Validation *)

Lemma ml_insert_inv tries fuel v s l s' :
  MarkedList.Inv s l → MarkedList.insert tries fuel v s = Ok ((), s') →
  MarkedList.insert_once (fuel + length l) v s = Ok (Some (), s').
Proof.
  intros HI Hrun. assert (length l ≤ fuel + length l)%nat as Hlen by lia.
  destruct (MLFacts.ml_insert_once_spec _ v s l HI Hlen) as (s1 & Hrun1 & _).
  unfold MarkedList.insert in Hrun.
  apply (MLFacts.ml_retry_first _ _ (MarkedList.insert_once (fuel + length l) v))
    in Hrun.
  - simpl in Hrun. unfold bind in Hrun. rewrite Hrun1 in Hrun |- *.
    by injection Hrun as <-.
  - intros z. apply bind_mono_l. intros w. apply MLFacts.ml_locate_mono. lia.
  - eauto.
Qed.

(** X12. Validation rejects a pair that has gone stale.  In a state a
    thread can reach, let [(pred, curr)] be the pair that steps (1) to
    (4) find for [v].  Once [insert(v)] has completed, [validate(pred,
    curr)] returns [false]: [pred->next] is now the new node.  Once
    [remove(v)] has returned [true], [curr] was the removed node, and
    [validate] returns [false] for [(pred, curr)] and for every pair
    that has the removed node as its predecessor. *)
Theorem X12_ml_stale_pair (s st : MarkedList.state) (v : Z) (fuel : nat)
    (p : addr) (cr : ptr) (ok : bool) :
  MarkedList.reachable s →
  MarkedList.locate fuel v s = Ok ((p, cr, ok), st) →
  (∀ tries fuel1 s',
     MarkedList.insert tries fuel1 v s = Ok ((), s') →
     MarkedList.validate p cr s' = Ok (false, s')) ∧
  (∀ tries fuel1 s',
     MarkedList.remove tries fuel1 v s = Ok (true, s') →
     ∃ c, cr = Some c ∧
          MarkedList.validate p cr s' = Ok (false, s') ∧
          ∀ q, MarkedList.validate c q s' = Ok (false, s')).
Proof.
  intros Hreach Hloc.
  destruct (ml_reachable_Inv _ Hreach) as (l & HI & _).
  destruct (MLFacts.ml_locate_inv _ _ _ _ _ _ _ _ HI Hloc) as (-> & -> & _).
  split.
  - intros tries fuel1 s' Hrun.
    apply (ml_insert_inv _ _ _ _ l) in Hrun; [|done].
    destruct (MLFacts.ml_insert_once_spec (fuel1 + length l) v s l HI)
      as (s1 & Hrun1 & HI1 & Hh1 & Hdom1 & _); [lia|].
    rewrite Hrun1 in Hrun. injection Hrun as <-.
    set (new := fresh (dom (MarkedList.heap s))) in *.
    set (l1 := front v l ++ (new, v) :: back v l) in *.
    destruct (MLFacts.ml_stop_facts (length l1) v s1 l1 HI1)
      as (_ & _ & pre & pn & _ & Hp & Hrm & Hpn & _ & Hback1 & _); [done|].
    unfold l1 in Hp, Hpn, Hback1.
    rewrite front_inserted, Hh1 in Hp. rewrite back_inserted in Hpn, Hback1.
    change (first_addr ((new, v) :: back v l)) with (Some new) in Hpn.
    unfold MarkedList.validate.
    rewrite (bind_ok _ _ s1 pn s1); [|by unfold MarkedList.load; rewrite Hp].
    rewrite Hrm.
    destruct (lseg_cons_inv _ _ _ _ _ _ _ _ _ Hback1) as (_ & nn & _ & _ & _ & Hback).
    destruct (back v l) as [|[c w] l2] eqn:Eb; simpl.
    + rewrite (bind_ok _ _ s1 pn s1); [|by unfold MarkedList.load; rewrite Hp].
      unfold ret. by rewrite Hpn, bool_decide_eq_false_2.
    + destruct (lseg_cons_inv _ _ _ _ _ _ _ _ _ Hback)
        as (_ & cn & Hc & _ & Hcl & _).
      rewrite (bind_ok _ _ s1 cn s1); [|by unfold MarkedList.load; rewrite Hc].
      unfold MarkedList.live in Hcl. destruct (MarkedList.removed cn); [done|].
      rewrite (bind_ok _ _ s1 pn s1); [|by unfold MarkedList.load; rewrite Hp].
      unfold ret. rewrite Hpn, bool_decide_eq_false_2; [done|].
      intros [= Heq]. apply (is_fresh (dom (MarkedList.heap s))). fold new.
      rewrite Heq. destruct HI as (Hseg & _).
      destruct (lseg_lookup _ _ _ _ _ _ _ c Hseg) as (n & Hn & _).
      { right. apply (back_first_elem_of v). by rewrite Eb. }
      apply elem_of_dom. eauto.
  - intros tries fuel1 s' Hrun.
    destruct (MLFacts.ml_remove_true_inv _ _ _ _ _ _ HI Hrun) as (Hf & Honce).
    destruct (MLFacts.ml_remove_once_hit (fuel1 + length l) v s l HI)
      as (c & l2 & s1 & Eb & Hrun1 & HI1 & Hh1 & _ & _ & Hc' & _); [lia|done|].
    rewrite Hrun1 in Honce. injection Honce as <-.
    exists c. rewrite Eb. split; [done|].
    assert (∃ pn, MarkedList.heap s1 !! last_addr (MarkedList.head s) (front v l)
                  = Some pn ∧ MarkedList.removed pn = false) as (pn & Hp & Hrm).
    { destruct HI1 as (Hseg1 & _).
      destruct (lseg_lookup _ _ _ _ _ _ _
                  (last_addr (MarkedList.head s) (front v l)) Hseg1)
        as (pn & Hp & Hl).
      - rewrite Hh1. simpl. rewrite fmap_app.
        pose proof (last_addr_elem_of (MarkedList.head s) (front v l)) as Hin.
        apply elem_of_cons in Hin as [->|Hin]; [left|right].
        apply elem_of_app. by left.
      - exists pn. split; [done|].
        unfold MarkedList.live in Hl. by destruct (MarkedList.removed pn). }
    set (cn := MarkedList.mkNode v (first_addr l2) true) in *.
    split.
    + unfold MarkedList.validate.
      rewrite (bind_ok _ _ s1 pn s1); [|by unfold MarkedList.load; rewrite Hp].
      rewrite Hrm. simpl.
      by rewrite (bind_ok _ _ s1 cn s1); [|by unfold MarkedList.load; rewrite Hc'].
    + intros q. unfold MarkedList.validate.
      by rewrite (bind_ok _ _ s1 cn s1); [|by unfold MarkedList.load; rewrite Hc'].
Qed.

Lemma X12_ml_stale_pair_witness :
  ∃ p cr st s',
    MarkedList.locate 2 9 (ml_after [OInsert 5; OInsert 9]) = Ok ((p, cr, true), st) ∧
    MarkedList.remove 1 2 9 (ml_after [OInsert 5; OInsert 9]) = Ok (true, s') ∧
    MarkedList.validate p cr s' = Ok (false, s').
Proof.
  assert (MarkedList.reachable (ml_after [OInsert 5; OInsert 9])) as Hreach
    by (ml_by_running [OInsert 5; OInsert 9] [RVoid; RVoid]).
  assert (∃ p cr st, MarkedList.locate 2 9 (ml_after [OInsert 5; OInsert 9])
                     = Ok ((p, cr, true), st)) as (p & cr & st & Hloc)
    by (eexists _, _, _; vm_compute; reflexivity).
  assert (∃ s', MarkedList.remove 1 2 9 (ml_after [OInsert 5; OInsert 9])
                = Ok (true, s')) as (s' & Hrun)
    by (eexists; vm_compute; reflexivity).
  destruct (X12_ml_stale_pair _ _ _ _ _ _ _ Hreach Hloc) as [_ Hrem].
  destruct (Hrem _ _ _ Hrun) as (c & _ & Hval & _).
  by exists p, cr, st, s'.
Defined.









(** ** Pointers into the lazy list *)

Lemma lseg_pair_lookup {N} (value : N → Z) (next : N → ptr) (live : N → bool)
    (h : gmap addr N) p q l a w :
  lseg value next live h p q l → (a, w) ∈ l →
  ∃ n, h !! a = Some n ∧ value n = w ∧ live n = true.
Proof.
  induction 1 as [|b m q l Hb Hl _ IH]; [by intros ?%elem_of_nil|].
  intros [[= -> ->]|Hin]%elem_of_cons; eauto.
Qed.

Lemma lseg_lookup_pair {N} (value : N → Z) (next : N → ptr) (live : N → bool)
    (h : gmap addr N) p q l a n :
  lseg value next live h p q l → h !! a = Some n → a ∈ l.*1 →
  (a, value n) ∈ l.
Proof.
  induction 1 as [|b m q l Hb Hl _ IH]; simpl; [by intros _ ?%elem_of_nil|].
  intros Ha Hin. destruct (decide (a = b)) as [->|Hne].
  - rewrite Hb in Ha. injection Ha as ->. left.
  - apply elem_of_cons in Hin as [?|Hin]; [done|]. right. by apply IH.
Qed.

Lemma ml_steps_trans s1 s2 s3 :
  MarkedList.steps s1 s2 → MarkedList.steps s2 s3 → MarkedList.steps s1 s3.
Proof.
  intros H12. induction 1 as [|tries fuel o s r s' _ IH Hrun]; [done|].
  by eapply MarkedList.steps_exec.
Qed.

(** An operation frees no node and changes no value; a marked node is
    left as it is. *)
Lemma ml_exec_stable tries fuel o s l r s' :
  MarkedList.Inv s l →
  (∀ a n, MarkedList.heap s !! a = Some n →
          a ∈ MarkedList.head s :: l.*1 ∨ MarkedList.removed n = true) →
  MarkedList.exec tries fuel o s = Ok (r, s') →
  ∀ a n, MarkedList.heap s !! a = Some n →
         ∃ n', MarkedList.heap s' !! a = Some n' ∧
               MarkedList.value n' = MarkedList.value n ∧
               (MarkedList.removed n = true → n' = n).
Proof.
  intros HI Hinv Hrun a n Ha.
  apply (MLFacts.ml_exec_first _ _ _ _ l) in Hrun; [|done].
  assert (length l ≤ fuel + length l)%nat as Hlen by lia.
  assert (MarkedList.removed n = false →
          (a, MarkedList.value n) ∈ (MarkedList.head s, -1) :: l) as Hpair.
  { intros Hrm. destruct HI as (Hseg & _).
    eapply lseg_lookup_pair; [exact Hseg|done|].
    destruct (Hinv _ _ Ha) as [?|?]; [done|congruence]. }
  assert (∀ s1 l1,
            MarkedList.Inv s1 l1 →
            (a, MarkedList.value n) ∈ (MarkedList.head s1, -1) :: l1 →
            MarkedList.removed n = false →
            ∃ n', MarkedList.heap s1 !! a = Some n' ∧
                  MarkedList.value n' = MarkedList.value n ∧
                  (MarkedList.removed n = true → n' = n)) as Hon.
  { intros s1 l1 (Hseg1 & _) Hin Hrm.
    destruct (lseg_pair_lookup _ _ _ _ _ _ _ _ _ Hseg1 Hin) as (n' & Hn' & Hv & _).
    exists n'. split_and!; [done|done|congruence]. }
  destruct o as [v|v|v]; simpl in Hrun.
  - destruct (MLFacts.ml_insert_once_spec _ v s l HI Hlen)
      as (s1 & Hrun1 & HI1 & Hh & _ & _ & _ & Hfr).
    unfold MarkedList.insert in Hrun.
    rewrite (bind_ok _ _ _ _ _ (MLFacts.ml_retry_ok 0 _ _ _ _ Hrun1)) in Hrun.
    injection Hrun as _ <-.
    destruct (MarkedList.removed n) eqn:Hrm; [by exists n; eauto|].
    apply (Hon _ _ HI1); [|done]. rewrite Hh.
    apply elem_of_cons in Hpair as [->|Hin]; [left|right|done].
    rewrite <- (front_back v l) in Hin.
    apply elem_of_app in Hin as [?|?]; apply elem_of_app; [by left|].
    right. by right.
  - destruct (found v l) eqn:Hf.
    + destruct (MLFacts.ml_remove_once_hit _ v s l HI Hlen Hf)
        as (c & l2 & s1 & Eb & Hrun1 & HI1 & Hh & _ & Hc & Hc' & _ & Hfr).
      unfold MarkedList.remove in Hrun.
      rewrite (bind_ok _ _ _ _ _ (MLFacts.ml_retry_ok 0 _ _ _ _ Hrun1)) in Hrun.
      injection Hrun as _ <-.
      destruct (MarkedList.removed n) eqn:Hrm; [by exists n; eauto|].
      destruct (decide (a = c)) as [->|Hne].
      { rewrite Hc in Ha. injection Ha as <-. eexists. split_and!; done. }
      apply (Hon _ _ HI1); [|done]. rewrite Hh.
      apply elem_of_cons in Hpair as [->|Hin]; [left|right|done].
      rewrite <- (front_back v l), Eb in Hin.
      apply elem_of_app in Hin as [?|[[= ? _]|?]%elem_of_cons];
        apply elem_of_app; [by left|done|by right].
    + unfold MarkedList.remove in Hrun.
      rewrite (bind_ok _ _ _ _ _
                 (MLFacts.ml_retry_ok 0 _ _ _ _
                    (MLFacts.ml_remove_once_miss _ v s l HI Hlen Hf))) in Hrun.
      injection Hrun as _ <-. exists n. eauto.
  - unfold MarkedList.contains in Hrun.
    rewrite (bind_ok _ _ _ _ _
               (MLFacts.ml_retry_ok 0 _ _ _ _
                  (MLFacts.ml_contains_once_spec _ v s l HI Hlen))) in Hrun.
    injection Hrun as _ <-. exists n. eauto.
Qed.

(** X14. No pointer into the lazy list ever dangles.  A node that is
    allocated in a state a thread can reach is still allocated in
    every later state, with the same value; once it is marked it does
    not change at all.  No mutex is left held. *)
Theorem X14_ml_nodes_stay (s s' : MarkedList.state) (a : addr)
    (n : MarkedList.Node) :
  MarkedList.reachable s →
  MarkedList.steps s s' →
  MarkedList.heap s !! a = Some n →
  (∃ n', MarkedList.heap s' !! a = Some n' ∧
         MarkedList.value n' = MarkedList.value n ∧
         (MarkedList.removed n = true → n' = n)) ∧
  MarkedList.locks s' = ∅.
Proof.
  intros Hreach Hsteps Ha. split.
  - induction Hsteps as [|tries fuel o s1 r s2 Hst IH Hrun]; [by exists n|].
    destruct IH as (n1 & Hn1 & Hv1 & Hm1).
    destruct (ml_reachable_garbage s1) as (l1 & HI1 & Hinv1).
    { by eapply ml_steps_trans. }
    destruct (ml_exec_stable _ _ _ _ _ _ _ HI1 Hinv1 Hrun _ _ Hn1)
      as (n2 & Hn2 & Hv2 & Hm2).
    exists n2. split_and!; [done|congruence|].
    intros Hrm. specialize (Hm1 Hrm). subst n1. by apply Hm2.
  - destruct (ml_reachable_Inv s') as (l' & (_ & _ & _ & HL) & _); [|done].
    by eapply ml_steps_trans.
Qed.

Lemma X14_ml_nodes_stay_witness :
  (∃ n', MarkedList.heap (ml_after [OInsert 5; OInsert 9; ORemove 5]) !! 2%positive
         = Some n' ∧
         MarkedList.value n' = 5 ∧
         (false = true → n' = MarkedList.mkNode 5 None false)) ∧
  MarkedList.locks (ml_after [OInsert 5; OInsert 9; ORemove 5]) = ∅.
Proof.
  apply (X14_ml_nodes_stay (ml_after [OInsert 5]) _ 2%positive
           (MarkedList.mkNode 5 None false)).
  - ml_by_running [OInsert 5] [RVoid].
  - apply (ml_run_steps 1 2 [OInsert 9; ORemove 5] _ (ml_after [OInsert 5])
             [RVoid; RBool true]); [apply MarkedList.steps_refl|].
    vm_compute. reflexivity.
  - vm_compute. reflexivity.
Defined.
